(** * python-examdiff: the line-diff core (Myers solver, result builder,
      diff engine, three-way merge, unified formatter)

    A shallow embedding of [src/core/myers_algorithm.py] and
    [src/core/diff_engine.py], followed by the properties of the
    specification that concern them.

    Conventions.
    - Python [int] is [Z]; [len(l)] is [Z.of_nat (length l)].
    - Python [str] is [string] (8-bit characters), a list of lines is
      [list string].
    - A [dict] from int to int is a [gmap Z Z]; [d.get(k, dflt)] is
      [default dflt (d !! k)], [d[k]] raises [KeyError] when absent.
    - [l[i]] and [l[lo:hi]] follow Python: negative indices count from the
      end, an index out of range raises [IndexError], a slice is clipped.
    - Code that can raise or loop lives in the [result] monad: [Ok v],
      [Raise e], or [OutOfFuel] when a [while] loop was cut by its fuel. *)

From Stdlib Require Import ZArith QArith Ascii String Lia.
From stdpp Require Import base tactics option list gmap strings pretty.

Local Open Scope Z_scope.

(** ** The result monad *)

Inductive exn := IndexError | KeyError.

Inductive result (A : Type) :=
| Ok (a : A)
| Raise (e : exn)
| OutOfFuel.
Arguments Ok {A} a.
Arguments Raise {A} e.
Arguments OutOfFuel {A}.

#[global] Instance result_ret : MRet result := fun A a => Ok a.
#[global] Instance result_bind : MBind result := fun A B f r =>
  match r with
  | Ok a => f a
  | Raise e => Raise e
  | OutOfFuel => OutOfFuel
  end.

(** ** Python sequences *)

Definition len {A} (l : list A) : Z := Z.of_nat (length l).

(** [l[i]] *)
Definition py_index {A} (l : list A) (i : Z) : result A :=
  let j := if i <? 0 then i + len l else i in
  if (0 <=? j) && (j <? len l)
  then match l !! Z.to_nat j with Some a => Ok a | None => Raise IndexError end
  else Raise IndexError.

(** A slice bound, as [slice.indices] adjusts it for step 1. *)
Definition clip {A} (l : list A) (i : Z) : Z :=
  if i <? 0 then Z.max 0 (i + len l) else Z.min i (len l).

(** [l[lo:hi]] *)
Definition py_slice {A} (l : list A) (lo hi : Z) : list A :=
  take (Z.to_nat (clip l hi - clip l lo)) (drop (Z.to_nat (clip l lo)) l).

(** [d[k]] on a dict *)
Definition dict_item (d : gmap Z Z) (k : Z) : result Z :=
  match d !! k with Some x => Ok x | None => Raise KeyError end.

(** [range(lo, hi)] is [seqZ lo (hi - lo)]; the two stepped ranges of the
    solver are written out. *)
Definition range (hi : Z) : list Z := seqZ 0 hi.
(** [range(-d, d + 1, 2)] *)
Definition range_diagonals (d : Z) : list Z := (fun i => - d + 2 * i) <$> seqZ 0 (d + 1).
(** [range(d, 0, -1)] *)
Definition range_down (d : Z) : list Z := (fun i => d - i) <$> seqZ 0 d.

(** ** Python string methods used by the preprocessing

    A character is a code point below 256. [str.isspace] on that range is
    true for the six ASCII white-space characters, the four separators
    0x1c..0x1f, NEL (0x85) and the no-break space (0xa0). *)

Definition is_space (c : ascii) : bool :=
  let k := nat_of_ascii c in
  ((9 <=? k) && (k <=? 13) || (28 <=? k) && (k <=? 32) || (k =? 133) || (k =? 160))%nat.

(** [s.lstrip()] *)
Fixpoint lstrip (s : string) : string :=
  match s with
  | EmptyString => EmptyString
  | String c s' => if is_space c then lstrip s' else s
  end.

Fixpoint string_rev_onto (s acc : string) : string :=
  match s with
  | EmptyString => acc
  | String c s' => string_rev_onto s' (String c acc)
  end.
Definition string_rev (s : string) : string := string_rev_onto s EmptyString.

(** [s.rstrip()] *)
Definition rstrip (s : string) : string := string_rev (lstrip (string_rev s)).
(** [s.strip()] *)
Definition strip (s : string) : string := rstrip (lstrip s).

(** [s.split()]: the maximal runs of non-space characters. [cur] is the
    run being read, reversed. *)
Fixpoint split_go (s : string) (cur : string) : list string :=
  match s with
  | EmptyString =>
      match cur with EmptyString => [] | _ => [string_rev cur] end
  | String c s' =>
      if is_space c
      then match cur with
           | EmptyString => split_go s' EmptyString
           | _ => string_rev cur :: split_go s' EmptyString
           end
      else split_go s' (String c cur)
  end.
Definition split (s : string) : list string := split_go s EmptyString.

(** [sep.join(l)] *)
Fixpoint join (sep : string) (l : list string) : string :=
  match l with
  | [] => EmptyString
  | [s] => s
  | s :: l' => (s ++ sep ++ join sep l')%string
  end.

Definition lower_char (c : ascii) : ascii :=
  let k := nat_of_ascii c in
  if ((65 <=? k) && (k <=? 90) || (192 <=? k) && (k <=? 222) && negb (k =? 215))%nat
  then ascii_of_nat (k + 32)
  else c.

(** [s.lower()] *)
Fixpoint lower (s : string) : string :=
  match s with
  | EmptyString => EmptyString
  | String c s' => String (lower_char c) (lower s')
  end.

(** ** Data model ([myers_algorithm.py]) *)

Inductive DiffType := EQUAL | INSERT | DELETE | REPLACE.

#[global] Instance DiffType_eq_dec : EqDecision DiffType.
Proof. solve_decision. Defined.

Record DiffResult := mkDiffResult {
  type : DiffType;
  old_start : Z;
  old_count : Z;
  new_start : Z;
  new_count : Z;
  old_lines : list string;
  new_lines : list string
}.

(** The object built by [MyersDiff.__init__]. *)
Record MyersDiff := mkMyersDiff {
  seq_a : list string;
  seq_b : list string;
  ignore_case : bool;
  ignore_whitespace : bool;
  ignore_blank_lines : bool;
  processed_a : list string;
  processed_b : list string;
  n : Z;
  m : Z
}.

(** [MyersDiff._preprocess_sequence], with the three flags of [self]. *)
Definition preprocess_line (icase iws : bool) (line : string) : string :=
  let line := if iws then join " " (split line) else line in
  if icase then lower line else line.

Definition is_empty (s : string) : bool :=
  match s with EmptyString => true | _ => false end.

Fixpoint _preprocess_sequence (icase iws iblank : bool) (seq : list string) : list string :=
  match seq with
  | [] => []
  | line :: rest =>
      if iblank && is_empty (strip line)
      then _preprocess_sequence icase iws iblank rest
      else preprocess_line icase iws line :: _preprocess_sequence icase iws iblank rest
  end.

(** [MyersDiff.__init__] *)
Definition MyersDiff_init (a b : list string) (icase iws iblank : bool) : MyersDiff :=
  let pa := _preprocess_sequence icase iws iblank a in
  let pb := _preprocess_sequence icase iws iblank b in
  {| seq_a := a; seq_b := b;
     ignore_case := icase; ignore_whitespace := iws; ignore_blank_lines := iblank;
     processed_a := pa; processed_b := pb;
     n := len pa; m := len pb |}.

(** ** The shortest-edit-script solver *)

(** [MyersDiff._lines_equal] *)
Definition _lines_equal (self : MyersDiff) (x y : Z) : result bool :=
  a ← py_index (processed_a self) x;
  b ← py_index (processed_b self) y;
  mret (String.eqb a b).

(** [while x < n and y < m and self._lines_equal(x, y): x += 1; y += 1] *)
Fixpoint follow_diagonal (self : MyersDiff) (fuel : nat) (x y : Z) : result (Z * Z) :=
  match fuel with
  | O => OutOfFuel
  | S fuel' =>
      if (x <? n self) && (y <? m self)
      then eq ← _lines_equal self x y;
           if eq : bool then follow_diagonal self fuel' (x + 1) (y + 1) else mret (x, y)
      else mret (x, y)
  end.

(** The test that chooses the move into diagonal [k] at distance [d]; it
    is written twice in the source, in the search and in the
    backtracking. *)
Definition moves_down (d k : Z) (v : gmap Z Z) : bool :=
  (k =? - d) || (negb (k =? d) && (default (-1) (v !! (k - 1)) <? default (-1) (v !! (k + 1)))).

(** The body of [for k in range(-d, d + 1, 2)], up to [v[k] = x]. *)
Definition explore_diagonal (self : MyersDiff) (d k : Z) (v : gmap Z Z) : result (Z * Z) :=
  let x := if moves_down d k v
           then default 0 (v !! (k + 1))
           else default 0 (v !! (k - 1)) + 1 in
  let y := x - k in
  follow_diagonal self (S (Z.to_nat (n self - x))) x y.

Inductive round := Reached | Explored (v : gmap Z Z).

(** [for k in range(-d, d + 1, 2): ...] with its early [return]. *)
Fixpoint explore (self : MyersDiff) (d : Z) (ks : list Z) (v : gmap Z Z) : result round :=
  match ks with
  | [] => mret (Explored v)
  | k :: ks' =>
      '(x, y) ← explore_diagonal self d k v;
      let v := <[k := x]> v in
      if (n self <=? x) && (m self <=? y)
      then mret Reached
      else explore self d ks' v
  end.

(** [for d in range(max_d + 1): ...]: [Some (trace, d)] when the loop is
    left through [return self._backtrack(trace, d)], [None] when it runs
    to its end. *)
Fixpoint search (self : MyersDiff) (ds : list Z) (v : gmap Z Z) (trace : list (gmap Z Z))
  : result (option (list (gmap Z Z) * Z)) :=
  match ds with
  | [] => mret None
  | d :: ds' =>
      let trace := trace ++ [v] in
      r ← explore self d (range_diagonals d) v;
      match r with
      | Reached => mret (Some (trace, d))
      | Explored v => search self ds' v trace
      end
  end.

Definition forward_search (self : MyersDiff) : result (option (list (gmap Z Z) * Z)) :=
  let max_d := n self + m self in
  search self (range (max_d + 1)) {[1 := 0]} [].

(** [while x > prev_x and y > prev_y: x -= 1; y -= 1; path.append((x, y))] *)
Fixpoint walk_back (fuel : nat) (x y prev_x prev_y : Z) (path : list (Z * Z))
  : result (Z * Z * list (Z * Z)) :=
  match fuel with
  | O => OutOfFuel
  | S fuel' =>
      if (prev_x <? x) && (prev_y <? y)
      then walk_back fuel' (x - 1) (y - 1) prev_x prev_y (path ++ [(x - 1, y - 1)])
      else mret (x, y, path)
  end.

(** [for depth in range(d, 0, -1): ...] of [_backtrack] *)
Fixpoint backtrack_loop (depths : list Z) (trace : list (gmap Z Z))
    (x y : Z) (path : list (Z * Z)) : result (list (Z * Z)) :=
  match depths with
  | [] => mret path
  | depth :: depths' =>
      v ← py_index trace depth;
      let k := x - y in
      let prev_k := if moves_down depth k v then k + 1 else k - 1 in
      prev_x ← dict_item v prev_k;
      let prev_y := prev_x - prev_k in
      '(x, y, path) ← walk_back (S (Z.to_nat (x - prev_x))) x y prev_x prev_y path;
      if 0 <? depth
      then if prev_x <? x
           then backtrack_loop depths' trace prev_x y (path ++ [(prev_x, y)])
           else backtrack_loop depths' trace x prev_y (path ++ [(x, prev_y)])
      else backtrack_loop depths' trace x y path
  end.

Definition pair_eqb (p q : Z * Z) : bool := (p.1 =? q.1) && (p.2 =? q.2).

(** [MyersDiff._backtrack] *)
Definition _backtrack (self : MyersDiff) (trace : list (gmap Z Z)) (d : Z)
  : result (list (Z * Z)) :=
  path ← backtrack_loop (range_down d) trace (n self) (m self) [(n self, m self)];
  let path := reverse path in
  let path := match path with
              | [] => [(0, 0)]
              | p :: _ => if pair_eqb p (0, 0) then path else (0, 0) :: path
              end in
  last ← py_index path (-1);
  mret (if pair_eqb last (n self, m self) then path else path ++ [(n self, m self)]).

(** [MyersDiff._find_shortest_edit_script] *)
Definition _find_shortest_edit_script (self : MyersDiff) : result (list (Z * Z)) :=
  r ← forward_search self;
  match r with
  | Some (trace, d) => _backtrack self trace d
  | None => mret [(0, 0); (n self, m self)]
  end.

(** ** The diff result builder *)

(** The inner [while j < len(path) - 1] of the equal branch. *)
Fixpoint equal_block_end (fuel : nat) (path : list (Z * Z)) (j : Z) : result Z :=
  match fuel with
  | O => OutOfFuel
  | S fuel' =>
      if j <? len path - 1
      then '(x_next, y_next) ← py_index path j;
           '(x_after, y_after) ← py_index path (j + 1);
           if (x_after =? x_next + 1) && (y_after =? y_next + 1)
           then equal_block_end fuel' path (j + 1)
           else mret j
      else mret j
  end.

(** [while i < len(path) - 1: ...] of [_build_diff_results] *)
Fixpoint build_loop (self : MyersDiff) (fuel : nat) (path : list (Z * Z)) (i : Z)
    (results : list DiffResult) : result (list DiffResult) :=
  match fuel with
  | O => OutOfFuel
  | S fuel' =>
      if i <? len path - 1
      then
        '(x1, y1) ← py_index path i;
        '(x2, y2) ← py_index path (i + 1);
        if (x1 <? x2) && (y1 <? y2) then
          j ← equal_block_end (S (Z.to_nat (len path - (i + 1)))) path (i + 1);
          '(equal_end_x, equal_end_y) ← py_index path j;
          build_loop self fuel' path j
            (results ++ [mkDiffResult EQUAL x1 (equal_end_x - x1) y1 (equal_end_y - y1)
                           (py_slice (seq_a self) x1 equal_end_x)
                           (py_slice (seq_b self) y1 equal_end_y)])
        else if (x2 =? x1) && (y1 <? y2) then
          build_loop self fuel' path (i + 1)
            (results ++ [mkDiffResult INSERT x1 0 y1 1 [] (py_slice (seq_b self) y1 y2)])
        else if (x1 <? x2) && (y2 =? y1) then
          build_loop self fuel' path (i + 1)
            (results ++ [mkDiffResult DELETE x1 1 y1 0 (py_slice (seq_a self) x1 x2) []])
        else
          build_loop self fuel' path (i + 1) results
      else mret results
  end.

(** [MyersDiff._merge_replace_operations]: the index [i] of the source
    walks the list from the left, two steps after a merge and one
    otherwise. *)
Fixpoint _merge_replace_operations (results : list DiffResult) : list DiffResult :=
  match results with
  | [] => []
  | current :: rest =>
      match rest with
      | next_result :: rest' =>
          if bool_decide (type current = DELETE) && bool_decide (type next_result = INSERT)
          then mkDiffResult REPLACE (old_start current) (old_count current)
                 (new_start next_result) (new_count next_result)
                 (old_lines current) (new_lines next_result)
               :: _merge_replace_operations rest'
          else current :: _merge_replace_operations rest
      | [] => [current]
      end
  end.

(** [MyersDiff._build_diff_results] *)
Definition _build_diff_results (self : MyersDiff) (path : list (Z * Z))
  : result (list DiffResult) :=
  results ← build_loop self (S (Z.to_nat (len path))) path 0 [];
  mret (_merge_replace_operations results).

(** [MyersDiff.compute] *)
Definition compute (self : MyersDiff) : result (list DiffResult) :=
  edit_path ← _find_shortest_edit_script self;
  _build_diff_results self edit_path.

(** [myers_diff] *)
Definition myers_diff (a b : list string) (icase iws iblank : bool) : result (list DiffResult) :=
  compute (MyersDiff_init a b icase iws iblank).

(** ** The unified-diff formatter *)

Definition newline : string := String (ascii_of_nat 10) EmptyString.

(** What one iteration of [for result in results] appends to [output]. *)
Definition format_hunk (result : DiffResult) : list string :=
  if bool_decide (type result = EQUAL) then []
  else
    let old_start := old_start result + 1 in
    let new_start := new_start result + 1 in
    [("@@ -" ++ pretty old_start ++ "," ++ pretty (old_count result)
       ++ " +" ++ pretty new_start ++ "," ++ pretty (new_count result) ++ " @@")%string]
    ++ (if bool_decide (type result = DELETE) || bool_decide (type result = REPLACE)
        then (fun line => ("-" ++ line)%string) <$> old_lines result else [])
    ++ (if bool_decide (type result = INSERT) || bool_decide (type result = REPLACE)
        then (fun line => ("+" ++ line)%string) <$> new_lines result else []).

(** [format_diff_unified]; [context_lines] is accepted and not used. *)
Definition format_diff_unified_lines (results : list DiffResult)
    (filename_a filename_b : string) : list string :=
  [("--- " ++ filename_a)%string; ("+++ " ++ filename_b)%string]
  ++ concat (format_hunk <$> results).

Definition format_diff_unified (results : list DiffResult)
    (filename_a filename_b : string) (context_lines : Z) : string :=
  join newline (format_diff_unified_lines results filename_a filename_b).

(** ** The diff engine ([diff_engine.py]) *)

(** The two library modules the engine calls: [re] and [difflib]. Their
    code is not part of the repository; the engine is written over their
    interfaces. *)
Class Regex := {
  (** [re.sub(pattern, repl, line)] *)
  re_sub : string -> string -> string -> string;
  (** [bool(re.search(pattern, line))] *)
  re_search : string -> string -> bool
}.

Inductive Tag := tag_equal | tag_delete | tag_insert | tag_replace.

(** One tuple [(tag, i1, i2, j1, j2)] of [SequenceMatcher.get_opcodes]. *)
Definition Opcode : Type := Tag * Z * Z * Z * Z.

Class Difflib := {
  (** [difflib.SequenceMatcher(None, a, b).ratio() >= threshold] on two
      strings; the ratio is a float. *)
  ratio_ge : string -> string -> Q -> bool;
  (** [difflib.SequenceMatcher(None, a, b).get_opcodes()] on two lists of
      words *)
  get_opcodes : list string -> list string -> list Opcode
}.

(** [self.options]; a key that is absent has the default of its [get]. *)
Record Options := mkOptions {
  opt_ignore_case : bool;
  opt_ignore_whitespace : bool;
  opt_ignore_blank_lines : bool;
  opt_ignore_leading_whitespace : bool;
  opt_ignore_trailing_whitespace : bool;
  opt_ignore_comments : bool;
  opt_comment_patterns : option (list string);
  opt_ignore_line_patterns : list string;
  opt_fuzzy_matching : bool;
  opt_moving_block_detection : bool
}.

(** [DiffEngine()] with no options. *)
Definition no_options : Options :=
  mkOptions false false false false false false None [] false false.

Record WordDiff := mkWordDiff {
  wd_type : DiffType;
  word : string;
  start_pos : Z;
  end_pos : Z
}.

Section Engine.
Context {regex : Regex} {difflib : Difflib}.

Definition default_comment_patterns : list string :=
  ["//.*$"; "#.*$"; "/\*.*?\*/"]%string.

(** [DiffEngine._remove_comments] *)
Definition _remove_comments (options : Options) (line : string) : string :=
  let comment_patterns := default default_comment_patterns (opt_comment_patterns options) in
  foldl (fun line pattern => re_sub pattern EmptyString line) line comment_patterns.

(** [DiffEngine._matches_any_pattern] *)
Fixpoint _matches_any_pattern (line : string) (patterns : list string) : bool :=
  match patterns with
  | [] => false
  | pattern :: patterns' =>
      if re_search pattern line then true else _matches_any_pattern line patterns'
  end.

(** The body of the loop of [DiffEngine._preprocess_lines]: [None] for
    [continue], [Some line] for [processed.append(line)]. *)
Definition preprocess_engine_line (options : Options) (line : string) : option string :=
  if opt_ignore_blank_lines options && is_empty (strip line) then None
  else
    let line := if opt_ignore_leading_whitespace options then lstrip line else line in
    let line := if opt_ignore_trailing_whitespace options then rstrip line else line in
    let line := if opt_ignore_comments options then _remove_comments options line else line in
    let ignore_patterns := opt_ignore_line_patterns options in
    if negb (bool_decide (ignore_patterns = [])) && _matches_any_pattern line ignore_patterns
    then None
    else Some line.

(** [DiffEngine._preprocess_lines] *)
Definition _preprocess_lines (options : Options) (lines : list string) : list string :=
  omap (preprocess_engine_line options) lines.

Definition threshold : Q := 0.6%Q.

(** [DiffEngine._apply_fuzzy_matching]; as in
    [_merge_replace_operations] the index walks the list from the left. *)
Fixpoint _apply_fuzzy_matching (results : list DiffResult) (lines_a lines_b : list string)
  : list DiffResult :=
  match results with
  | [] => []
  | result :: rest =>
      match rest with
      | next_result :: rest' =>
          if bool_decide (type result = DELETE) && bool_decide (type next_result = INSERT)
             && ratio_ge (join newline (old_lines result))
                         (join newline (new_lines next_result)) threshold
          then mkDiffResult REPLACE (old_start result) (old_count result)
                 (new_start next_result) (new_count next_result)
                 (old_lines result) (new_lines next_result)
               :: _apply_fuzzy_matching rest' lines_a lines_b
          else result :: _apply_fuzzy_matching rest lines_a lines_b
      | [] => [result]
      end
  end.

(** The matching of [_detect_moving_blocks]: for each deleted block the
    first inserted block with the same lines that is not matched yet. *)
Fixpoint first_match (del_lines : list string) (inserted : list (Z * list string))
    (j : Z) (taken : list Z) : option Z :=
  match inserted with
  | [] => None
  | (_, ins_lines) :: inserted' =>
      if bool_decide (j ∈ taken) then first_match del_lines inserted' (j + 1) taken
      else if bool_decide (del_lines = ins_lines) then Some j
      else first_match del_lines inserted' (j + 1) taken
  end.

Fixpoint find_moves (deleted inserted : list (Z * list string)) (i : Z)
    (moves : gmap Z Z) : gmap Z Z :=
  match deleted with
  | [] => moves
  | (_, del_lines) :: deleted' =>
      let moves :=
        match first_match del_lines inserted 0 (snd <$> map_to_list moves) with
        | Some j => <[i := j]> moves
        | None => moves
        end in
      find_moves deleted' inserted (i + 1) moves
  end.

(** [DiffEngine._detect_moving_blocks]: the moves are computed and
    dropped, the results are returned as they came. *)
Definition _detect_moving_blocks (results : list DiffResult) (lines_a lines_b : list string)
  : list DiffResult :=
  let deleted_blocks :=
    omap (fun r => if bool_decide (type r = DELETE)
                   then Some (old_start r, old_lines r) else None) results in
  let inserted_blocks :=
    omap (fun r => if bool_decide (type r = INSERT)
                   then Some (new_start r, new_lines r) else None) results in
  let moves := find_moves deleted_blocks inserted_blocks 0 ∅ in
  results.

(** [DiffEngine.compare_lines] *)
Definition compare_lines (options : Options) (lines_a lines_b : list string)
  : result (list DiffResult) :=
  let processed_a := _preprocess_lines options lines_a in
  let processed_b := _preprocess_lines options lines_b in
  let differ := MyersDiff_init processed_a processed_b
                  (opt_ignore_case options) (opt_ignore_whitespace options)
                  (opt_ignore_blank_lines options) in
  results ← compute differ;
  let results := if opt_fuzzy_matching options
                 then _apply_fuzzy_matching results lines_a lines_b else results in
  let results := if opt_moving_block_detection options
                 then _detect_moving_blocks results lines_a lines_b else results in
  mret results.

(** [re.findall(r'\S+|\s+', line)]: the line cut into its maximal runs
    of non-space and of space characters. *)
Fixpoint findall_runs (s : string) : list string :=
  match s with
  | EmptyString => []
  | String c s' =>
      match findall_runs s' with
      | String c' t :: rest =>
          if Bool.eqb (is_space c) (is_space c')
          then String c (String c' t) :: rest
          else String c EmptyString :: String c' t :: rest
      | _ => [String c EmptyString]
      end
  end.

Definition str_len (s : string) : Z := Z.of_nat (String.length s).

(** [for i in range(i1, i2): word_diffs.append(WordDiff(ty, words[i],
    pos, pos + len(words[i]))); pos += len(words[i])] *)
Fixpoint emit_words (ty : DiffType) (words : list string) (indices : list Z)
    (pos : Z) (word_diffs : list WordDiff) : result (Z * list WordDiff) :=
  match indices with
  | [] => mret (pos, word_diffs)
  | i :: indices' =>
      w ← py_index words i;
      emit_words ty words indices' (pos + str_len w)
        (word_diffs ++ [mkWordDiff ty w pos (pos + str_len w)])
  end.

(** [sum(len(w) for w in ws)] *)
Definition sum_len (ws : list string) : Z := foldr (fun w acc => str_len w + acc) 0 ws.

(** [for tag, i1, i2, j1, j2 in matcher.get_opcodes(): ...] *)
Fixpoint words_loop (words_a words_b : list string) (opcodes : list Opcode)
    (pos_a pos_b : Z) (word_diffs : list WordDiff) : result (list WordDiff) :=
  match opcodes with
  | [] => mret word_diffs
  | (tag, i1, i2, j1, j2) :: opcodes' =>
      match tag with
      | tag_equal =>
          '(pos_a, word_diffs) ← emit_words EQUAL words_a (seqZ i1 (i2 - i1)) pos_a word_diffs;
          let pos_b := pos_b + sum_len (py_slice words_b j1 j2) in
          words_loop words_a words_b opcodes' pos_a pos_b word_diffs
      | tag_delete =>
          '(pos_a, word_diffs) ← emit_words DELETE words_a (seqZ i1 (i2 - i1)) pos_a word_diffs;
          words_loop words_a words_b opcodes' pos_a pos_b word_diffs
      | tag_insert =>
          '(pos_b, word_diffs) ← emit_words INSERT words_b (seqZ j1 (j2 - j1)) pos_b word_diffs;
          words_loop words_a words_b opcodes' pos_a pos_b word_diffs
      | tag_replace =>
          '(pos_a, word_diffs) ← emit_words DELETE words_a (seqZ i1 (i2 - i1)) pos_a word_diffs;
          '(pos_b, word_diffs) ← emit_words INSERT words_b (seqZ j1 (j2 - j1)) pos_b word_diffs;
          words_loop words_a words_b opcodes' pos_a pos_b word_diffs
      end
  end.

(** [DiffEngine.compare_words] *)
Definition compare_words (line_a line_b : string) : result (list WordDiff) :=
  let words_a := findall_runs line_a in
  let words_b := findall_runs line_b in
  words_loop words_a words_b (get_opcodes words_a words_b) 0 0 [].

(** A value of the change map of [_build_change_map]. *)
Record Change := mkChange {
  ch_type : DiffType;
  ch_old_count : Z;
  ch_new_lines : list string
}.

(** A conflict of [three_way_merge]. *)
Record Conflict := mkConflict {
  c_line : Z;
  c_base_lines : list string;
  c_yours_lines : list string;
  c_theirs_lines : list string
}.

(** [DiffEngine._build_change_map] *)
Definition _build_change_map (diff_results : list DiffResult) : gmap Z Change :=
  foldl (fun change_map result =>
           if bool_decide (type result <> EQUAL)
           then <[old_start result :=
                    mkChange (type result) (old_count result) (new_lines result)]> change_map
           else change_map)
        ∅ diff_results.

(** [c or 1] on an int *)
Definition or_1 (c : Z) : Z := if c =? 0 then 1 else c.

(** One iteration of [while i < len(base_lines)] of [three_way_merge]:
    the new [i], [merged_lines] and [conflicts]. Every value of a change
    map has the key ['old_count'], so the two
    [change.get('old_count', 1)] of the last branch are the counts
    themselves. *)
Definition merge_step (base_lines : list string) (yours_changes theirs_changes : gmap Z Change)
    (i : Z) (merged_lines : list string) (conflicts : list Conflict)
  : result (Z * list string * list Conflict) :=
  match yours_changes !! i, theirs_changes !! i with
  | None, None =>
      line ← py_index base_lines i;
      mret (i + 1, merged_lines ++ [line], conflicts)
  | Some yours_change, None =>
      mret (i + or_1 (ch_old_count yours_change),
            merged_lines ++ ch_new_lines yours_change, conflicts)
  | None, Some theirs_change =>
      mret (i + or_1 (ch_old_count theirs_change),
            merged_lines ++ ch_new_lines theirs_change, conflicts)
  | Some yours_change, Some theirs_change =>
      let step := Z.max (ch_old_count yours_change) (ch_old_count theirs_change) in
      if bool_decide (ch_new_lines yours_change = ch_new_lines theirs_change)
      then mret (i + step, merged_lines ++ ch_new_lines yours_change, conflicts)
      else
        let conflict :=
          mkConflict i
            (py_slice base_lines i
               (i + Z.max (ch_old_count yours_change) (ch_old_count theirs_change)))
            (ch_new_lines yours_change) (ch_new_lines theirs_change) in
        mret (i + step,
              merged_lines ++ ["<<<<<<< YOURS"%string] ++ ch_new_lines yours_change
                ++ ["======="%string] ++ ch_new_lines theirs_change
                ++ [">>>>>>> THEIRS"%string],
              conflicts ++ [conflict])
  end.

(** [while i < len(base_lines): ...]; the loop has no bound of its own,
    [fuel] counts its iterations. *)
Fixpoint merge_loop (fuel : nat) (base_lines : list string)
    (yours_changes theirs_changes : gmap Z Change)
    (i : Z) (merged_lines : list string) (conflicts : list Conflict)
  : result (list string * list Conflict) :=
  if i <? len base_lines
  then match fuel with
       | O => OutOfFuel
       | S fuel' =>
           '(i, merged_lines, conflicts) ←
             merge_step base_lines yours_changes theirs_changes i merged_lines conflicts;
           merge_loop fuel' base_lines yours_changes theirs_changes i merged_lines conflicts
       end
  else mret (merged_lines, conflicts).

(** [DiffEngine.three_way_merge], its loop run for at most [fuel]
    iterations. *)
Definition three_way_merge (fuel : nat) (options : Options)
    (base_lines yours_lines theirs_lines : list string)
  : result (list string * list Conflict) :=
  yours_diff ← compare_lines options base_lines yours_lines;
  theirs_diff ← compare_lines options base_lines theirs_lines;
  let yours_changes := _build_change_map yours_diff in
  let theirs_changes := _build_change_map theirs_diff in
  merge_loop fuel base_lines yours_changes theirs_changes 0 [] [].
End Engine.

(** ** Vocabulary of the specification *)

(** *** The edit graph

    [reach a b d x y]: the point [(x, y)] ends a path from the origin
    that has [d] horizontal or vertical moves. A diagonal move needs
    equal elements, so it stays inside the grid of [a] and [b]; the other
    two moves are free, as they are for the solver, which lets [x] and
    [y] run past [n] and [m]. *)
Inductive reach (a b : list string) : Z -> Z -> Z -> Prop :=
| reach_origin : reach a b 0 0 0
| reach_diag d x y s :
    reach a b d x y ->
    a !! Z.to_nat x = Some s -> b !! Z.to_nat y = Some s ->
    reach a b d (x + 1) (y + 1)
| reach_right d x y : reach a b d x y -> reach a b (d + 1) (x + 1) y
| reach_down d x y : reach a b d x y -> reach a b (d + 1) x (y + 1).

(** [L] is the length of a longest common subsequence of [a] and [b]. *)
Definition is_lcs_length (a b : list string) (L : nat) : Prop :=
  (exists s, s `sublist_of` a /\ s `sublist_of` b /\ length s = L) /\
  (forall s, s `sublist_of` a -> s `sublist_of` b -> (length s <= L)%nat).

(** The diagonals of round [d]: what [range_diagonals d] enumerates. *)
Definition in_round (d k : Z) : Prop := exists i, 0 <= i <= d /\ k = - d + 2 * i.

(** The diagonal through [(e, e - k)] cannot be followed further. *)
Definition closed (a b : list string) (k e : Z) : Prop :=
  forall s, a !! Z.to_nat e = Some s -> b !! Z.to_nat (e - k) = Some s -> False.

(** No path with [d] moves gets further on diagonal [k] than [e]. *)
Definition furthest (a b : list string) (d k e : Z) : Prop :=
  forall x y, reach a b d x y -> x - y = k -> x <= e.

(** The point from which round [d] starts on diagonal [k], as
    [explore_diagonal] computes it. *)
Definition start_x (d k : Z) (v : gmap Z Z) : Z :=
  if moves_down d k v then default 0 (v !! (k + 1)) else default 0 (v !! (k - 1)) + 1.

Definition prev_diagonal (d k : Z) (v : gmap Z Z) : Z :=
  if moves_down d k v then k + 1 else k - 1.

(** What the snapshots of [trace] say about the end point [e] that round
    [d] stored for diagonal [k]: the choice the solver made there can be
    read again from [trace[d]], and leads to an end point of round
    [d - 1] of which the same holds. *)
Inductive traced (trace : list (gmap Z Z)) : Z -> Z -> Z -> Prop :=
| traced_0 e : 0 <= e -> traced trace 0 0 e
| traced_S d k e v prev_x :
    0 < d ->
    trace !! Z.to_nat d = Some v ->
    v !! prev_diagonal d k v = Some prev_x ->
    traced trace (d - 1) (prev_diagonal d k v) prev_x ->
    (if moves_down d k v then prev_x else prev_x + 1) <= e ->
    traced trace d k e.

(** The end point [e] stored for diagonal [k] in round [d]. *)
Definition end_point (self : MyersDiff) (trace : list (gmap Z Z)) (d k e : Z) : Prop :=
  reach (processed_a self) (processed_b self) d e (e - k) /\
  closed (processed_a self) (processed_b self) k e /\
  furthest (processed_a self) (processed_b self) d k e /\
  traced trace d k e.

(** The state of the search when round [d] begins. *)
Definition round_start (self : MyersDiff) (d : Z) (v : gmap Z Z) (trace : list (gmap Z Z))
  : Prop :=
  0 <= d /\ len trace = d /\
  (d = 0 -> v = {[1 := 0]}) /\
  (forall k, in_round (d - 1) k ->
     exists e, v !! k = Some e /\ end_point self trace (d - 1) k e) /\
  (forall d', d' < d -> ~ reach (processed_a self) (processed_b self) d' (n self) (m self)).

(** *** Edit paths *)

Definition is_diag (p q : Z * Z) : Prop := p.1 < q.1 /\ p.2 < q.2.
Definition is_edit (p q : Z * Z) : Prop :=
  (q.1 = p.1 /\ q.2 = p.2 + 1) \/ (q.1 = p.1 + 1 /\ q.2 = p.2).

(** Every step of the path is a diagonal run or one insertion or one
    deletion. *)
Inductive good_path : list (Z * Z) -> Prop :=
| good_path_one p : good_path [p]
| good_path_cons p q rest :
    is_diag p q \/ is_edit p q -> good_path (q :: rest) -> good_path (p :: q :: rest).

(** The number of steps of the path that are not diagonal. *)
Fixpoint edits (path : list (Z * Z)) : Z :=
  match path with
  | p :: rest =>
      match rest with
      | q :: _ => (if (p.1 <? q.1) && (p.2 <? q.2) then 0 else 1) + edits rest
      | [] => 0
      end
  | [] => 0
  end.

(** *** Operation lists *)

(** The inserted and deleted lines of an operation. *)
Definition edit_units_of (r : DiffResult) : Z :=
  match type r with
  | EQUAL => 0
  | INSERT => new_count r
  | DELETE => old_count r
  | REPLACE => old_count r + new_count r
  end.

(** The number of non-Equal line units of an operation list. *)
Definition edit_units (ops : list DiffResult) : Z :=
  foldr (fun r acc => edit_units_of r + acc) 0 ops.

(** An operation lies on the two sequences it was cut from. *)
Definition op_ok (a b : list string) (r : DiffResult) : Prop :=
  0 <= old_start r /\ 0 <= new_start r /\ 0 <= old_count r /\ 0 <= new_count r /\
  old_lines r = py_slice a (old_start r) (old_start r + old_count r) /\
  new_lines r = py_slice b (new_start r) (new_start r + new_count r) /\
  (type r = INSERT -> old_count r = 0 /\ new_count r = 1) /\
  (type r = DELETE -> new_count r = 0 /\ old_count r = 1) /\
  (type r = REPLACE -> old_count r = 1 /\ new_count r = 1).

(** [chain a b x y ops x' y']: the operations tile the old side from [x]
    to [x'] and the new side from [y] to [y'], each starting where the one
    before it stopped. *)
Inductive chain (a b : list string) : Z -> Z -> list DiffResult -> Z -> Z -> Prop :=
| chain_nil x y : chain a b x y [] x y
| chain_cons x y r ops x' y' :
    op_ok a b r -> old_start r = x -> new_start r = y ->
    chain a b (x + old_count r) (y + new_count r) ops x' y' ->
    chain a b x y (r :: ops) x' y'.

(** The two properties of the data model: every operation within the
    two sequences, and neighbours contiguous. *)
Definition within (n m : Z) (ops : list DiffResult) : Prop :=
  Forall (fun r => old_start r + old_count r <= n /\ new_start r + new_count r <= m) ops.

Definition contiguous (ops : list DiffResult) : Prop :=
  forall (i : nat) r r', ops !! i = Some r -> ops !! S i = Some r' ->
    old_start r + old_count r = old_start r' /\
    new_start r + new_count r = new_start r'.

(** No [DELETE] is directly followed by an [INSERT]. *)
Fixpoint no_delete_insert (ops : list DiffResult) : Prop :=
  match ops with
  | r :: rest =>
      match rest with
      | r' :: _ => ~ (type r = DELETE /\ type r' = INSERT) /\ no_delete_insert rest
      | [] => True
      end
  | [] => True
  end.

(** The path of [_backtrack] while it is built, last point first: it
    starts at [(x, y)], ends at the corner [last_point] and has [E] steps
    that are not diagonal. *)
Definition descends (last_point : Z * Z) (rpath : list (Z * Z)) (x y E : Z) : Prop :=
  (exists rest, rpath = (x, y) :: rest) /\ good_path rpath /\ edits rpath = E /\
  last rpath = Some last_point.

(** *** The engine *)

(** The object [compare_lines] builds and so the two sequences it really
    compares: the lines after the engine's own filters and then the
    solver's normalisation. *)
Definition engine_differ {regex : Regex} (options : Options) (lines_a lines_b : list string)
  : MyersDiff :=
  MyersDiff_init (_preprocess_lines options lines_a) (_preprocess_lines options lines_b)
    (opt_ignore_case options) (opt_ignore_whitespace options)
    (opt_ignore_blank_lines options).

(** Stand-ins for the two libraries, for evaluating the engine where it
    does not call them: no pattern matches anything, no two texts are
    similar, and every alignment is one replacement of everything. *)
Definition null_regex : Regex :=
  {| re_sub := fun _ _ line => line; re_search := fun _ _ => false |}.

Definition null_difflib : Difflib :=
  {| ratio_ge := fun _ _ _ => false;
     get_opcodes := fun a b => [(tag_replace, 0, len a, 0, len b)] |}.

(** A regex engine that knows one pattern, the [#.*$] of the default
    comment patterns: it cuts a line at its first [#]. The replacement is
    the empty string in the one call of the engine. *)
Fixpoint before_hash (line : string) : string :=
  match line with
  | EmptyString => EmptyString
  | String c line' => if Ascii.eqb c "#" then EmptyString else String c (before_hash line')
  end.

Definition hash_regex : Regex :=
  {| re_sub := fun pattern _ line =>
                 if String.eqb pattern "#.*$" then before_hash line else line;
     re_search := fun _ _ => false |}.

(** [{'ignore_blank_lines': True, 'ignore_comments': True}] *)
Definition blank_comment_options : Options :=
  mkOptions false false true false false true None [] false false.

(** [{'ignore_case': True}] *)
Definition ignore_case_options : Options :=
  mkOptions true false false false false false None [] false false.

(** *** Word diffs *)

(** The concatenation of a list of words. *)
Definition cat (ws : list string) : string := foldr String.append EmptyString ws.

(** The text of the entries of one of the two kinds given. *)
Definition words_of (t1 t2 : DiffType) (wds : list WordDiff) : string :=
  cat (word <$> filter (fun w => wd_type w = t1 \/ wd_type w = t2) wds).

(** What the documentation of [get_opcodes] promises of its result: the
    tuples follow one another from [(0, 0)] to the two lengths, an [equal]
    tuple spans equal words, a [delete] tuple nothing of [b], an [insert]
    tuple nothing of [a]. *)
Fixpoint opcodes_from (wa wb : list string) (i j : Z) (opcodes : list Opcode) : Prop :=
  match opcodes with
  | [] => i = len wa /\ j = len wb
  | (tag, i1, i2, j1, j2) :: rest =>
      i1 = i /\ j1 = j /\ i1 <= i2 <= len wa /\ j1 <= j2 <= len wb /\
      match tag with
      | tag_equal => py_slice wa i1 i2 = py_slice wb j1 j2
      | tag_delete => j1 = j2
      | tag_insert => i1 = i2
      | tag_replace => True
      end /\
      opcodes_from wa wb i2 j2 rest
  end.

Definition valid_opcodes (wa wb : list string) (opcodes : list Opcode) : Prop :=
  opcodes_from wa wb 0 0 opcodes.

(** The positions of an entry are as far apart as its word is long. *)
Definition well_sized (w : WordDiff) : Prop :=
  end_pos w - start_pos w = str_len (word w).

(** A [difflib] that knows one answer: the opcodes of the words of "a b"
    and "a c", an [equal] span of two words and a [replace] span of one. *)
Definition example_difflib : Difflib :=
  {| ratio_ge := fun _ _ _ => false;
     get_opcodes := fun _ _ => [(tag_equal, 0, 2, 0, 2); (tag_replace, 2, 3, 2, 3)] |}.

(** *** Matching runs

    [matched a b k s e]: on diagonal [k], the elements of [a] at the
    indices from [s] up to [e] and those of [b] that face them are
    equal. *)
Definition matched (a b : list string) (k s e : Z) : Prop :=
  forall i, s <= i < e ->
    exists c, a !! Z.to_nat i = Some c /\ b !! Z.to_nat (i - k) = Some c.

(** [traced] with the lines: the end point was reached from its start
    along matching elements, and round 0 followed its diagonal as far as
    the elements match. *)
Inductive traced_matched (a b : list string) (trace : list (gmap Z Z)) : Z -> Z -> Z -> Prop :=
| traced_matched_0 e :
    0 <= e -> matched a b 0 0 e -> closed a b 0 e -> traced_matched a b trace 0 0 e
| traced_matched_S d k e v prev_x :
    0 < d ->
    trace !! Z.to_nat d = Some v ->
    v !! prev_diagonal d k v = Some prev_x ->
    traced_matched a b trace (d - 1) (prev_diagonal d k v) prev_x ->
    (if moves_down d k v then prev_x else prev_x + 1) <= e ->
    matched a b k (if moves_down d k v then prev_x else prev_x + 1) e ->
    traced_matched a b trace d k e.

(** The second invariant of the search: every end point of the last
    round was reached along equal lines. *)
Definition round_start_matched (a b : list string) (d : Z) (v : gmap Z Z)
    (trace : list (gmap Z Z)) : Prop :=
  forall k e, in_round (d - 1) k -> v !! k = Some e -> traced_matched a b trace (d - 1) k e.

(** A diagonal step of a path that runs over matching elements only. *)
Definition is_match_run (a b : list string) (p q : Z * Z) : Prop :=
  p.1 < q.1 /\ q.1 - p.1 = q.2 - p.2 /\ matched a b (p.1 - p.2) p.1 q.1.

(** Every step of the path is a matching run or one insertion or one
    deletion. *)
Inductive sound_path (a b : list string) : list (Z * Z) -> Prop :=
| sound_path_one p : sound_path a b [p]
| sound_path_cons p q rest :
    is_match_run a b p q \/ is_edit p q -> sound_path a b (q :: rest) ->
    sound_path a b (p :: q :: rest).

(** The path of [_backtrack] while it is built, last point first. *)
Definition descends_sound (a b : list string) (last_point : Z * Z)
    (rpath : list (Z * Z)) (x y : Z) : Prop :=
  (exists rest, rpath = (x, y) :: rest) /\ sound_path a b rpath /\
  last rpath = Some last_point.

(** An Equal operation spans as many lines on one side as on the other,
    at least one, and the lines it spans in [a] are those it spans in
    [b]. *)
Definition equal_ok (a b : list string) (r : DiffResult) : Prop :=
  type r = EQUAL ->
  0 < old_count r /\ old_count r = new_count r /\
  py_slice a (old_start r) (old_start r + old_count r)
  = py_slice b (new_start r) (new_start r + new_count r).

(** [options] with the two post-processing passes switched off. *)
Definition without_post_processing (options : Options) : Options :=
  mkOptions (opt_ignore_case options) (opt_ignore_whitespace options)
    (opt_ignore_blank_lines options) (opt_ignore_leading_whitespace options)
    (opt_ignore_trailing_whitespace options) (opt_ignore_comments options)
    (opt_comment_patterns options) (opt_ignore_line_patterns options) false false.

(** The fields of an operation are consistent: the two line lists are as
    long as the two counts say. *)
Definition counts_lines (r : DiffResult) : Prop :=
  len (old_lines r) = old_count r /\ len (new_lines r) = new_count r.

(** What each kind of operation spans: one line for an Insert, a Delete
    and each side of a Replace, the same positive number of lines on both
    sides for an Equal. *)
Definition shape_ok (r : DiffResult) : Prop :=
  match type r with
  | EQUAL => 0 < old_count r /\ new_count r = old_count r
  | INSERT => old_count r = 0 /\ new_count r = 1 /\ old_lines r = []
  | DELETE => old_count r = 1 /\ new_count r = 0 /\ new_lines r = []
  | REPLACE => old_count r = 1 /\ new_count r = 1
  end.

(** One Delete for each line of [a], in order. *)
Definition deletions_of (a : list string) : list DiffResult :=
  imap (fun i line => mkDiffResult DELETE (Z.of_nat i) 1 0 0 [line] []) a.

(** One Insert for each line of [b], in order. *)
Definition insertions_of (b : list string) : list DiffResult :=
  imap (fun j line => mkDiffResult INSERT 0 0 (Z.of_nat j) 1 [] [line]) b.

(** What [_build_change_map] stores for an operation. *)
Definition change_of (r : DiffResult) : Change :=
  mkChange (type r) (old_count r) (new_lines r).

(** The operations that [_build_change_map] files under the key [i]. *)
Definition changes_at (i : Z) (ops : list DiffResult) : list DiffResult :=
  filter (fun r => type r <> EQUAL /\ old_start r = i) ops.

(** ** The statistics plugin ([plugins/example_statistics.py]) *)

(** [StatisticsPlugin.stats] *)
Record Stats := mkStats {
  stat_file1 : string;
  stat_file2 : string;
  total_diffs : Z;
  additions : Z;
  deletions : Z;
  modifications : Z;
  equal_blocks : Z
}.

(** [StatisticsPlugin.on_compare_start]: the counters it resets. *)
Definition on_compare_start (file1 file2 : string) : Stats :=
  mkStats file1 file2 0 0 0 0 0.

(** The body of [for result in diff_result] of [process_diff]. *)
Definition process_result (stats : Stats) (result : DiffResult) : Stats :=
  match type result with
  | EQUAL =>
      mkStats (stat_file1 stats) (stat_file2 stats) (total_diffs stats) (additions stats)
        (deletions stats) (modifications stats) (equal_blocks stats + 1)
  | INSERT =>
      mkStats (stat_file1 stats) (stat_file2 stats) (total_diffs stats + 1)
        (additions stats + new_count result)
        (deletions stats) (modifications stats) (equal_blocks stats)
  | DELETE =>
      mkStats (stat_file1 stats) (stat_file2 stats) (total_diffs stats + 1) (additions stats)
        (deletions stats + old_count result) (modifications stats) (equal_blocks stats)
  | REPLACE =>
      mkStats (stat_file1 stats) (stat_file2 stats) (total_diffs stats + 1) (additions stats)
        (deletions stats) (modifications stats + 1) (equal_blocks stats)
  end.

(** [StatisticsPlugin.process_diff] on a list of [DiffResult]: the
    counters after the loop; the list itself is handed back as it
    came. *)
Definition process_diff (stats : Stats) (diff_result : list DiffResult) : Stats :=
  foldl process_result stats diff_result.

(** The four statistics that [ReportGenerator._build_html] computes from
    the results before it writes the page
    ([utils/report_generator.py]). *)
Definition report_total_diffs (results : list DiffResult) : Z :=
  len (filter (fun r => type r <> EQUAL) results).

Definition report_added (results : list DiffResult) : Z :=
  foldr Z.add 0 (new_count <$> filter (fun r => type r = INSERT) results).

Definition report_deleted (results : list DiffResult) : Z :=
  foldr Z.add 0 (old_count <$> filter (fun r => type r = DELETE) results).

Definition report_modified (results : list DiffResult) : Z :=
  len (filter (fun r => type r = REPLACE) results).

(** ** Character diffs ([DiffEngine.compare_chars]) *)

(** [CharDiff] *)
Record CharDiff := mkCharDiff {
  cd_type : DiffType;
  char : string;
  position : Z
}.

(** A [str] as the sequence that [SequenceMatcher] and indexing see: its
    characters, each a string of length one. *)
Fixpoint chars (s : string) : list string :=
  match s with
  | EmptyString => []
  | String c s' => String c EmptyString :: chars s'
  end.

(** [for i in range(i1, i2): char_diffs.append(CharDiff(ty, s[i], i))] *)
Fixpoint emit_chars (ty : DiffType) (s : list string) (indices : list Z)
    (char_diffs : list CharDiff) : result (list CharDiff) :=
  match indices with
  | [] => mret char_diffs
  | i :: indices' =>
      c ← py_index s i;
      emit_chars ty s indices' (char_diffs ++ [mkCharDiff ty c i])
  end.

(** [for tag, i1, i2, j1, j2 in matcher.get_opcodes(): ...] of
    [compare_chars] *)
Fixpoint chars_loop (str_a str_b : list string) (opcodes : list Opcode)
    (char_diffs : list CharDiff) : result (list CharDiff) :=
  match opcodes with
  | [] => mret char_diffs
  | (tag, i1, i2, j1, j2) :: opcodes' =>
      match tag with
      | tag_equal =>
          char_diffs ← emit_chars EQUAL str_a (seqZ i1 (i2 - i1)) char_diffs;
          chars_loop str_a str_b opcodes' char_diffs
      | tag_delete =>
          char_diffs ← emit_chars DELETE str_a (seqZ i1 (i2 - i1)) char_diffs;
          chars_loop str_a str_b opcodes' char_diffs
      | tag_insert =>
          char_diffs ← emit_chars INSERT str_b (seqZ j1 (j2 - j1)) char_diffs;
          chars_loop str_a str_b opcodes' char_diffs
      | tag_replace =>
          char_diffs ← emit_chars DELETE str_a (seqZ i1 (i2 - i1)) char_diffs;
          char_diffs ← emit_chars INSERT str_b (seqZ j1 (j2 - j1)) char_diffs;
          chars_loop str_a str_b opcodes' char_diffs
      end
  end.

(** [DiffEngine.compare_chars] *)
Definition compare_chars {difflib : Difflib} (str_a str_b : string) : result (list CharDiff) :=
  chars_loop (chars str_a) (chars str_b) (get_opcodes (chars str_a) (chars str_b)) [].

(** The characters of the entries of one of the two kinds given. *)
Definition chars_of (t1 t2 : DiffType) (cds : list CharDiff) : list string :=
  char <$> filter (fun c => cd_type c = t1 \/ cd_type c = t2) cds.

(** The entry carries the character that stands at its position: in
    [str_b] for an INSERT entry, in [str_a] for the others. *)
Definition char_placed (str_a str_b : string) (c : CharDiff) : Prop :=
  0 <= position c /\
  chars (if bool_decide (cd_type c = INSERT) then str_b else str_a) !! Z.to_nat (position c)
  = Some (char c).

(** [line[start_pos:end_pos] == word], in [line_b] for an INSERT entry
    and in [line_a] for the others. *)
Definition word_placed (line_a line_b : string) (w : WordDiff) : Prop :=
  0 <= start_pos w /\
  substring (Z.to_nat (start_pos w)) (String.length (word w))
    (if bool_decide (wd_type w = INSERT) then line_b else line_a) = word w.

(** A [difflib] that knows one answer: the opcodes of the characters of
    "ab" and "ac", an [equal] span of one and a [replace] span of one. *)
Definition chars_difflib : Difflib :=
  {| ratio_ge := fun _ _ _ => false;
     get_opcodes := fun _ _ => [(tag_equal, 0, 1, 0, 1); (tag_replace, 1, 2, 1, 2)] |}.

(** *** Where the changes are *)

(** Every step of the path that is not diagonal starts at a point that
    has [P]. *)
Definition edits_start (P : Z -> Z -> Prop) (path : list (Z * Z)) : Prop :=
  forall idx p q, path !! idx = Some p -> path !! S idx = Some q ->
    ~ (p.1 < q.1 /\ p.2 < q.2) -> P p.1 p.2.

(** Every operation other than an Equal starts at a pair of positions
    that has [P]. *)
Definition changes_start (P : Z -> Z -> Prop) (ops : list DiffResult) : Prop :=
  Forall (fun r => type r <> EQUAL -> P (old_start r) (new_start r)) ops.

(** The length of the longest common prefix of two sequences. *)
Fixpoint common_prefix (a b : list string) : nat :=
  match a, b with
  | x :: a', y :: b' => if String.eqb x y then S (common_prefix a' b') else O
  | _, _ => O
  end.

(** One Insert for each line of [extra], after [n] common lines. *)
Definition insertions_after (n : Z) (extra : list string) : list DiffResult :=
  imap (fun j line => mkDiffResult INSERT n 0 (n + Z.of_nat j) 1 [] [line]) extra.

(** One Delete for each line of [extra], after [n] common lines. *)
Definition deletions_after (n : Z) (extra : list string) : list DiffResult :=
  imap (fun i line => mkDiffResult DELETE (n + Z.of_nat i) 1 n 0 [line] []) extra.

(** *** The lines of a text *)

(** The number of newline characters of a text. *)
Fixpoint count_newlines (s : string) : Z :=
  match s with
  | EmptyString => 0
  | String c s' => (if Ascii.eqb c (ascii_of_nat 10) then 1 else 0) + count_newlines s'
  end.

(** [len(text.split("\n"))]: the number of lines of a text. *)
Definition text_lines (s : string) : Z := 1 + count_newlines s.

(** The text has no line break in it. *)
Definition one_line (s : string) : Prop := count_newlines s = 0.

(** * Proofs *)

(** Case analysis on the integer comparisons of the goal. *)
Ltac zbool :=
  repeat match goal with
    | |- context [?x <? ?y] => destruct (Z.ltb_spec x y)
    | |- context [?x <=? ?y] => destruct (Z.leb_spec x y)
    | |- context [?x =? ?y] => destruct (Z.eqb_spec x y)
    end;
  simpl; try done; try lia.

(** ** Python sequences *)

Lemma py_index_lookup {A} (l : list A) (i : Z) (x : A) :
  0 <= i -> l !! Z.to_nat i = Some x -> py_index l i = Ok x.
Proof.
  intros Hi Hx. unfold py_index.
  apply lookup_lt_Some in Hx as Hlt.
  assert ((i <? 0) = false) as -> by lia.
  assert (((0 <=? i) && (i <? len l)) = true) as -> by (unfold len; zbool).
  by rewrite Hx.
Qed.

Lemma py_index_in_range {A} (l : list A) (i : Z) :
  0 <= i < len l -> exists x, l !! Z.to_nat i = Some x /\ py_index l i = Ok x.
Proof.
  intros [Hi Hlt].
  destruct (lookup_lt_is_Some_2 l (Z.to_nat i)) as [x Hx]; [unfold len in Hlt; lia|].
  exists x. split; [done|]. by apply py_index_lookup.
Qed.

Lemma py_index_last {A} (l : list A) (x : A) : py_index (l ++ [x]) (-1) = Ok x.
Proof.
  unfold py_index, len. rewrite length_app.
  change (-1 <? 0) with true. cbv iota.
  change (length [x]) with 1%nat.
  replace (-1 + Z.of_nat (length l + 1)) with (Z.of_nat (length l)) by lia.
  assert (((0 <=? Z.of_nat (length l))
           && (Z.of_nat (length l) <? Z.of_nat (length l + 1))) = true)
    as -> by zbool.
  rewrite Nat2Z.id. by rewrite list_lookup_middle.
Qed.

Lemma py_slice_nonneg {A} (l : list A) (lo hi : Z) :
  0 <= lo -> 0 <= hi ->
  py_slice l lo hi =
  take (Z.to_nat (Z.min hi (len l) - Z.min lo (len l))) (drop (Z.to_nat (Z.min lo (len l))) l).
Proof.
  intros Hlo Hhi. unfold py_slice, clip.
  assert ((lo <? 0) = false) as -> by lia.
  by assert ((hi <? 0) = false) as -> by lia.
Qed.

(** Adjacent slices join, also where they are clipped. *)
Lemma py_slice_app {A} (l : list A) (x y z : Z) :
  0 <= x <= y -> y <= z ->
  py_slice l x y ++ py_slice l y z = py_slice l x z.
Proof.
  intros Hx Hy. rewrite !py_slice_nonneg by lia.
  replace (Z.to_nat (Z.min z (len l) - Z.min x (len l)))
    with (Z.to_nat (Z.min y (len l) - Z.min x (len l))
          + Z.to_nat (Z.min z (len l) - Z.min y (len l)))%nat by lia.
  rewrite <- take_take_drop, drop_drop.
  do 3 f_equal. lia.
Qed.

Lemma py_slice_empty {A} (l : list A) (x : Z) : py_slice l x x = [].
Proof. unfold py_slice. by rewrite Z.sub_diag. Qed.

Lemma py_slice_all {A} (l : list A) : py_slice l 0 (len l) = l.
Proof.
  rewrite py_slice_nonneg by (unfold len; lia).
  rewrite Z.min_id, Z.min_l by (unfold len; lia).
  rewrite Z.sub_0_r. unfold len. rewrite Nat2Z.id. simpl. by rewrite take_ge.
Qed.

(** ** The edit graph *)

Section Reach.
Context (a b : list string).

Lemma reach_nonneg d x y : reach a b d x y -> 0 <= d /\ 0 <= x /\ 0 <= y.
Proof. induction 1; lia. Qed.

Lemma reach_in_round d x y : reach a b d x y -> in_round d (x - y).
Proof.
  induction 1 as [|d x y s _ IH _ _|d x y _ [i [Hi Hk]]|d x y _ [i [Hi Hk]]].
  - exists 0. lia.
  - destruct IH as [i [Hi Hk]]. exists i. lia.
  - exists (i + 1). lia.
  - exists i. lia.
Qed.

Lemma reach_rights x : 0 <= x -> reach a b x x 0.
Proof.
  intros Hx. rewrite <- (Z2Nat.id x) by done.
  induction (Z.to_nat x) as [|j IH]; [constructor|].
  rewrite Nat2Z.inj_succ, <- Z.add_1_r. by constructor.
Qed.

Lemma reach_downs d x y : 0 <= y -> reach a b d x 0 -> reach a b (d + y) x y.
Proof.
  intros Hy Hr. rewrite <- (Z2Nat.id y) by done.
  induction (Z.to_nat y) as [|j IH]; [by rewrite Z.add_0_r|].
  rewrite Nat2Z.inj_succ, <- Z.add_1_r, Z.add_assoc. by constructor.
Qed.

(** The corner is reached by deleting all of [a] and inserting all of
    [b]. *)
Lemma reach_corner : reach a b (len a + len b) (len a) (len b).
Proof. apply reach_downs; [unfold len; lia|]. apply reach_rights. unfold len; lia. Qed.

(** A path that leaves the grid has paid for every step outside. *)
Lemma reach_clamp d x y :
  reach a b d x y ->
  reach a b (d - (x - Z.min x (len a)) - (y - Z.min y (len b)))
    (Z.min x (len a)) (Z.min y (len b)).
Proof.
  induction 1 as [|d x y s Hr IH Ha Hb|d x y Hr IH|d x y Hr IH].
  - rewrite !Z.min_l by (unfold len; lia). simpl. constructor.
  - apply reach_nonneg in Hr as (_ & Hx & Hy).
    apply lookup_lt_Some in Ha as Hla. apply lookup_lt_Some in Hb as Hlb.
    rewrite !Z.min_l in * by (unfold len; lia).
    replace (d - (x + 1 - (x + 1)) - (y + 1 - (y + 1))) with d by lia.
    replace (d - (x - x) - (y - y)) with d in IH by lia.
    by econstructor.
  - destruct (decide (x < len a)) as [Hlt|Hge].
    + rewrite (Z.min_l (x + 1)) by lia. rewrite (Z.min_l x) in IH by lia.
      replace (d + 1 - (x + 1 - (x + 1)) - (y - Z.min y (len b)))
        with ((d - (x - x) - (y - Z.min y (len b))) + 1) by lia.
      by constructor.
    + rewrite (Z.min_r (x + 1)) by lia. rewrite (Z.min_r x) in IH by lia.
      replace (d + 1 - (x + 1 - len a) - (y - Z.min y (len b)))
        with (d - (x - len a) - (y - Z.min y (len b))) by lia.
      done.
  - destruct (decide (y < len b)) as [Hlt|Hge].
    + rewrite (Z.min_l (y + 1)) by lia. rewrite (Z.min_l y) in IH by lia.
      replace (d + 1 - (x - Z.min x (len a)) - (y + 1 - (y + 1)))
        with ((d - (x - Z.min x (len a)) - (y - y)) + 1) by lia.
      by constructor.
    + rewrite (Z.min_r (y + 1)) by lia. rewrite (Z.min_r y) in IH by lia.
      replace (d + 1 - (x - Z.min x (len a)) - (y + 1 - len b))
        with (d - (x - Z.min x (len a)) - (y - len b)) by lia.
      done.
Qed.

(** A path to a point at or beyond the corner passes through the
    corner. *)
Lemma reach_beyond_corner d x y :
  reach a b d x y -> len a <= x -> len b <= y ->
  reach a b (d - (x - len a) - (y - len b)) (len a) (len b).
Proof.
  intros Hr Hx Hy. apply reach_clamp in Hr.
  by rewrite !Z.min_r in Hr by lia.
Qed.
End Reach.

(** ** Paths of the edit graph and common subsequences *)

Section Subsequences.
Context (a b : list string).

Lemma take_sublist_succ {A} (l : list A) (i : nat) : take i l `sublist_of` take (S i) l.
Proof.
  replace (take i l) with (take i (take (S i) l)); [apply sublist_take|].
  rewrite take_take. f_equal. lia.
Qed.

(** A path with [d] moves to [(x, y)] inside the grid matches
    [(x + y - d) / 2] elements. *)
Lemma reach_common_subseq d x y :
  reach a b d x y -> x <= len a -> y <= len b ->
  exists s, s `sublist_of` take (Z.to_nat x) a /\ s `sublist_of` take (Z.to_nat y) b /\
            2 * len s + d = x + y.
Proof.
  induction 1 as [|d x y c Hr IH Ha Hb|d x y Hr IH|d x y Hr IH]; intros Hx Hy.
  - exists []. simpl. repeat split; constructor.
  - apply reach_nonneg in Hr as (_ & Hx0 & Hy0).
    destruct IH as (s & Hsa & Hsb & Hlen); [lia..|].
    exists (s ++ [c]). rewrite !Z2Nat.inj_add by lia.
    change (Z.to_nat 1) with 1%nat. rewrite !Nat.add_1_r.
    rewrite (take_S_r _ _ _ Ha), (take_S_r _ _ _ Hb).
    repeat split; [by apply sublist_app..|].
    unfold len in *. rewrite length_app. simpl. lia.
  - apply reach_nonneg in Hr as (_ & Hx0 & Hy0).
    destruct IH as (s & Hsa & Hsb & Hlen); [lia..|].
    exists s. rewrite Z2Nat.inj_add by lia.
    change (Z.to_nat 1) with 1%nat. rewrite Nat.add_1_r.
    repeat split; [|done|lia].
    etrans; [exact Hsa|apply take_sublist_succ].
  - apply reach_nonneg in Hr as (_ & Hx0 & Hy0).
    destruct IH as (s & Hsa & Hsb & Hlen); [lia..|].
    exists s. rewrite Z2Nat.inj_add by lia.
    change (Z.to_nat 1) with 1%nat. rewrite Nat.add_1_r.
    repeat split; [done| |lia].
    etrans; [exact Hsb|apply take_sublist_succ].
Qed.

Lemma sublist_snoc_inv {A} (s l : list A) (c : A) :
  s `sublist_of` l ++ [c] ->
  s `sublist_of` l \/ exists s', s = s' ++ [c] /\ s' `sublist_of` l.
Proof.
  intros (k1 & k2 & -> & H1 & H2)%sublist_app_r.
  inversion H2 as [|? ? ? H3|? ? ? H3]; subst.
  - apply sublist_nil_r in H3 as ->. right. eauto.
  - apply sublist_nil_r in H3 as ->. left. by rewrite app_nil_r.
Qed.

(** A common subsequence of two prefixes gives a path to their
    corner. *)
Lemma common_subseq_reach (i j : nat) s :
  (i <= length a)%nat -> (j <= length b)%nat ->
  s `sublist_of` take i a -> s `sublist_of` take j b ->
  reach a b (Z.of_nat i + Z.of_nat j - 2 * len s) (Z.of_nat i) (Z.of_nat j).
Proof.
  revert j s. induction i as [|i IHi]; intros j s Hi Hj Hsa Hsb.
  - simpl in Hsa. apply sublist_nil_r in Hsa as ->.
    replace (Z.of_nat 0 + Z.of_nat j - 2 * len []) with (0 + Z.of_nat j) by (unfold len; simpl; lia).
    apply reach_downs; [lia|constructor].
  - revert s Hsa Hsb. induction j as [|j IHj]; intros s Hsa Hsb.
    + simpl in Hsb. apply sublist_nil_r in Hsb as ->.
      replace (Z.of_nat (S i) + Z.of_nat 0 - 2 * len []) with (Z.of_nat (S i))
        by (unfold len; simpl; lia).
      apply reach_rights. lia.
    + destruct (lookup_lt_is_Some_2 a i) as [ca Hca]; [lia|].
      destruct (lookup_lt_is_Some_2 b j) as [cb Hcb]; [lia|].
      rewrite (take_S_r _ _ _ Hca) in Hsa. rewrite (take_S_r _ _ _ Hcb) in Hsb.
      apply sublist_snoc_inv in Hsa as [Hsa|(sa & -> & Hsa)].
      * replace (Z.of_nat (S i) + Z.of_nat (S j) - 2 * len s)
          with ((Z.of_nat i + Z.of_nat (S j) - 2 * len s) + 1) by lia.
        rewrite (Nat2Z.inj_succ i), <- Z.add_1_r.
        apply reach_right. apply IHi; [lia|lia|done|].
        by rewrite (take_S_r _ _ _ Hcb).
      * apply sublist_snoc_inv in Hsb as [Hsb|(sb & Heq & Hsb)].
        -- replace (Z.of_nat (S i) + Z.of_nat (S j) - 2 * len (sa ++ [ca]))
             with ((Z.of_nat (S i) + Z.of_nat j - 2 * len (sa ++ [ca])) + 1) by lia.
           rewrite (Nat2Z.inj_succ j), <- Z.add_1_r.
           apply reach_down. apply IHj; [lia| |done].
           rewrite (take_S_r _ _ _ Hca). by apply sublist_app.
        -- apply app_inj_tail in Heq as [<- <-].
           replace (Z.of_nat (S i) + Z.of_nat (S j) - 2 * len (sa ++ [ca]))
             with (Z.of_nat i + Z.of_nat j - 2 * len sa)
             by (unfold len; rewrite length_app; simpl; lia).
           rewrite (Nat2Z.inj_succ i), (Nat2Z.inj_succ j), <- !Z.add_1_r.
           apply reach_diag with ca; rewrite ?Nat2Z.id; [|done..].
           apply IHi; [lia|lia|done|done].
Qed.

(** The least number of moves to the corner is [N + M - 2 L]. *)
Lemma shortest_is_lcs D :
  reach a b D (len a) (len b) ->
  (forall d, reach a b d (len a) (len b) -> D <= d) ->
  exists L : nat, is_lcs_length a b L /\ D = len a + len b - 2 * Z.of_nat L.
Proof.
  intros HD Hmin.
  destruct (reach_common_subseq _ _ _ HD) as (s & Hsa & Hsb & Hlen); [lia..|].
  unfold len in Hsa, Hsb. rewrite Nat2Z.id, take_ge in Hsa, Hsb by lia.
  exists (length s). split; [split|unfold len in *; lia].
  - by exists s.
  - intros s' Hsa' Hsb'.
    pose proof (common_subseq_reach (length a) (length b) s') as Hr.
    rewrite !take_ge in Hr by lia.
    specialize (Hr ltac:(lia) ltac:(lia) Hsa' Hsb').
    apply Hmin in Hr. unfold len in *. lia.
Qed.
End Subsequences.

(** ** The rounds of the search *)

Lemma in_round_range d k : k ∈ range_diagonals d <-> in_round d k.
Proof.
  unfold range_diagonals, in_round. rewrite list_elem_of_fmap. split.
  - intros (i & -> & Hi%elem_of_seqZ). exists i. lia.
  - intros (i & Hi & ->). exists i. split; [done|]. apply elem_of_seqZ. lia.
Qed.

Lemma in_round_0 k : in_round 0 k -> k = 0.
Proof. intros (i & Hi & ->). lia. Qed.

Lemma in_round_pred_not d j : in_round (d - 1) j -> ~ in_round d j.
Proof. intros (i & Hi & ->) (i' & Hi' & Heq). lia. Qed.

Lemma in_round_left d k : in_round d k -> k <> - d -> in_round (d - 1) (k - 1).
Proof. intros (i & Hi & ->) Hne. exists (i - 1). lia. Qed.

Lemma in_round_right d k : in_round d k -> k <> d -> in_round (d - 1) (k + 1).
Proof. intros (i & Hi & ->) Hne. exists i. lia. Qed.

Lemma in_round_bounds d k : in_round d k -> - d <= k <= d.
Proof. intros (i & Hi & ->). lia. Qed.

Lemma traced_app trace more d k e : traced trace d k e -> traced (trace ++ more) d k e.
Proof.
  induction 1 as [e He|d k e v px Hd Hv Hpx _ IH Hle]; [by constructor|].
  eapply traced_S; eauto. by apply lookup_app_l_Some.
Qed.

Lemma end_point_app self trace more d k e :
  end_point self trace d k e -> end_point self (trace ++ more) d k e.
Proof. intros (?&?&?&?). repeat split; auto using traced_app. Qed.

Section Forward.
Context (self : MyersDiff).
Hypothesis Hn : n self = len (processed_a self).
Hypothesis Hm : m self = len (processed_b self).

#[local] Abbreviation a := (processed_a self).
#[local] Abbreviation b := (processed_b self).

Lemma lines_equal_lookup x y s t :
  0 <= x -> 0 <= y -> a !! Z.to_nat x = Some s -> b !! Z.to_nat y = Some t ->
  _lines_equal self x y = Ok (String.eqb s t).
Proof.
  intros Hx Hy Hs Ht. unfold _lines_equal.
  rewrite (py_index_lookup _ _ _ Hx Hs). simpl.
  by rewrite (py_index_lookup _ _ _ Hy Ht).
Qed.

(** The diagonal is followed to its end, and the fuel given by the
    caller is enough for that. *)
Lemma follow_diagonal_spec fuel d k x :
  reach a b d x (x - k) -> (Z.to_nat (n self - x) < fuel)%nat ->
  exists e, follow_diagonal self fuel x (x - k) = Ok (e, e - k) /\
            x <= e /\ reach a b d e (e - k) /\ closed a b k e.
Proof.
  revert x. induction fuel as [|fuel IH]; intros x Hr Hfuel; [lia|].
  pose proof (reach_nonneg _ _ _ _ _ Hr) as (_ & Hx & Hy).
  simpl. destruct (Z.ltb_spec x (n self)) as [Hxn|Hxn];
    [destruct (Z.ltb_spec (x - k) (m self)) as [Hym|Hym]|]; simpl.
  - destruct (py_index_in_range a x) as (s & Hs & _); [lia|].
    destruct (py_index_in_range b (x - k)) as (t & Ht & _); [lia|].
    rewrite (lines_equal_lookup _ _ _ _ Hx Hy Hs Ht). simpl.
    destruct (String.eqb_spec s t) as [<-|Hne].
    + replace (x - k + 1) with (x + 1 - k) by lia.
      destruct (IH (x + 1)) as (e & He & Hle & Hre & Hcl).
      * replace (x + 1 - k) with (x - k + 1) by lia. by apply reach_diag with s.
      * lia.
      * exists e. repeat split; auto. lia.
    + exists x. repeat split; auto; [lia|].
      intros c Hc1 Hc2. congruence.
  - exists x. repeat split; auto; [lia|].
    intros c _ Hc%lookup_lt_Some. unfold len in *. lia.
  - exists x. repeat split; auto; [lia|].
    intros c Hc%lookup_lt_Some _. unfold len in *. lia.
Qed.

Lemma moves_down_agree d k (v v0 : gmap Z Z) :
  in_round d k ->
  (forall j, ~ in_round d j -> v !! j = v0 !! j) ->
  moves_down d k v = moves_down d k v0 /\ start_x d k v = start_x d k v0.
Proof.
  intros Hk Hagree.
  assert (Hl : k <> - d -> v !! (k - 1) = v0 !! (k - 1)).
  { intros Hne. apply Hagree, in_round_pred_not. by apply in_round_left. }
  assert (Hr : 0 < d -> k <> d -> v !! (k + 1) = v0 !! (k + 1)).
  { intros _ Hne. apply Hagree, in_round_pred_not. by apply in_round_right. }
  assert (Hr0 : d = 0 -> v !! (k + 1) = v0 !! (k + 1)).
  { intros ->. apply in_round_0 in Hk as ->. apply Hagree.
    intros ?%in_round_0. lia. }
  pose proof (in_round_bounds _ _ Hk) as Hb.
  unfold start_x, moves_down.
  destruct (Z.eqb_spec k (- d)) as [Hkd|Hkd]; simpl.
  - split; [done|]. destruct (decide (d = 0)) as [->|]; [by rewrite Hr0|].
    rewrite Hr; [done|lia|lia].
  - destruct (Z.eqb_spec k d) as [Hkd'|Hkd']; simpl.
    + split; [done|]. by rewrite Hl.
    + rewrite Hl, Hr by lia. done.
Qed.

Lemma furthest_round_0 e : 0 <= e -> closed a b 0 e -> furthest a b 0 0 e.
Proof.
  intros He Hcl x y Hr. remember 0 as d eqn:Hd in Hr.
  induction Hr as [|d x y c Hr IH Ha Hb|d x y Hr IH|d x y Hr IH]; intros Hk.
  - done.
  - specialize (IH Hd ltac:(lia)).
    destruct (decide (x = e)) as [->|]; [|lia].
    exfalso. apply (Hcl c); [done|]. by replace (e - 0) with y by lia.
  - apply reach_nonneg in Hr. lia.
  - apply reach_nonneg in Hr. lia.
Qed.

(** The choice between the two neighbours keeps the further one. *)
Lemma furthest_round_S d k e (v0 : gmap Z Z) :
  0 < d -> in_round d k ->
  (forall j, in_round (d - 1) j -> exists p, v0 !! j = Some p /\ furthest a b (d - 1) j p) ->
  start_x d k v0 <= e -> closed a b k e ->
  furthest a b d k e.
Proof.
  intros Hd Hk Hprev Hstart Hcl x y Hr. remember d as d' eqn:Hd' in Hr.
  induction Hr as [|d' x y c Hr IH Ha Hb|d' x y Hr IH|d' x y Hr IH]; intros Hxy.
  - lia.
  - specialize (IH Hd' ltac:(lia)).
    destruct (decide (x = e)) as [->|]; [|lia].
    exfalso. apply (Hcl c); [done|]. by replace (e - k) with y by lia.
  - assert (d' = d - 1) as -> by lia. clear IH.
    pose proof (reach_in_round _ _ _ _ _ Hr) as Hin.
    replace (x - y) with (k - 1) in Hin by lia.
    destruct (Hprev _ Hin) as (p1 & Hp1 & Hf1).
    assert (x <= p1) by (apply (Hf1 x y); [done|lia]).
    pose proof (in_round_bounds _ _ Hin) as Hb1.
    revert Hstart. unfold start_x, moves_down. rewrite Hp1. simpl.
    destruct (Z.eqb_spec k (- d)); [lia|]. simpl.
    destruct (Z.eqb_spec k d); simpl; [lia|].
    destruct (Hprev (k + 1)) as (p2 & Hp2 & _); [by apply in_round_right|].
    rewrite Hp2. simpl. destruct (Z.ltb_spec p1 p2); lia.
  - assert (d' = d - 1) as -> by lia. clear IH.
    pose proof (reach_in_round _ _ _ _ _ Hr) as Hin.
    replace (x - y) with (k + 1) in Hin by lia.
    destruct (Hprev _ Hin) as (p2 & Hp2 & Hf2).
    assert (x <= p2) by (apply (Hf2 x y); [done|lia]).
    pose proof (in_round_bounds _ _ Hin) as Hb2.
    revert Hstart. unfold start_x, moves_down. rewrite Hp2. simpl.
    destruct (Z.eqb_spec k (- d)); simpl; [lia|].
    destruct (Z.eqb_spec k d); simpl; [lia|].
    destruct (Hprev (k - 1)) as (p1 & Hp1 & _); [by apply in_round_left|].
    rewrite Hp1. simpl. destruct (Z.ltb_spec p1 p2); lia.
Qed.

Lemma explore_diagonal_unfold d k v :
  explore_diagonal self d k v =
  follow_diagonal self (S (Z.to_nat (n self - start_x d k v)))
    (start_x d k v) (start_x d k v - k).
Proof. reflexivity. Qed.

Lemma round_start_prev d v0 trace k :
  round_start self d v0 trace -> 0 < d -> in_round d k ->
  exists px, v0 !! prev_diagonal d k v0 = Some px /\
             end_point self trace (d - 1) (prev_diagonal d k v0) px /\
             start_x d k v0 = (if moves_down d k v0 then px else px + 1).
Proof.
  intros (_ & _ & _ & Hprev & _) Hd Hk.
  pose proof (in_round_bounds _ _ Hk) as Hb.
  assert (Hin : in_round (d - 1) (prev_diagonal d k v0)).
  { unfold prev_diagonal, moves_down.
    destruct (Z.eqb_spec k (- d)); simpl; [apply in_round_right; [done|lia]|].
    destruct (Z.eqb_spec k d); simpl; [by apply in_round_left|].
    destruct (_ <? _); [by apply in_round_right|by apply in_round_left]. }
  destruct (Hprev _ Hin) as (px & Hpx & Hend). exists px.
  split; [done|]. split; [done|].
  revert Hpx. unfold prev_diagonal, start_x.
  destruct (moves_down d k v0); intros Hpx; by rewrite Hpx.
Qed.

(** One diagonal of one round. *)
Lemma explore_diagonal_ok d k v v0 trace :
  round_start self d v0 trace -> in_round d k ->
  (forall j, ~ in_round d j -> v !! j = v0 !! j) ->
  exists e, explore_diagonal self d k v = Ok (e, e - k) /\
            end_point self (trace ++ [v0]) d k e.
Proof.
  intros Hstart Hk Hagree.
  rewrite explore_diagonal_unfold.
  destruct (moves_down_agree d k v v0 Hk Hagree) as [_ ->].
  pose proof Hstart as (Hd & Hlen & Hv0 & Hprev & _).
  destruct (decide (d = 0)) as [->|Hd0].
  - apply in_round_0 in Hk as ->. rewrite (Hv0 eq_refl).
    change (start_x 0 0 {[1 := 0]}) with 0.
    destruct (follow_diagonal_spec (S (Z.to_nat (n self - 0))) 0 0 0)
      as (e & He & Hle & Hr & Hcl); [constructor|lia|].
    exists e. split; [done|]. repeat split; auto.
    + by apply furthest_round_0.
    + by constructor.
  - destruct (round_start_prev d v0 trace k) as (px & Hpx & Hend & Hsx); [done|lia|done|].
    destruct Hend as (Hrp & _ & _ & Htr).
    assert (Hrs : reach a b d (start_x d k v0) (start_x d k v0 - k)).
    { rewrite Hsx. revert Hrp. unfold prev_diagonal.
      destruct (moves_down d k v0); intros Hrp.
      - replace d with (d - 1 + 1) by lia.
        replace (px - k) with (px - (k + 1) + 1) by lia. by constructor.
      - replace d with (d - 1 + 1) by lia.
        replace (px + 1 - k) with (px - (k - 1)) by lia. by constructor. }
    destruct (follow_diagonal_spec (S (Z.to_nat (n self - start_x d k v0))) d k
                (start_x d k v0)) as (e & He & Hle & Hr & Hcl); [done|lia|].
    exists e. split; [done|]. repeat split; auto.
    + apply furthest_round_S with v0; auto; [lia|].
      intros j Hj. destruct (Hprev j Hj) as (p & Hp & _ & _ & Hf & _). eauto.
    + apply traced_S with v0 px; auto using traced_app; [lia| |by rewrite <- Hsx].
      apply list_lookup_middle. unfold len in Hlen. lia.
Qed.

(** One round: either some diagonal reaches the corner, or every
    diagonal of the round has its end point stored. *)
Lemma explore_ok d v0 trace ks v :
  round_start self d v0 trace ->
  (forall k, k ∈ ks -> in_round d k) ->
  (forall j, ~ in_round d j -> v !! j = v0 !! j) ->
  (explore self d ks v = Ok Reached /\
   exists k e, end_point self (trace ++ [v0]) d k e /\ n self <= e /\ m self <= e - k)
  \/
  (exists v', explore self d ks v = Ok (Explored v') /\
     (forall j, ~ in_round d j -> v' !! j = v0 !! j) /\
     (forall j, j ∉ ks -> v' !! j = v !! j) /\
     (forall k, k ∈ ks ->
        exists e, v' !! k = Some e /\ end_point self (trace ++ [v0]) d k e /\
                  ~ (n self <= e /\ m self <= e - k))).
Proof.
  intros Hstart. revert v. induction ks as [|k ks IH]; intros v Hks Hagree.
  - right. exists v. repeat split; auto. intros k Hk. by apply elem_of_nil in Hk.
  - assert (Hk : in_round d k) by (apply Hks; left).
    destruct (explore_diagonal_ok d k v v0 trace Hstart Hk Hagree) as (e & He & Hend).
    simpl. rewrite He. simpl.
    destruct (Z.leb_spec (n self) e) as [Hne|Hne];
      [destruct (Z.leb_spec (m self) (e - k)) as [Hme|Hme]|]; simpl.
    + left. split; [done|]. by exists k, e.
    + destruct (IH (<[k := e]> v)) as [[Hex Hfound]|(v' & Hex & Hag & Hout & Hin)].
      * intros k' Hk'. apply Hks. by right.
      * intros j Hj. rewrite lookup_insert_ne; [by apply Hagree|]. by intros ->.
      * by left.
      * right. exists v'. split; [done|]. split; [done|]. split.
        -- intros j Hj. apply not_elem_of_cons in Hj as [Hjk Hj].
           rewrite Hout by done. by rewrite lookup_insert_ne.
        -- intros k' [->|Hk']%elem_of_cons; [|by apply Hin].
           destruct (decide (k ∈ ks)) as [Hkin|Hkin]; [by apply Hin|].
           exists e. rewrite Hout by done. rewrite lookup_insert_eq.
           split; [done|]. split; [done|]. lia.
    + destruct (IH (<[k := e]> v)) as [[Hex Hfound]|(v' & Hex & Hag & Hout & Hin)].
      * intros k' Hk'. apply Hks. by right.
      * intros j Hj. rewrite lookup_insert_ne; [by apply Hagree|]. by intros ->.
      * by left.
      * right. exists v'. split; [done|]. split; [done|]. split.
        -- intros j Hj. apply not_elem_of_cons in Hj as [Hjk Hj].
           rewrite Hout by done. by rewrite lookup_insert_ne.
        -- intros k' [->|Hk']%elem_of_cons; [|by apply Hin].
           destruct (decide (k ∈ ks)) as [Hkin|Hkin]; [by apply Hin|].
           exists e. rewrite Hout by done. rewrite lookup_insert_eq.
           split; [done|]. split; [done|]. lia.
Qed.

(** The search: it leaves its loop in the first round [D] in which the
    corner can be reached at all. *)
Lemma search_ok cnt d v trace :
  round_start self d v trace ->
  (exists D, reach a b D (n self) (m self) /\ D < d + Z.of_nat cnt) ->
  exists trace' D,
    search self (seqZ d (Z.of_nat cnt)) v trace = Ok (Some (trace', D)) /\
    d <= D /\ D < d + Z.of_nat cnt /\
    reach a b D (n self) (m self) /\
    (forall d', reach a b d' (n self) (m self) -> D <= d') /\
    traced trace' D (n self - m self) (n self).
Proof.
  revert d v trace. induction cnt as [|cnt IH]; intros d v trace Hstart (D & HD & HDlt).
  { destruct Hstart as (_ & _ & _ & _ & Hnone). exfalso. apply (Hnone D); [lia|done]. }
  rewrite seqZ_cons by lia. simpl.
  destruct (explore_ok d v trace (range_diagonals d) v Hstart)
    as [[Hex (k & e & Hend & Hne & Hme)]|(v' & Hex & Hag & _ & Hin)].
  { intros k. apply in_round_range. }
  { done. }
  - rewrite Hex. simpl. exists (trace ++ [v]), d.
    pose proof Hstart as (Hd & _ & _ & _ & Hnone).
    destruct Hend as (Hr & _ & _ & Htr).
    pose proof (reach_beyond_corner _ _ _ _ _ Hr) as Hc.
    rewrite <- Hn, <- Hm in Hc. specialize (Hc Hne Hme).
    assert (e = n self /\ e - k = m self) as [-> Hk].
    { destruct (decide (d - (e - n self) - (e - k - m self) < d)) as [Hlt|Hge]; [|lia].
      exfalso. by apply (Hnone _ Hlt). }
    rewrite Hk in Hr. replace k with (n self - m self) in Htr by lia.
    repeat split; auto; [lia..|].
    intros d' Hd'. destruct (decide (d' < d)) as [Hlt|]; [|lia].
    exfalso. by apply (Hnone _ Hlt).
  - rewrite Hex. simpl.
    assert (Hnot : ~ reach a b d (n self) (m self)).
    { intros Hr. pose proof (reach_in_round _ _ _ _ _ Hr) as Hk.
      destruct (Hin _ (proj2 (in_round_range _ _) Hk)) as (e & _ & (_ & _ & Hf & _) & Hnr).
      apply Hnr. assert (n self <= e) by (apply (Hf _ _ Hr); lia). lia. }
    pose proof Hstart as (Hd & Hlen & _ & _ & Hnone).
    destruct (IH (Z.succ d) v' (trace ++ [v])) as (trace' & D' & Hs & Hle & Hlt & Hr & Hmin & Htr).
    + split; [lia|]. split; [unfold len in *; rewrite length_app; simpl; lia|].
      split; [lia|]. split.
      * replace (Z.succ d - 1) with d by lia. intros k Hk%in_round_range.
        destruct (Hin k Hk) as (e & He & Hend & _). eauto.
      * intros d' Hd'. destruct (decide (d' = d)) as [->|]; [done|].
        apply Hnone. lia.
    + exists D. split; [done|].
      destruct (decide (D = d)) as [->|]; [done|].
      destruct (decide (D < d)) as [Hlt|]; [by apply Hnone in Hlt|]. lia.
    + replace (Z.pred (Z.of_nat (S cnt))) with (Z.of_nat cnt) by lia.
      exists trace', D'. repeat split; auto; lia.
Qed.

(** The search leaves its loop through the [return] in its body. *)
Lemma forward_search_ok :
  exists trace D,
    forward_search self = Ok (Some (trace, D)) /\
    0 <= D <= n self + m self /\
    reach a b D (n self) (m self) /\
    (forall d', reach a b d' (n self) (m self) -> D <= d') /\
    traced trace D (n self - m self) (n self).
Proof.
  unfold forward_search, range.
  assert (Hnm : 0 <= n self + m self) by (rewrite Hn, Hm; unfold len; lia).
  destruct (search_ok (Z.to_nat (n self + m self + 1)) 0 {[1 := 0]} [])
    as (trace & D & Hs & Hle & Hlt & Hr & Hmin & Htr).
  - split; [done|]. split; [done|]. split; [done|]. split.
    + intros k (i & Hi & _). lia.
    + intros d' Hd' Hr%reach_nonneg. lia.
  - exists (n self + m self). split; [|lia].
    rewrite Hn, Hm. apply reach_corner.
  - rewrite Z2Nat.id in Hs by lia. exists trace, D. repeat split; auto; lia.
Qed.
End Forward.

(** ** Backtracking *)

Lemma range_down_cons d : 0 < d -> range_down d = d :: range_down (d - 1).
Proof.
  intros Hd. unfold range_down. rewrite seqZ_cons by lia. simpl.
  rewrite Z.sub_0_r. f_equal.
  replace (Z.succ 0) with (1 + 0) by lia.
  replace (Z.pred d) with (d - 1) by lia.
  rewrite <- (fmap_add_seqZ 1 0), <- list_fmap_compose.
  apply list_fmap_ext. intros _ i _. simpl. lia.
Qed.

Lemma edits_cons p q rest :
  edits (p :: q :: rest) = (if (p.1 <? q.1) && (p.2 <? q.2) then 0 else 1) + edits (q :: rest).
Proof. reflexivity. Qed.

Lemma descends_diag c rpath x y E :
  descends c rpath x y E -> descends c ((x - 1, y - 1) :: rpath) (x - 1) (y - 1) E.
Proof.
  intros ((rest & ->) & Hg & He & Hl). repeat split; eauto.
  - constructor; [|done]. left. split; simpl; lia.
  - rewrite edits_cons. cbn -[edits].
    destruct (Z.ltb_spec (x - 1) x); [|lia]. destruct (Z.ltb_spec (y - 1) y); [|lia].
    cbn -[edits]. lia.
Qed.

Lemma descends_left c rpath x y E :
  descends c rpath x y E -> descends c ((x - 1, y) :: rpath) (x - 1) y (E + 1).
Proof.
  intros ((rest & ->) & Hg & He & Hl). repeat split; eauto.
  - constructor; [|done]. right. right. split; simpl; lia.
  - rewrite edits_cons. cbn -[edits].
    destruct (Z.ltb_spec y y); [lia|]. rewrite andb_false_r. lia.
Qed.

Lemma descends_up c rpath x y E :
  descends c rpath x y E -> descends c ((x, y - 1) :: rpath) x (y - 1) (E + 1).
Proof.
  intros ((rest & ->) & Hg & He & Hl). repeat split; eauto.
  - constructor; [|done]. right. left. split; simpl; lia.
  - rewrite edits_cons. cbn -[edits].
    destruct (Z.ltb_spec x x); [lia|]. cbn -[edits]. lia.
Qed.

(** The diagonal is walked back to the point [s] where the loop
    condition fails. *)
Lemma walk_back_spec c fuel x k px py s rpath E :
  descends c rpath x (x - k) E -> s <= x ->
  (forall x', s <= x' -> ((px <? x') && (py <? x' - k)) = (s <? x')) ->
  (Z.to_nat (x - s) < fuel)%nat ->
  exists rpath', walk_back fuel x (x - k) px py (reverse rpath) = Ok (s, s - k, reverse rpath') /\
                 descends c rpath' s (s - k) E.
Proof.
  revert x rpath. induction fuel as [|fuel IH]; intros x rpath Hdesc Hs Hcond Hfuel; [lia|].
  simpl. rewrite Hcond by done.
  destruct (Z.ltb_spec s x) as [Hlt|Hge].
  - destruct (IH (x - 1) ((x - 1, x - k - 1) :: rpath)) as (rpath' & Hw & Hd').
    + replace (x - 1 - k) with (x - k - 1) by lia. by apply descends_diag.
    + lia.
    + done.
    + lia.
    + exists rpath'. split; [|done]. rewrite <- Hw, reverse_cons.
      by replace (x - 1 - k) with (x - k - 1) by lia.
  - assert (x = s) as -> by lia. by exists rpath.
Qed.

Lemma backtrack_loop_spec c trace d k x :
  traced trace d k x ->
  forall rpath E, descends c rpath x (x - k) E ->
  exists rpath' e0,
    backtrack_loop (range_down d) trace x (x - k) (reverse rpath) = Ok (reverse rpath') /\
    descends c rpath' e0 e0 (E + d) /\ 0 <= e0.
Proof.
  induction 1 as [e He|d k e v px Hd Hv Hpx _ IH Hle]; intros rpath E Hdesc.
  - exists rpath, e. rewrite Z.sub_0_r in Hdesc. rewrite Z.add_0_r. by split.
  - rewrite range_down_cons by done. cbn -[walk_back range_down].
    rewrite (py_index_lookup trace d v ltac:(lia) Hv). cbn -[walk_back range_down].
    replace (e - (e - k)) with k by lia.
    fold (prev_diagonal d k v). unfold dict_item. rewrite Hpx. cbn -[walk_back range_down].
    set (s := if moves_down d k v then px else px + 1) in *.
    destruct (walk_back_spec c (S (Z.to_nat (e - px))) e k px
                (px - prev_diagonal d k v) s rpath E) as (rpath1 & Hw & Hd1).
    + done.
    + done.
    + intros x' Hx'. unfold prev_diagonal, s in *.
      destruct (moves_down d k v).
      * destruct (Z.ltb_spec px x'); destruct (Z.ltb_spec (px - (k + 1)) (x' - k)); simpl; lia.
      * destruct (Z.ltb_spec px x'); destruct (Z.ltb_spec (px - (k - 1)) (x' - k));
          destruct (Z.ltb_spec (px + 1) x'); simpl; lia.
    + unfold s in *. destruct (moves_down d k v); lia.
    + rewrite Hw. cbn -[walk_back range_down]. destruct (Z.ltb_spec 0 d); [|lia].
      unfold prev_diagonal, s in *. destruct (moves_down d k v).
      * destruct (Z.ltb_spec px px); [lia|].
        destruct (IH ((px, px - (k + 1)) :: rpath1) (E + 1)) as (rpath' & e0 & Hb & Hd' & He0).
        { replace (px - (k + 1)) with (px - k - 1) by lia. by apply descends_up. }
        exists rpath', e0. rewrite <- Hb, reverse_cons.
        split; [done|]. split; [|done]. by replace (E + d) with (E + 1 + (d - 1)) by lia.
      * destruct (Z.ltb_spec px (px + 1)); [|lia].
        destruct (IH ((px, px - (k - 1)) :: rpath1) (E + 1)) as (rpath' & e0 & Hb & Hd' & He0).
        { apply descends_left in Hd1.
          replace (px + 1 - 1) with px in Hd1 by lia.
          by replace (px + 1 - k) with (px - (k - 1)) in Hd1 by lia. }
        exists rpath', e0. rewrite <- Hb, reverse_cons.
        replace (px + 1 - k) with (px - (k - 1)) by lia.
        split; [done|]. split; [|done]. by replace (E + d) with (E + 1 + (d - 1)) by lia.
Qed.

(** [_backtrack] returns a path from the origin to the corner whose
    steps are diagonal runs and single moves, [d] of them moves. *)
Lemma _backtrack_spec self trace d :
  traced trace d (n self - m self) (n self) ->
  exists path, _backtrack self trace d = Ok path /\
    good_path path /\ head path = Some (0, 0) /\ last path = Some (n self, m self) /\
    edits path = d.
Proof.
  intros Htr. unfold _backtrack.
  destruct (backtrack_loop_spec (n self, m self) trace d _ _ Htr [(n self, m self)] 0)
    as (rpath & e0 & Hb & ((rest & ->) & Hg & He & Hl) & He0).
  { replace (n self - (n self - m self)) with (m self) by lia.
    repeat split; eauto. constructor. }
  replace (n self - (n self - m self)) with (m self) in Hb by lia.
  change [(n self, m self)] with (reverse [(n self, m self)]).
  rewrite Hb. simpl. rewrite reverse_involutive.
  set (path := if pair_eqb (e0, e0) (0, 0) then (e0, e0) :: rest else (0, 0) :: (e0, e0) :: rest).
  assert (Hpath : good_path path /\ head path = Some (0, 0) /\
                  last path = Some (n self, m self) /\ edits path = d).
  { unfold path, pair_eqb. cbn -[edits]. destruct (Z.eqb_spec e0 0) as [->|Hne]; cbn -[edits].
    - repeat split; auto; lia.
    - repeat split; auto.
      + constructor; [|done]. left. split; simpl; lia.
      + rewrite edits_cons. cbn -[edits]. destruct (Z.ltb_spec 0 e0); [|lia].
        cbn -[edits]. lia. }
  destruct Hpath as (Hg' & Hh & Hl' & He'). clearbody path.
  pose proof Hl' as (front & Hfront)%last_Some.
  replace (py_index path (-1)) with (Ok (A:=Z * Z) (n self, m self))
    by (by rewrite Hfront, py_index_last).
  cbn [mbind result_bind mret result_ret]. unfold pair_eqb. cbn [fst snd].
  rewrite !Z.eqb_refl. by exists path.
Qed.

(** ** Chains of operations *)

Lemma edit_units_cons r ops : edit_units (r :: ops) = edit_units_of r + edit_units ops.
Proof. reflexivity. Qed.

Section Chains.
Context (a b : list string).

Lemma chain_le x y ops x' y' : chain a b x y ops x' y' -> x <= x' /\ y <= y'.
Proof.
  induction 1 as [|x y r ops x' y' (_ & _ & Hoc & Hnc & _) _ _ _ IH]; lia.
Qed.

Lemma chain_snoc x y ops x' y' r :
  chain a b x y ops x' y' -> op_ok a b r -> old_start r = x' -> new_start r = y' ->
  chain a b x y (ops ++ [r]) (x' + old_count r) (y' + new_count r).
Proof.
  induction 1; intros Hok Hx Hy; simpl.
  - apply chain_cons; auto. constructor.
  - apply chain_cons; auto.
Qed.

Lemma chain_within x y ops x' y' :
  chain a b x y ops x' y' -> within x' y' ops.
Proof.
  induction 1 as [|x y r ops x' y' Hok Hx Hy Hch IH]; [constructor|].
  constructor; [|done]. apply chain_le in Hch. lia.
Qed.

Lemma chain_contiguous x y ops x' y' :
  chain a b x y ops x' y' -> contiguous ops.
Proof.
  induction 1 as [|x y r ops x' y' Hok Hx Hy Hch IH]; intros i r1 r2 H1 H2; [done|].
  destruct i as [|i]; simpl in *.
  - injection H1 as <-. inversion Hch; subst; [done|].
    simpl in H2. injection H2 as <-. lia.
  - by apply (IH i).
Qed.

(** The operations of a chain, laid end to end, give back the lines they
    span. *)
Lemma chain_concat x y ops x' y' :
  chain a b x y ops x' y' -> 0 <= x -> 0 <= y ->
  concat (old_lines <$> ops) = py_slice a x x' /\
  concat (new_lines <$> ops) = py_slice b y y'.
Proof.
  induction 1 as [|x y r ops x' y' Hok Hx Hy Hch IH]; intros Hx0 Hy0.
  - by rewrite !py_slice_empty.
  - pose proof (chain_le _ _ _ _ _ Hch) as [Hle1 Hle2].
    destruct Hok as (_ & _ & Hoc & Hnc & Hol & Hnl & _).
    destruct IH as [IH1 IH2]; [lia..|].
    rewrite !fmap_cons. change (concat (?l :: ?ls)) with (l ++ concat ls).
    rewrite IH1, IH2, Hol, Hnl, Hx, Hy.
    by rewrite !py_slice_app by lia.
Qed.
End Chains.

Lemma chain_ops_ok a b x y ops x' y' :
  chain a b x y ops x' y' -> Forall (op_ok a b) ops.
Proof. induction 1; by constructor. Qed.

(** ** Merging deletions and insertions *)

Lemma merge_cons_cons r r' rest :
  _merge_replace_operations (r :: r' :: rest) =
  if bool_decide (type r = DELETE) && bool_decide (type r' = INSERT)
  then mkDiffResult REPLACE (old_start r) (old_count r) (new_start r') (new_count r')
         (old_lines r) (new_lines r') :: _merge_replace_operations rest
  else r :: _merge_replace_operations (r' :: rest).
Proof. reflexivity. Qed.

Lemma merge_head_insert ops h :
  head (_merge_replace_operations ops) = Some h -> type h = INSERT ->
  exists r, head ops = Some r /\ type r = INSERT.
Proof.
  destruct ops as [|r [|r' rest]]; [done|simpl; intros [= <-] ?; eauto|].
  rewrite merge_cons_cons.
  destruct (bool_decide (type r = DELETE) && bool_decide (type r' = INSERT)).
  - simpl. by intros [= <-] ?.
  - simpl. intros [= <-] ?. eauto.
Qed.

Lemma no_delete_insert_cons r ops :
  (forall h, head ops = Some h -> ~ (type r = DELETE /\ type h = INSERT)) ->
  no_delete_insert ops -> no_delete_insert (r :: ops).
Proof. destruct ops as [|h ops]; [done|]. intros Hh Hops. split; [by apply Hh|done]. Qed.

Lemma merge_spec a b k :
  forall ops x y x' y', (length ops <= k)%nat ->
  chain a b x y ops x' y' ->
  chain a b x y (_merge_replace_operations ops) x' y' /\
  edit_units (_merge_replace_operations ops) = edit_units ops /\
  no_delete_insert (_merge_replace_operations ops).
Proof.
  induction k as [|k IH]; intros ops x y x' y' Hlen Hch.
  { destruct ops; [|simpl in Hlen; lia]. by inversion Hch; subst. }
  destruct ops as [|r [|r' rest]]; [done|done|].
  rewrite merge_cons_cons.
  inversion Hch as [|? ? ? ? ? ? Hok Hx Hy Hch1]; subst.
  inversion Hch1 as [|? ? ? ? ? ? Hok' Hx' Hy' Hch2]; subst.
  destruct (bool_decide_reflect (type r = DELETE)) as [HD|HD]; simpl;
    [destruct (bool_decide_reflect (type r' = INSERT)) as [HI|HI]; simpl|].
  - destruct (IH rest _ _ _ _ ltac:(simpl in Hlen; lia) Hch2) as (IHc & IHu & IHn).
    destruct Hok as (Hos & Hns & Hoc & Hnc & Hol & Hnl & _ & HDel & _).
    destruct Hok' as (Hos' & Hns' & Hoc' & Hnc' & Hol' & Hnl' & HIns & _ & _).
    destruct (HDel HD) as [Hnc0 Hoc1]. destruct (HIns HI) as [Hoc0 Hnc1].
    split; [|split].
    + apply chain_cons; simpl; [|done|lia|].
      * unfold op_ok. simpl. repeat split; auto; try lia; done.
      * by replace (new_start r + new_count r') with
          (new_start r + new_count r + new_count r') by lia;
        replace (old_start r + old_count r) with
          (old_start r + old_count r + old_count r') by lia.
    + simpl. rewrite IHu. unfold edit_units_of. simpl. rewrite HD, HI. lia.
    + apply (no_delete_insert_cons
               (mkDiffResult REPLACE (old_start r) (old_count r) (new_start r')
                  (new_count r') (old_lines r) (new_lines r'))); [|done].
      simpl. by intros h _ [? _].
  - destruct (IH (r' :: rest) _ _ _ _ ltac:(simpl in *; lia) Hch1) as (IHc & IHu & IHn).
    split; [|split].
    + by apply chain_cons.
    + simpl in *. lia.
    + apply (no_delete_insert_cons r (_merge_replace_operations (r' :: rest))); [|done].
      intros h Hh [_ Hins].
      destruct (merge_head_insert (r' :: rest) h Hh Hins) as (r0 & Hr0 & Hty).
      simpl in Hr0. injection Hr0 as <-. done.
  - destruct (IH (r' :: rest) _ _ _ _ ltac:(simpl in *; lia) Hch1) as (IHc & IHu & IHn).
    split; [|split].
    + by apply chain_cons.
    + simpl in *. lia.
    + apply (no_delete_insert_cons r (_merge_replace_operations (r' :: rest))); [|done].
      by intros h _ [? _].
Qed.

(** ** The result builder *)

Lemma drop_two {A} (l : list A) (j : nat) (p q : A) :
  l !! j = Some p -> l !! S j = Some q -> drop j l = p :: q :: drop (S (S j)) l.
Proof. intros Hp Hq. by rewrite (drop_S _ _ _ Hp), (drop_S _ _ _ Hq). Qed.

Lemma equal_block_end_S fuel path j :
  equal_block_end (S fuel) path j =
  if j <? len path - 1
  then '(x_next, y_next) ← py_index path j;
       '(x_after, y_after) ← py_index path (j + 1);
       if (x_after =? x_next + 1) && (y_after =? y_next + 1)
       then equal_block_end fuel path (j + 1)
       else mret j
  else mret j.
Proof. reflexivity. Qed.

(** The run of unit diagonal steps that starts at index [j]. *)
Lemma equal_block_end_spec path fuel j xj yj :
  0 <= j -> path !! Z.to_nat j = Some (xj, yj) ->
  good_path (drop (Z.to_nat j) path) ->
  (Z.to_nat (len path - j) <= fuel)%nat ->
  exists j' ex ey,
    equal_block_end fuel path j = Ok j' /\ j <= j' /\
    path !! Z.to_nat j' = Some (ex, ey) /\ xj <= ex /\ yj <= ey /\
    good_path (drop (Z.to_nat j') path) /\
    edits (drop (Z.to_nat j') path) = edits (drop (Z.to_nat j) path).
Proof.
  revert j xj yj. induction fuel as [|fuel IH]; intros j xj yj Hj Hp Hg Hfuel.
  { apply lookup_lt_Some in Hp. unfold len in Hfuel. lia. }
  rewrite equal_block_end_S.
  destruct (Z.ltb_spec j (len path - 1)) as [Hlt|Hge].
  - rewrite (py_index_lookup _ _ _ Hj Hp). cbn [mbind result_bind].
    destruct (py_index_in_range path (j + 1)) as ([xa ya] & Hq & ->); [lia|].
    cbn [mbind result_bind].
    replace (Z.to_nat (j + 1)) with (S (Z.to_nat j)) in * by lia.
    destruct (Z.eqb_spec xa (xj + 1)) as [->|Hne];
      [destruct (Z.eqb_spec ya (yj + 1)) as [->|Hne]|]; cbn [andb].
    + rewrite (drop_two _ _ _ _ Hp Hq) in Hg. inversion Hg as [|? ? ? _ Hg']; subst.
      rewrite <- (drop_S _ _ _ Hq) in Hg'.
      destruct (IH (j + 1) (xj + 1) (yj + 1)) as (j' & ex & ey & He & Hle & Hl & Hx & Hy & Hgj & Hed).
      * lia.
      * by replace (Z.to_nat (j + 1)) with (S (Z.to_nat j)) by lia.
      * by replace (Z.to_nat (j + 1)) with (S (Z.to_nat j)) by lia.
      * lia.
      * exists j', ex, ey. repeat split; auto; try lia.
        rewrite Hed. replace (Z.to_nat (j + 1)) with (S (Z.to_nat j)) by lia.
        rewrite (drop_two _ _ _ _ Hp Hq), edits_cons, <- (drop_S _ _ _ Hq).
        cbn [fst snd].
        destruct (Z.ltb_spec xj (xj + 1)); [|lia].
        destruct (Z.ltb_spec yj (yj + 1)); [|lia]. cbn [andb]. lia.
    + exists j, xj, yj. repeat split; auto; lia.
    + exists j, xj, yj. repeat split; auto; lia.
  - exists j, xj, yj. repeat split; auto; lia.
Qed.

Section Builder.
Context (self : MyersDiff).

#[local] Abbreviation a := (seq_a self).
#[local] Abbreviation b := (seq_b self).

Lemma build_loop_S fuel path i results :
  build_loop self (S fuel) path i results =
  if i <? len path - 1
  then
    '(x1, y1) ← py_index path i;
    '(x2, y2) ← py_index path (i + 1);
    if (x1 <? x2) && (y1 <? y2) then
      j ← equal_block_end (S (Z.to_nat (len path - (i + 1)))) path (i + 1);
      '(equal_end_x, equal_end_y) ← py_index path j;
      build_loop self fuel path j
        (results ++ [mkDiffResult EQUAL x1 (equal_end_x - x1) y1 (equal_end_y - y1)
                       (py_slice a x1 equal_end_x) (py_slice b y1 equal_end_y)])
    else if (x2 =? x1) && (y1 <? y2) then
      build_loop self fuel path (i + 1)
        (results ++ [mkDiffResult INSERT x1 0 y1 1 [] (py_slice b y1 y2)])
    else if (x1 <? x2) && (y2 =? y1) then
      build_loop self fuel path (i + 1)
        (results ++ [mkDiffResult DELETE x1 1 y1 0 (py_slice a x1 x2) []])
    else
      build_loop self fuel path (i + 1) results
  else mret results.
Proof. reflexivity. Qed.

(** From index [i] on, the loop appends a chain that spans the rest of
    the path and has one line unit for each of its moves. *)
Lemma build_loop_spec path xe ye fuel i results x y :
  last path = Some (xe, ye) ->
  0 <= i -> path !! Z.to_nat i = Some (x, y) -> 0 <= x -> 0 <= y ->
  good_path (drop (Z.to_nat i) path) ->
  (Z.to_nat (len path - i) <= fuel)%nat ->
  exists ops, build_loop self fuel path i results = Ok (results ++ ops) /\
              chain a b x y ops xe ye /\
              edit_units ops = edits (drop (Z.to_nat i) path).
Proof.
  intros Hlast. revert i results x y.
  induction fuel as [|fuel IH]; intros i results x y Hi Hp Hx Hy Hg Hfuel.
  { apply lookup_lt_Some in Hp. unfold len in Hfuel. lia. }
  rewrite build_loop_S.
  destruct (Z.ltb_spec i (len path - 1)) as [Hlt|Hge].
  - rewrite (py_index_lookup _ _ _ Hi Hp). cbn [mbind result_bind].
    destruct (py_index_in_range path (i + 1)) as ([x2 y2] & Hq & ->); [lia|].
    cbn [mbind result_bind].
    replace (Z.to_nat (i + 1)) with (S (Z.to_nat i)) in Hq by lia.
    pose proof Hg as Hg0.
    rewrite (drop_two _ _ _ _ Hp Hq) in Hg. inversion Hg as [|? ? ? Hstep Hg']; subst.
    rewrite <- (drop_S _ _ _ Hq) in Hg'.
    assert (Hed : edits (drop (Z.to_nat i) path) =
                  (if (x <? x2) && (y <? y2) then 0 else 1) + edits (drop (S (Z.to_nat i)) path)).
    { by rewrite (drop_two _ _ _ _ Hp Hq), edits_cons, <- (drop_S _ _ _ Hq). }
    destruct Hstep as [[Hdx Hdy]|[[Hdx Hdy]|[Hdx Hdy]]]; simpl in Hdx, Hdy.
    + (* a diagonal run *)
      destruct (Z.ltb_spec x x2); [|lia]. destruct (Z.ltb_spec y y2); [|lia].
      cbn [andb] in *.
      destruct (equal_block_end_spec path (S (Z.to_nat (len path - (i + 1)))) (i + 1) x2 y2)
        as (j & ex & ey & -> & Hle & Hj & Hex & Hey & Hgj & Hedj).
      * lia.
      * by replace (Z.to_nat (i + 1)) with (S (Z.to_nat i)) by lia.
      * by replace (Z.to_nat (i + 1)) with (S (Z.to_nat i)) by lia.
      * lia.
      * cbn [mbind result_bind].
        rewrite (py_index_lookup path j (ex, ey) ltac:(lia) Hj). cbn [mbind result_bind].
        apply lookup_lt_Some in Hj as Hjlt.
        edestruct (IH j) as (ops & -> & Hch & Hunits); [lia|exact Hj|lia|lia|done| |].
        { unfold len in *. lia. }
        eexists (_ :: ops). split; [by rewrite <- app_assoc|]. split.
        -- apply chain_cons; cbn; [|done|done|].
           ++ unfold op_ok; cbn. replace (x + (ex - x)) with ex by lia.
              replace (y + (ey - y)) with ey by lia. repeat split; auto; try lia; done.
           ++ replace (x + (ex - x)) with ex by lia.
              by replace (y + (ey - y)) with ey by lia.
        -- rewrite edit_units_cons, Hunits, Hedj, Hed.
           replace (Z.to_nat (i + 1)) with (S (Z.to_nat i)) by lia.
           unfold edit_units_of; cbn. lia.
    + (* an insertion *)
      subst x2 y2.
      destruct (Z.ltb_spec x x); [lia|]. destruct (Z.eqb_spec x x); [|lia].
      destruct (Z.ltb_spec y (y + 1)); [|lia]. cbn [andb] in *.
      edestruct (IH (i + 1)) as (ops & -> & Hch & Hunits); [lia| |exact Hx| | |lia|].
      { replace (Z.to_nat (i + 1)) with (S (Z.to_nat i)) by lia. exact Hq. }
      { lia. }
      { by replace (Z.to_nat (i + 1)) with (S (Z.to_nat i)) by lia. }
      eexists (_ :: ops). split; [by rewrite <- app_assoc|]. split.
      * apply chain_cons; cbn; [|done|done|].
        -- unfold op_ok; cbn. rewrite Z.add_0_r, py_slice_empty.
           repeat split; auto; try lia; done.
        -- by rewrite Z.add_0_r.
      * rewrite edit_units_cons, Hunits, Hed.
        replace (Z.to_nat (i + 1)) with (S (Z.to_nat i)) by lia.
        unfold edit_units_of; cbn. lia.
    + (* a deletion *)
      subst x2 y2.
      destruct (Z.ltb_spec x (x + 1)); [|lia]. destruct (Z.ltb_spec y y); [lia|].
      destruct (Z.eqb_spec (x + 1) x); [lia|]. destruct (Z.eqb_spec y y); [|lia].
      cbn [andb] in *.
      edestruct (IH (i + 1)) as (ops & -> & Hch & Hunits); [lia| | |exact Hy| |lia|].
      { replace (Z.to_nat (i + 1)) with (S (Z.to_nat i)) by lia. exact Hq. }
      { lia. }
      { by replace (Z.to_nat (i + 1)) with (S (Z.to_nat i)) by lia. }
      eexists (_ :: ops). split; [by rewrite <- app_assoc|]. split.
      * apply chain_cons; cbn; [|done|done|].
        -- unfold op_ok; cbn. rewrite Z.add_0_r, py_slice_empty.
           repeat split; auto; try lia; done.
        -- by rewrite Z.add_0_r.
      * rewrite edit_units_cons, Hunits, Hed.
        replace (Z.to_nat (i + 1)) with (S (Z.to_nat i)) by lia.
        unfold edit_units_of; cbn. lia.
  - exists []. rewrite app_nil_r. split; [done|].
    apply lookup_lt_Some in Hp as Hilt.
    rewrite last_lookup in Hlast.
    replace (Init.Nat.pred (length path)) with (Z.to_nat i) in Hlast
      by (unfold len in *; lia).
    rewrite Hp in Hlast. injection Hlast as <- <-.
    split; [constructor|].
    rewrite (drop_S _ _ _ Hp), drop_ge by (unfold len in *; lia). done.
Qed.
End Builder.

(** ** [MyersDiff.compute] *)

Section Compute.
Context (self : MyersDiff).
Hypothesis Hn : n self = len (processed_a self).
Hypothesis Hm : m self = len (processed_b self).

(** The solver and the builder together: the operations tile both
    sequences up to the lengths of the processed ones, no deletion is left
    before an insertion, and the line units are as many as the moves of a
    shortest path through the edit graph. *)
Lemma compute_spec :
  exists ops D trace path,
    forward_search self = Ok (Some (trace, D)) /\
    _backtrack self trace D = Ok path /\
    _find_shortest_edit_script self = Ok path /\
    compute self = Ok ops /\
    chain (seq_a self) (seq_b self) 0 0 ops (n self) (m self) /\
    no_delete_insert ops /\
    edit_units ops = D /\ 0 <= D <= n self + m self /\
    reach (processed_a self) (processed_b self) D (n self) (m self) /\
    (forall d, reach (processed_a self) (processed_b self) d (n self) (m self) -> D <= d).
Proof.
  destruct (forward_search_ok self Hn Hm) as (trace & D & Hfs & HD & Hr & Hmin & Htr).
  destruct (_backtrack_spec self trace D Htr) as (path & Hbt & Hg & Hh & Hl & He).
  assert (Hfind : _find_shortest_edit_script self = Ok path).
  { unfold _find_shortest_edit_script. rewrite Hfs. exact Hbt. }
  rewrite head_lookup in Hh.
  destruct (build_loop_spec self path (n self) (m self) (S (Z.to_nat (len path))) 0 [] 0 0)
    as (raw & Hbuild & Hch & Hunits); auto; try lia.
  change ([] ++ raw) with raw in Hbuild.
  destruct (merge_spec (seq_a self) (seq_b self) (length raw) raw 0 0 (n self) (m self))
    as (Hch' & Hunits' & Hnd); [lia|done|].
  exists (_merge_replace_operations raw), D, trace, path.
  repeat split; auto; try lia.
  - unfold compute, _build_diff_results. rewrite Hfind. cbn [mbind result_bind].
    rewrite Hbuild. done.
  - rewrite Hunits', Hunits. rewrite <- He. done.
Qed.
End Compute.

(** ** Preprocessing without options *)

Lemma preprocess_sequence_off seq : _preprocess_sequence false false false seq = seq.
Proof. induction seq as [|line seq IH]; [done|]. simpl. by rewrite IH. Qed.

Lemma preprocess_sequence_length icase iws seq :
  length (_preprocess_sequence icase iws false seq) = length seq.
Proof. induction seq as [|line seq IH]; [done|]. simpl. by rewrite IH. Qed.

Lemma MyersDiff_init_n a b icase iws iblank :
  n (MyersDiff_init a b icase iws iblank) = len (processed_a (MyersDiff_init a b icase iws iblank)).
Proof. reflexivity. Qed.

Lemma MyersDiff_init_m a b icase iws iblank :
  m (MyersDiff_init a b icase iws iblank) = len (processed_b (MyersDiff_init a b icase iws iblank)).
Proof. reflexivity. Qed.

Section EngineFacts.
Context {regex : Regex} {difflib : Difflib}.

Lemma preprocess_lines_off lines : _preprocess_lines no_options lines = lines.
Proof.
  unfold _preprocess_lines. induction lines as [|line lines IH]; [done|].
  cbn. by rewrite IH.
Qed.

(** After [_merge_replace_operations] there is nothing left for the
    fuzzy pass to merge, whatever the similarity of the texts. *)
Lemma fuzzy_matching_id ops la lb :
  no_delete_insert ops -> _apply_fuzzy_matching ops la lb = ops.
Proof.
  induction ops as [|r ops IH]; [done|].
  destruct ops as [|r' rest]; [done|]. intros [Hno Hrest].
  cbn [_apply_fuzzy_matching].
  destruct (bool_decide_reflect (type r = DELETE)) as [HD|HD];
    [destruct (bool_decide_reflect (type r' = INSERT)) as [HI|HI]|]; cbn [andb].
  - by destruct Hno.
  - f_equal. by apply IH.
  - f_equal. by apply IH.
Qed.

Lemma detect_moving_blocks_id ops la lb : _detect_moving_blocks ops la lb = ops.
Proof. reflexivity. Qed.

(** [compare_lines] returns what [compute] returns on the object it
    builds. *)
Lemma compare_lines_compute options la lb ops :
  compute (engine_differ options la lb) = Ok ops -> no_delete_insert ops ->
  compare_lines options la lb = Ok ops.
Proof.
  intros Hc Hnd. unfold compare_lines. fold (engine_differ options la lb).
  rewrite Hc. cbn [mbind result_bind].
  rewrite detect_moving_blocks_id, fuzzy_matching_id by done.
  by destruct (opt_fuzzy_matching options), (opt_moving_block_detection options).
Qed.
End EngineFacts.

(** * The properties of the specification *)

(** C1 (minimality). For all line lists [A] and [B] compared with no
    ignore options, [MyersDiff.compute] returns an operation list whose
    non-Equal line units (old_count of Delete and Replace plus new_count
    of Insert and Replace) number [N + M - 2 L], where [L] is the length
    of a longest common subsequence of [A] and [B]. *)
Theorem compute_minimal (A B : list string) :
  exists ops (L : nat),
    myers_diff A B false false false = Ok ops /\
    is_lcs_length A B L /\
    edit_units ops = len A + len B - 2 * Z.of_nat L.
Proof.
  destruct (compute_spec (MyersDiff_init A B false false false) eq_refl eq_refl)
    as (ops & D & _ & _ & _ & _ & _ & Hc & _ & _ & Hunits & _ & Hr & Hmin).
  cbn [MyersDiff_init processed_a processed_b n m] in Hr, Hmin.
  rewrite !preprocess_sequence_off in Hr, Hmin.
  destruct (shortest_is_lcs A B D Hr Hmin) as (L & HL & HD).
  exists ops, L. split; [done|]. split; [done|]. by rewrite Hunits.
Qed.

(** C2 (coverage). For all line lists [A] and [B] compared with no
    ignore options, the [old_lines] of the returned operations,
    concatenated in order, are [A], and their [new_lines] are [B]. *)
Theorem compare_lines_coverage {regex : Regex} {difflib : Difflib} (A B : list string) :
  exists ops,
    compare_lines no_options A B = Ok ops /\
    myers_diff A B false false false = Ok ops /\
    concat (old_lines <$> ops) = A /\
    concat (new_lines <$> ops) = B.
Proof.
  destruct (compute_spec (MyersDiff_init A B false false false) eq_refl eq_refl)
    as (ops & D & _ & _ & _ & _ & _ & Hc & Hch & Hnd & _).
  exists ops.
  assert (Hcl : compare_lines no_options A B = Ok ops).
  { apply compare_lines_compute; [|done].
    unfold engine_differ. by rewrite !preprocess_lines_off. }
  destruct (chain_concat _ _ _ _ _ _ _ Hch) as [Ha Hb]; [lia..|].
  cbn [MyersDiff_init seq_a seq_b n m] in Ha, Hb.
  rewrite !preprocess_sequence_off, !py_slice_all in Ha, Hb.
  done.
Qed.

(** Where [explore] leaves through its [return], the diagonals before
    the one it stopped at were explored without reaching the corner,
    and that one was followed to a point with [x >= N] and [y >= M]. *)
Lemma explore_reached self d ks v :
  explore self d ks v = Ok Reached ->
  exists ks1 k ks2 v' x y,
    ks = ks1 ++ k :: ks2 /\
    explore self d ks1 v = Ok (Explored v') /\
    explore_diagonal self d k v' = Ok (x, y) /\
    n self <= x /\ m self <= y.
Proof.
  revert v. induction ks as [|k ks IH]; intros v He; [done|].
  cbn [explore] in He.
  destruct (explore_diagonal self d k v) as [[x y]| |] eqn:Hd; [|done..].
  cbn [mbind result_bind] in He.
  destruct ((n self <=? x) && (m self <=? y)) eqn:Hr.
  - apply andb_true_iff in Hr as [Hx%Z.leb_le Hy%Z.leb_le].
    by exists [], k, ks, v, x, y.
  - destruct (IH _ He) as (ks1 & k' & ks2 & v' & x' & y' & -> & Hex & Hd' & Hx & Hy).
    exists (k :: ks1), k', ks2, v', x', y'. split; [done|]. split; [|done].
    cbn [explore]. rewrite Hd. cbn [mbind result_bind]. by rewrite Hr.
Qed.

(** Where [search] returns a trace, its last snapshot is the state with
    which the round it returned from began, and that round left
    [explore] through its [return]. *)
Lemma search_reached self ds v trace trace' D :
  search self ds v trace = Ok (Some (trace', D)) ->
  exists v0, last trace' = Some v0 /\
             explore self D (range_diagonals D) v0 = Ok Reached.
Proof.
  revert v trace. induction ds as [|d ds IH]; intros v trace Hs; [done|].
  cbn [search] in Hs.
  destruct (explore self d (range_diagonals d) v) as [[|v']| |] eqn:He; [| |done..].
  - cbn [mbind result_bind] in Hs. injection Hs as <- <-.
    exists v. by rewrite last_snoc.
  - cbn [mbind result_bind] in Hs. by apply IH in Hs.
Qed.

(** C7 (the search returns). For all sequences, of lengths [N] and [M],
    the loop over the distances is left through the [return] in its
    body, at a distance [d <= N + M]: in round [d], which begins with
    the state [v0] that was appended to [trace] last, the diagonals
    [ks] are explored without reaching the corner and the next one,
    [k], is followed to a point [(x, y)] with [x >= N] and [y >= M];
    the backtracking called there returns a path. The fallback after
    the loop is not reached. *)
Theorem search_returns_through_backtracking (A B : list string) (icase iws iblank : bool) :
  let self := MyersDiff_init A B icase iws iblank in
  exists trace d path v0 ks k ks' v x y,
    forward_search self = Ok (Some (trace, d)) /\
    0 <= d <= n self + m self /\
    last trace = Some v0 /\
    range_diagonals d = ks ++ k :: ks' /\
    explore self d ks v0 = Ok (Explored v) /\
    explore_diagonal self d k v = Ok (x, y) /\
    n self <= x /\ m self <= y /\
    _backtrack self trace d = Ok path /\
    _find_shortest_edit_script self = Ok path.
Proof.
  intros self.
  destruct (compute_spec self eq_refl eq_refl)
    as (ops & D & trace & path & Hfs & Hbt & Hfind & _ & _ & _ & _ & HD & _).
  pose proof Hfs as Hs. unfold forward_search in Hs.
  destruct (search_reached _ _ _ _ _ _ Hs) as (v0 & Hlast & Hex).
  destruct (explore_reached _ _ _ _ Hex) as (ks & k & ks' & v & x & y & Hks & He & Hd & Hx & Hy).
  exists trace, D, path, v0, ks, k, ks', v, x, y.
  repeat (split; [done|]). done.
Qed.

(** C8 (ranges). For all line lists and all options, every operation
    that [compare_lines] returns ends within the two sequences that were
    compared, and each operation starts, on both sides, where the one
    before it stopped. *)
Theorem compare_lines_contiguous {regex : Regex} {difflib : Difflib} (options : Options) (A B : list string) :
  exists ops,
    compare_lines options A B = Ok ops /\
    within (len (processed_a (engine_differ options A B)))
           (len (processed_b (engine_differ options A B))) ops /\
    contiguous ops.
Proof.
  destruct (compute_spec (engine_differ options A B) eq_refl eq_refl)
    as (ops & D & _ & _ & _ & _ & _ & Hc & Hch & Hnd & _).
  exists ops. split; [by apply compare_lines_compute|]. split.
  - by apply chain_within in Hch.
  - by apply chain_contiguous in Hch.
Qed.

(** C6, as the code has it. For all line lists and all options,
    [compare_lines] diffs the preprocessed sequences (the number of
    changed line units is [N + M - 2 L] for them), and the [old_lines]
    and [new_lines] of every operation are slices, at the operation's
    own positions, of the lists that the engine's filters have left, in
    the text those filters gave them; the case and white-space
    normalisation of the solver is used for comparing only. Where the
    solver's own blank-line filter removes no further line, the fields,
    concatenated, are exactly the lines that the engine's filters have
    left. *)
Theorem compare_lines_engine_text {regex : Regex} {difflib : Difflib} (options : Options) (A B : list string) :
  exists ops (L : nat),
    compare_lines options A B = Ok ops /\
    is_lcs_length (processed_a (engine_differ options A B))
                  (processed_b (engine_differ options A B)) L /\
    edit_units ops = len (processed_a (engine_differ options A B))
                     + len (processed_b (engine_differ options A B)) - 2 * Z.of_nat L /\
    Forall (fun r =>
              old_lines r = py_slice (_preprocess_lines options A)
                              (old_start r) (old_start r + old_count r) /\
              new_lines r = py_slice (_preprocess_lines options B)
                              (new_start r) (new_start r + new_count r)) ops /\
    (length (processed_a (engine_differ options A B)) = length (_preprocess_lines options A) ->
     length (processed_b (engine_differ options A B)) = length (_preprocess_lines options B) ->
     concat (old_lines <$> ops) = _preprocess_lines options A /\
     concat (new_lines <$> ops) = _preprocess_lines options B).
Proof.
  destruct (compute_spec (engine_differ options A B) eq_refl eq_refl)
    as (ops & D & _ & _ & _ & _ & _ & Hc & Hch & Hnd & Hunits & _ & Hr & Hmin).
  destruct (shortest_is_lcs _ _ D Hr Hmin) as (L & HL & HD).
  exists ops, L. split; [by apply compare_lines_compute|].
  split; [done|]. split; [by rewrite Hunits|]. split.
  - pose proof (chain_ops_ok _ _ _ _ _ _ _ Hch) as Hok.
    cbn [engine_differ MyersDiff_init seq_a seq_b] in Hok.
    eapply Forall_impl; [exact Hok|].
    intros r (_ & _ & _ & _ & Hol & Hnl & _). by split.
  - intros Hla Hlb.
    destruct (chain_concat _ _ _ _ _ _ _ Hch) as [Ha Hb]; [lia..|].
    cbn [engine_differ MyersDiff_init seq_a seq_b n m processed_a processed_b] in *.
    unfold len in Ha, Hb. rewrite Hla in Ha. rewrite Hlb in Hb.
    fold (len (_preprocess_lines options A)) in Ha.
    fold (len (_preprocess_lines options B)) in Hb.
    by rewrite py_slice_all in Ha, Hb.
Qed.

(** The theorem above at the lines ["Hello"] and ["hello"] compared
    with [ignore_case]: neither filter removes a line there. *)
Lemma compare_lines_engine_text_witness :
  length (processed_a (engine_differ (regex := null_regex) ignore_case_options
                         ["Hello"%string] ["hello"%string]))
  = length (_preprocess_lines (regex := null_regex) ignore_case_options ["Hello"%string]) /\
  length (processed_b (engine_differ (regex := null_regex) ignore_case_options
                         ["Hello"%string] ["hello"%string]))
  = length (_preprocess_lines (regex := null_regex) ignore_case_options ["hello"%string]) /\
  exists ops (L : nat),
    compare_lines (regex := null_regex) (difflib := null_difflib)
      ignore_case_options ["Hello"%string] ["hello"%string] = Ok ops /\
    concat (old_lines <$> ops) = ["Hello"%string] /\
    concat (new_lines <$> ops) = ["hello"%string] /\
    is_lcs_length ["hello"%string] ["hello"%string] L /\
    edit_units ops = 1 + 1 - 2 * Z.of_nat L.
Proof.
  split; [reflexivity|]. split; [reflexivity|].
  destruct (compare_lines_engine_text (regex := null_regex) (difflib := null_difflib)
              ignore_case_options ["Hello"%string] ["hello"%string])
    as (ops & L & Hc & HL & Hu & _ & Hcat).
  destruct (Hcat eq_refl eq_refl) as [Ha Hb].
  by exists ops, L.
Defined.

(** C6 as the claim has it fails: with [ignore_case] the sequences
    compared are ["hello"] and ["hello"], and the operation returned
    carries the line as it was given, ["Hello"]. *)
Lemma compare_lines_text_not_normalised :
  exists ops,
    compare_lines (regex := null_regex) (difflib := null_difflib)
      ignore_case_options ["Hello"%string] ["hello"%string] = Ok ops /\
    processed_a (engine_differ (regex := null_regex) ignore_case_options
                   ["Hello"%string] ["hello"%string]) = ["hello"%string] /\
    concat (old_lines <$> ops)
    <> processed_a (engine_differ (regex := null_regex) ignore_case_options
                      ["Hello"%string] ["hello"%string]).
Proof.
  eexists. split; [vm_compute; reflexivity|]. split; [reflexivity|].
  vm_compute. discriminate.
Qed.

(** Outside the hypotheses of the theorem for C6: a comment line that
    the engine strips to a blank line is dropped by the solver's
    blank-line filter, from the compared sequence only. The indices of
    the path then point one line too early into the list the operations
    are cut from: the blank line is reported equal to "x". *)
Remark compare_lines_blank_after_comment :
  compare_lines (regex := hash_regex) (difflib := null_difflib)
    blank_comment_options ["# c"; "x"]%string ["x"%string]
  = Ok [mkDiffResult EQUAL 0 1 0 1 [EmptyString] ["x"%string]].
Proof. vm_compute. reflexivity. Qed.

(** C5, as the code has it. [compare_lines([], ["x", "y"])] with no
    options returns two operations, one Insert for each line, each with
    [old_count = 0] and [new_count = 1]. *)
Theorem compare_lines_empty_vs_two {regex : Regex} {difflib : Difflib} :
  compare_lines no_options [] ["x"; "y"]%string =
  Ok [mkDiffResult INSERT 0 0 0 1 [] ["x"%string];
      mkDiffResult INSERT 0 0 1 1 [] ["y"%string]].
Proof. vm_compute. reflexivity. Qed.

(** C5 as the claim has it fails: the result is not one operation. *)
Lemma compare_lines_empty_vs_two_not_single :
  exists ops,
    compare_lines (regex := null_regex) (difflib := null_difflib)
      no_options [] ["x"; "y"]%string = Ok ops /\
    length ops <> 1%nat /\
    ops <> [mkDiffResult INSERT 0 0 0 2 [] ["x"; "y"]%string].
Proof.
  eexists. split; [vm_compute; reflexivity|]. split; [simpl; lia|discriminate].
Qed.

(** C9 (unified format). The diff of ["a", "b", "c"] and
    ["a", "x", "c"], formatted with the labels "a" and "b", is the two
    header lines [--- a] and [+++ b], then the one hunk header
    [@@ -2,1 +2,1 @@], the one line [-b] and the one line [+x]. *)
Theorem format_diff_unified_example :
  exists ops,
    myers_diff ["a"; "b"; "c"]%string ["a"; "x"; "c"]%string false false false = Ok ops /\
    format_diff_unified_lines ops "a" "b" =
      ["--- a"; "+++ b"; "@@ -2,1 +2,1 @@"; "-b"; "+x"]%string /\
    format_diff_unified ops "a" "b" 3 =
      ("--- a" ++ newline ++ "+++ b" ++ newline ++ "@@ -2,1 +2,1 @@" ++ newline
       ++ "-b" ++ newline ++ "+x")%string.
Proof.
  eexists. split; [vm_compute; reflexivity|]. split; vm_compute; reflexivity.
Qed.

(** ** Identical inputs *)

Section Identity.
Context (self : MyersDiff).
Hypothesis Hn : n self = len (processed_a self).
Hypothesis Hm : m self = len (processed_b self).
Hypothesis Hsame : processed_a self = processed_b self.

Lemma m_same : m self = n self.
Proof using Hn Hm Hsame. by rewrite Hn, Hm, Hsame. Qed.

Lemma follow_diagonal_same fuel x :
  0 <= x <= n self -> (Z.to_nat (n self - x) < fuel)%nat ->
  follow_diagonal self fuel x x = Ok (n self, n self).
Proof using Hn Hm Hsame.
  revert x. induction fuel as [|fuel IH]; intros x Hx Hfuel; [lia|].
  cbn [follow_diagonal]. rewrite m_same.
  destruct (Z.ltb_spec x (n self)) as [Hlt|Hge]; cbn [andb].
  - destruct (py_index_in_range (processed_a self) x) as (s & Hs & _); [lia|].
    rewrite (lines_equal_lookup self x x s s); [|lia|lia|done|by rewrite <- Hsame].
    cbn [mbind result_bind]. rewrite String.eqb_refl.
    apply IH; lia.
  - by assert (x = n self) as -> by lia.
Qed.

Lemma forward_search_same : forward_search self = Ok (Some ([{[1 := 0]}], 0)).
Proof using Hn Hm Hsame.
  assert (0 <= n self) by (rewrite Hn; unfold len; lia).
  unfold forward_search, range. rewrite seqZ_cons by (rewrite m_same; lia).
  cbn [search]. change (range_diagonals 0) with [0]. cbn [explore].
  rewrite explore_diagonal_unfold. change (start_x 0 0 {[1 := 0]}) with 0.
  change (0 - 0) with 0.
  rewrite follow_diagonal_same by lia.
  cbn [mbind result_bind]. rewrite m_same.
  replace (n self - 0) with (n self) by lia.
  by rewrite !Z.leb_refl.
Qed.

Lemma find_shortest_edit_script_same :
  _find_shortest_edit_script self =
  Ok (if n self =? 0 then [(0, 0)] else [(0, 0); (n self, n self)]).
Proof using Hn Hm Hsame.
  unfold _find_shortest_edit_script. rewrite forward_search_same.
  cbn [mbind result_bind]. unfold _backtrack. change (range_down 0) with (@nil Z).
  cbn [backtrack_loop mbind result_bind mret result_ret]. rewrite m_same.
  change (reverse [(n self, n self)]) with [(n self, n self)].
  unfold pair_eqb. cbn [fst snd].
  destruct (Z.eqb_spec (n self) 0) as [->|Hne]; cbn [andb].
  - reflexivity.
  - change [(0, 0); (n self, n self)] with ([(0, 0)] ++ [(n self, n self)]).
    rewrite py_index_last. cbn [mbind result_bind fst snd].
    by rewrite !Z.eqb_refl.
Qed.

Lemma compute_same :
  compute self =
  Ok (if n self =? 0 then []
      else [mkDiffResult EQUAL 0 (n self) 0 (n self)
              (py_slice (seq_a self) 0 (n self)) (py_slice (seq_b self) 0 (n self))]).
Proof using Hn Hm Hsame.
  assert (0 <= n self) by (rewrite Hn; unfold len; lia).
  unfold compute. rewrite find_shortest_edit_script_same. cbn [mbind result_bind].
  unfold _build_diff_results.
  destruct (Z.eqb_spec (n self) 0) as [Hz|Hnz].
  - reflexivity.
  - change (Z.to_nat (len [(0, 0); (n self, n self)])) with 2%nat.
    rewrite build_loop_S. change (len [(0, 0); (n self, n self)]) with 2.
    change (0 <? 2 - 1) with true. cbv iota.
    change (py_index [(0, 0); (n self, n self)] 0) with (Ok (A := Z * Z) (0, 0)).
    change (py_index [(0, 0); (n self, n self)] (0 + 1)) with (Ok (A := Z * Z) (n self, n self)).
    cbn [mbind result_bind].
    destruct (Z.ltb_spec 0 (n self)); [|lia]. cbn [andb].
    change (Z.to_nat (2 - (0 + 1))) with 1%nat.
    rewrite equal_block_end_S. change (len [(0, 0); (n self, n self)]) with 2.
    change (0 + 1 <? 2 - 1) with false. cbv iota. cbn [mbind result_bind mret result_ret].
    change (py_index [(0, 0); (n self, n self)] (0 + 1)) with (Ok (A := Z * Z) (n self, n self)).
    cbn [mbind result_bind].
    rewrite build_loop_S. change (len [(0, 0); (n self, n self)]) with 2.
    change (0 + 1 <? 2 - 1) with false. cbv iota. cbn [mbind result_bind mret result_ret].
    rewrite !Z.sub_0_r. reflexivity.
Qed.
End Identity.

(** C3 (identity). [compare_lines(X, X)] with no options is one Equal
    operation with [old_count = new_count = len(X)] that spans all of [X]
    when [X] is not empty, and no operation when it is; so it has no
    Insert, Delete or Replace. *)
Theorem compare_lines_identity {regex : Regex} {difflib : Difflib} (X : list string) :
  exists ops,
    compare_lines no_options X X = Ok ops /\
    ops = (if bool_decide (X = []) then []
           else [mkDiffResult EQUAL 0 (len X) 0 (len X) X X]) /\
    Forall (fun r => type r = EQUAL) ops.
Proof.
  pose proof (compute_same (MyersDiff_init X X false false false) eq_refl eq_refl eq_refl)
    as Hc.
  eexists. split; [|split; [reflexivity|]].
  - apply compare_lines_compute.
    + unfold engine_differ. rewrite !preprocess_lines_off.
      etrans; [exact Hc|].
      cbn [MyersDiff_init n m seq_a seq_b].
      rewrite !preprocess_sequence_off, !py_slice_all.
      f_equal. destruct X; [done|]. by rewrite bool_decide_eq_false_2.
    + by destruct (bool_decide (X = [])).
  - destruct (bool_decide (X = [])); repeat constructor.
Qed.

(** ** Three-way merge *)

Section Merge.
Context {regex : Regex} {difflib : Difflib}.

Lemma compare_lines_insert_before (new : string) :
  new = "x"%string \/ new = "y"%string ->
  compare_lines no_options ["a"%string] [new; "a"%string] =
  Ok [mkDiffResult INSERT 0 0 0 1 [] [new];
      mkDiffResult EQUAL 0 1 1 1 ["a"%string] ["a"%string]].
Proof. intros [-> | ->]; vm_compute; reflexivity. Qed.

Lemma change_map_insert_before (new : string) :
  _build_change_map
    [mkDiffResult INSERT 0 0 0 1 [] [new];
     mkDiffResult EQUAL 0 1 1 1 ["a"%string] ["a"%string]] !! 0
  = Some (mkChange INSERT 0 [new]).
Proof. unfold _build_change_map. cbn. apply lookup_insert_eq. Qed.

(** Where both sides insert before the same base line, an iteration of
    the loop leaves [i] where it was. *)
Lemma merge_step_stays (yours_changes theirs_changes : gmap Z Change) merged conflicts :
  yours_changes !! 0 = Some (mkChange INSERT 0 ["x"%string]) ->
  theirs_changes !! 0 = Some (mkChange INSERT 0 ["y"%string]) ->
  exists merged' conflicts',
    merge_step ["a"%string] yours_changes theirs_changes 0 merged conflicts
    = Ok (0, merged', conflicts').
Proof.
  intros Hy Ht. unfold merge_step. rewrite Hy, Ht.
  rewrite bool_decide_eq_false_2 by discriminate.
  cbn. eauto.
Qed.

Lemma merge_loop_stays (yours_changes theirs_changes : gmap Z Change) fuel merged conflicts :
  yours_changes !! 0 = Some (mkChange INSERT 0 ["x"%string]) ->
  theirs_changes !! 0 = Some (mkChange INSERT 0 ["y"%string]) ->
  merge_loop fuel ["a"%string] yours_changes theirs_changes 0 merged conflicts = OutOfFuel.
Proof.
  intros Hy Ht. revert merged conflicts.
  induction fuel as [|fuel IH]; intros merged conflicts; [done|].
  cbn [merge_loop]. change (0 <? len ["a"%string]) with true. cbv iota.
  destruct (merge_step_stays _ _ merged conflicts Hy Ht) as (merged' & conflicts' & ->).
  cbn [mbind result_bind]. apply IH.
Qed.
End Merge.

(** C4, the code at the failing input. With base ["a"], yours
    ["x", "a"] and theirs ["y", "a"], both sides insert at base index 0
    with [old_count = 0]; the loop of [three_way_merge] then adds
    [max(0, 0)] to [i] for ever: whatever number of iterations it is
    given, it has not returned. *)
Theorem three_way_merge_no_progress {regex : Regex} {difflib : Difflib} (fuel : nat) :
  three_way_merge fuel no_options ["a"%string] ["x"; "a"]%string ["y"; "a"]%string
  = OutOfFuel.
Proof.
  unfold three_way_merge.
  rewrite !compare_lines_insert_before by auto. cbn [mbind result_bind].
  apply merge_loop_stays; apply change_map_insert_before.
Qed.

(** ** Word diffs *)

Lemma append_empty_l (s : string) : (EmptyString ++ s)%string = s.
Proof. reflexivity. Qed.

Lemma append_cons (c : ascii) (s t : string) : (String c s ++ t)%string = String c (s ++ t).
Proof. reflexivity. Qed.

Lemma append_assoc (s1 s2 s3 : string) : ((s1 ++ s2) ++ s3 = s1 ++ (s2 ++ s3))%string.
Proof. induction s1 as [|c s1 IH]; [done|]. by rewrite !append_cons, IH. Qed.

Lemma cat_cons (s : string) (l : list string) : cat (s :: l) = (s ++ cat l)%string.
Proof. reflexivity. Qed.

Lemma cat_app (l1 l2 : list string) : cat (l1 ++ l2) = (cat l1 ++ cat l2)%string.
Proof.
  induction l1 as [|s l1 IH]; [done|].
  by rewrite <- app_comm_cons, !cat_cons, IH, append_assoc.
Qed.

Lemma findall_runs_head s rest : findall_runs s <> EmptyString :: rest.
Proof.
  destruct s as [|c s]; [done|]. simpl.
  destruct (findall_runs s) as [|[|c' t] l]; [done|done|].
  by destruct (Bool.eqb _ _).
Qed.

(** The runs of [findall_runs] are the line, cut. *)
Lemma findall_runs_cat s : cat (findall_runs s) = s.
Proof.
  induction s as [|c s IH]; [done|]. simpl.
  pose proof (findall_runs_head s) as Hhead.
  destruct (findall_runs s) as [|[|c' t] l].
  - by rewrite <- IH.
  - by destruct (Hhead l).
  - destruct (Bool.eqb _ _); rewrite ?cat_cons, ?append_cons in *; by rewrite IH.
Qed.

Lemma py_slice_cons {A} (l : list A) (i j : Z) (x : A) :
  0 <= i < j -> l !! Z.to_nat i = Some x ->
  py_slice l i j = x :: py_slice l (i + 1) j.
Proof.
  intros Hi Hx. rewrite <- (py_slice_app l i (i + 1) j) by lia. f_equal.
  apply lookup_lt_Some in Hx as Hlt.
  rewrite py_slice_nonneg by lia. unfold len.
  rewrite !Z.min_l by lia.
  replace (Z.to_nat (i + 1 - i)) with 1%nat by lia.
  by rewrite (drop_S _ _ _ Hx).
Qed.

Lemma words_of_app t1 t2 l1 l2 :
  words_of t1 t2 (l1 ++ l2) = (words_of t1 t2 l1 ++ words_of t1 t2 l2)%string.
Proof. unfold words_of. by rewrite filter_app, fmap_app, cat_app. Qed.

Lemma words_of_all t1 t2 ty l :
  ty = t1 \/ ty = t2 -> Forall (fun w => wd_type w = ty) l ->
  words_of t1 t2 l = cat (word <$> l).
Proof.
  intros Hty Hl. unfold words_of. f_equal. f_equal.
  induction Hl as [|w l Hw _ IH]; [done|].
  rewrite filter_cons_True, IH; [done|]. rewrite Hw. tauto.
Qed.

Lemma words_of_none t1 t2 ty l :
  ty <> t1 -> ty <> t2 -> Forall (fun w => wd_type w = ty) l ->
  words_of t1 t2 l = EmptyString.
Proof.
  intros H1 H2 Hl. unfold words_of.
  induction Hl as [|w l Hw _ IH]; [done|].
  rewrite filter_cons_False; [done|]. rewrite Hw. intros [?|?]; congruence.
Qed.

(** The words of one span, in order, each with the type of the span. *)
Lemma emit_words_spec ty words k :
  forall i1 i2 pos acc, Z.to_nat (i2 - i1) = k -> 0 <= i1 <= i2 -> i2 <= len words ->
  exists pos' out,
    emit_words ty words (seqZ i1 (i2 - i1)) pos acc = Ok (pos', acc ++ out) /\
    word <$> out = py_slice words i1 i2 /\
    Forall (fun w => wd_type w = ty) out /\ Forall well_sized out.
Proof.
  induction k as [|k IH]; intros i1 i2 pos acc Hk Hi Hlen.
  - assert (i2 = i1) as -> by lia. rewrite Z.sub_diag. simpl.
    exists pos, []. rewrite app_nil_r, py_slice_empty. by repeat split.
  - rewrite seqZ_cons by lia. cbn [emit_words].
    destruct (py_index_in_range words i1) as (w & Hw & ->); [lia|].
    cbn [mbind result_bind].
    replace (Z.pred (i2 - i1)) with (i2 - Z.succ i1) by lia.
    destruct (IH (Z.succ i1) i2 (pos + str_len w)
                (acc ++ [mkWordDiff ty w pos (pos + str_len w)]))
      as (pos' & out & -> & Hout & Hty & Hsz); [lia..|].
    exists pos', (mkWordDiff ty w pos (pos + str_len w) :: out).
    split; [by rewrite <- app_assoc|]. split; [|split].
    + rewrite fmap_cons, Hout. cbn [word].
      by rewrite (py_slice_cons words i1 i2 w) by (done || lia).
    + by constructor.
    + constructor; [|done]. unfold well_sized. cbn. lia.
Qed.

Section Words.
Context {difflib : Difflib}.
Context (wa wb : list string).

Lemma words_loop_spec opcodes :
  forall i j pos_a pos_b acc,
    opcodes_from wa wb i j opcodes -> 0 <= i -> 0 <= j ->
    exists out,
      words_loop wa wb opcodes pos_a pos_b acc = Ok (acc ++ out) /\
      words_of EQUAL DELETE out = cat (py_slice wa i (len wa)) /\
      words_of EQUAL INSERT out = cat (py_slice wb j (len wb)) /\
      Forall well_sized out.
Proof.
  induction opcodes as [|[[[[tag i1] i2] j1] j2] opcodes IH];
    intros i j pos_a pos_b acc Hop Hi Hj.
  - destruct Hop as [-> ->]. exists []. rewrite app_nil_r, !py_slice_empty. by repeat split.
  - destruct Hop as (-> & -> & Hi2 & Hj2 & Htag & Hrest).
    cbn [words_loop].
    destruct tag.
    + (* equal *)
      destruct (emit_words_spec EQUAL wa (Z.to_nat (i2 - i)) i i2 pos_a acc)
        as (pa' & out1 & -> & Hw1 & Hty1 & Hsz1); [lia..|].
      cbn [mbind result_bind].
      destruct (IH i2 j2 pa' (pos_b + sum_len (py_slice wb j j2)) (acc ++ out1))
        as (out & -> & Ha & Hb & Hsz); [done|lia|lia|].
      exists (out1 ++ out). split; [by rewrite app_assoc|].
      rewrite !words_of_app, Ha, Hb.
      rewrite !(words_of_all _ _ EQUAL out1) by auto.
      split; [|split].
      * by rewrite Hw1, <- cat_app, py_slice_app by lia.
      * by rewrite Hw1, Htag, <- cat_app, py_slice_app by lia.
      * by apply Forall_app.
    + (* delete *)
      destruct (emit_words_spec DELETE wa (Z.to_nat (i2 - i)) i i2 pos_a acc)
        as (pa' & out1 & -> & Hw1 & Hty1 & Hsz1); [lia..|].
      cbn [mbind result_bind]. subst j2.
      destruct (IH i2 j pa' pos_b (acc ++ out1))
        as (out & -> & Ha & Hb & Hsz); [done|lia|lia|].
      exists (out1 ++ out). split; [by rewrite app_assoc|].
      rewrite !words_of_app, Ha, Hb.
      rewrite (words_of_all EQUAL DELETE DELETE out1) by auto.
      rewrite (words_of_none EQUAL INSERT DELETE out1) by done.
      split; [|split].
      * by rewrite Hw1, <- cat_app, py_slice_app by lia.
      * done.
      * by apply Forall_app.
    + (* insert *)
      destruct (emit_words_spec INSERT wb (Z.to_nat (j2 - j)) j j2 pos_b acc)
        as (pb' & out1 & -> & Hw1 & Hty1 & Hsz1); [lia..|].
      cbn [mbind result_bind]. subst i2.
      destruct (IH i j2 pos_a pb' (acc ++ out1))
        as (out & -> & Ha & Hb & Hsz); [done|lia|lia|].
      exists (out1 ++ out). split; [by rewrite app_assoc|].
      rewrite !words_of_app, Ha, Hb.
      rewrite (words_of_all EQUAL INSERT INSERT out1) by auto.
      rewrite (words_of_none EQUAL DELETE INSERT out1) by done.
      split; [|split].
      * done.
      * by rewrite Hw1, <- cat_app, py_slice_app by lia.
      * by apply Forall_app.
    + (* replace *)
      destruct (emit_words_spec DELETE wa (Z.to_nat (i2 - i)) i i2 pos_a acc)
        as (pa' & out1 & -> & Hw1 & Hty1 & Hsz1); [lia..|].
      cbn [mbind result_bind].
      destruct (emit_words_spec INSERT wb (Z.to_nat (j2 - j)) j j2 pos_b (acc ++ out1))
        as (pb' & out2 & -> & Hw2 & Hty2 & Hsz2); [lia..|].
      cbn [mbind result_bind].
      destruct (IH i2 j2 pa' pb' ((acc ++ out1) ++ out2))
        as (out & -> & Ha & Hb & Hsz); [done|lia|lia|].
      exists (out1 ++ out2 ++ out). split; [by rewrite !app_assoc|].
      rewrite !words_of_app, Ha, Hb.
      rewrite (words_of_all EQUAL DELETE DELETE out1) by auto.
      rewrite (words_of_none EQUAL INSERT DELETE out1) by done.
      rewrite (words_of_all EQUAL INSERT INSERT out2) by auto.
      rewrite (words_of_none EQUAL DELETE INSERT out2) by done.
      rewrite !append_empty_l.
      split; [|split].
      * by rewrite Hw1, <- cat_app, py_slice_app by lia.
      * by rewrite Hw2, <- cat_app, py_slice_app by lia.
      * apply Forall_app. split; [done|]. by apply Forall_app.
Qed.
End Words.

(** C10 (word diffs). For all strings [line_a] and [line_b] for which
    [get_opcodes] keeps the promise of its documentation: in the list
    that [compare_words] returns, the words of the EQUAL and DELETE
    entries, in order, concatenate to [line_a], those of the EQUAL and
    INSERT entries to [line_b], and every entry has
    [end_pos - start_pos = len(word)]. *)
Theorem compare_words_covers {difflib : Difflib} (line_a line_b : string) :
  valid_opcodes (findall_runs line_a) (findall_runs line_b)
    (get_opcodes (findall_runs line_a) (findall_runs line_b)) ->
  exists wds,
    compare_words line_a line_b = Ok wds /\
    words_of EQUAL DELETE wds = line_a /\
    words_of EQUAL INSERT wds = line_b /\
    Forall (fun w => end_pos w - start_pos w = str_len (word w)) wds.
Proof.
  intros Hvalid. unfold compare_words.
  destruct (words_loop_spec _ _ _ 0 0 0 0 [] Hvalid) as (wds & -> & Ha & Hb & Hsz); [lia..|].
  exists wds. rewrite !py_slice_all, !findall_runs_cat in *. by repeat split.
Qed.

(** The theorem above at the lines "a b" and "a c", with the alignment
    that [get_opcodes] computes for them. *)
Lemma compare_words_covers_witness :
  valid_opcodes (findall_runs "a b") (findall_runs "a c")
    (get_opcodes (Difflib := example_difflib) (findall_runs "a b") (findall_runs "a c")) /\
  exists wds,
    compare_words (difflib := example_difflib) "a b" "a c" = Ok wds /\
    words_of EQUAL DELETE wds = "a b"%string /\
    words_of EQUAL INSERT wds = "a c"%string /\
    Forall (fun w => end_pos w - start_pos w = str_len (word w)) wds.
Proof.
  assert (Hv : valid_opcodes (findall_runs "a b") (findall_runs "a c")
                 (get_opcodes (Difflib := example_difflib)
                    (findall_runs "a b") (findall_runs "a c"))).
  { vm_compute. repeat split; discriminate. }
  split; [exact Hv|].
  exact (compare_words_covers (difflib := example_difflib) "a b" "a c" Hv).
Defined.

(** * Further properties of the code *)

(** ** Diagonals run over equal lines *)

Lemma matched_empty a b k s : matched a b k s s.
Proof. intros i Hi. lia. Qed.

Lemma matched_join a b k s t e :
  matched a b k s t -> matched a b k t e -> matched a b k s e.
Proof.
  intros H1 H2 i Hi. destruct (decide (i < t)); [apply H1|apply H2]; lia.
Qed.

Lemma matched_one a b k x c :
  a !! Z.to_nat x = Some c -> b !! Z.to_nat (x - k) = Some c ->
  matched a b k x (x + 1).
Proof. intros Ha Hb i Hi. assert (i = x) as -> by lia. eauto. Qed.

(** The lines of a matching run are the same on both sides. *)
Lemma matched_slices a b k s e :
  matched a b k s e -> 0 <= s <= e -> 0 <= s - k ->
  py_slice a s e = py_slice b (s - k) (e - k).
Proof.
  intros Hm Hs Hk.
  remember (Z.to_nat (e - s)) as cnt eqn:Hcnt. revert s Hm Hs Hk Hcnt.
  induction cnt as [|cnt IH]; intros s Hm Hs Hk Hcnt.
  - assert (s = e) as -> by lia. by rewrite !py_slice_empty.
  - destruct (Hm s) as (c & Ha & Hb); [lia|].
    rewrite (py_slice_cons a s e c), (py_slice_cons b (s - k) (e - k) c) by (done || lia).
    f_equal. replace (s - k + 1) with (s + 1 - k) by lia.
    apply IH; [|lia..]. intros i Hi. apply Hm. lia.
Qed.

Lemma traced_matched_app a b trace more d k e :
  traced_matched a b trace d k e -> traced_matched a b (trace ++ more) d k e.
Proof.
  induction 1 as [e He Hm Hc|d k e v px Hd Hv Hpx _ IH Hle Hm]; [by constructor|].
  eapply traced_matched_S; eauto. by apply lookup_app_l_Some.
Qed.

Section ForwardMatched.
Context (self : MyersDiff).
Hypothesis Hn : n self = len (processed_a self).
Hypothesis Hm : m self = len (processed_b self).

#[local] Abbreviation a := (processed_a self).
#[local] Abbreviation b := (processed_b self).

(** What [follow_diagonal] walks over is equal on both sides. *)
Lemma follow_diagonal_matched fuel k x e y :
  0 <= x -> 0 <= x - k ->
  follow_diagonal self fuel x (x - k) = Ok (e, y) ->
  matched a b k x e.
Proof using Hn Hm.
  revert x. induction fuel as [|fuel IH]; intros x Hx Hy Hf; [done|].
  cbn [follow_diagonal] in Hf.
  destruct (Z.ltb_spec x (n self)) as [Hxn|Hxn];
    [destruct (Z.ltb_spec (x - k) (m self)) as [Hym|Hym]|]; cbn [andb] in Hf.
  - destruct (py_index_in_range a x) as (s & Hs & Hs'); [lia|].
    destruct (py_index_in_range b (x - k)) as (t & Ht & Ht'); [lia|].
    rewrite (lines_equal_lookup self x (x - k) s t Hx Hy Hs Ht) in Hf.
    cbn [mbind result_bind] in Hf.
    destruct (String.eqb s t) eqn:Heq.
    + apply String.eqb_eq in Heq. subst t.
      replace (x - k + 1) with (x + 1 - k) in Hf by lia.
      apply (matched_join _ _ _ _ (x + 1)); [by apply matched_one with s|].
      apply IH; [lia|lia|done].
    + injection Hf as <- _. apply matched_empty.
  - injection Hf as <- _. apply matched_empty.
  - injection Hf as <- _. apply matched_empty.
Qed.

Lemma explore_diagonal_matched d k v v0 trace e y :
  round_start self d v0 trace -> round_start_matched a b d v0 trace ->
  in_round d k -> (forall j, ~ in_round d j -> v !! j = v0 !! j) ->
  explore_diagonal self d k v = Ok (e, y) ->
  traced_matched a b (trace ++ [v0]) d k e.
Proof using Hn Hm.
  intros Hstart Hstartm Hk Hagree Hex.
  destruct (explore_diagonal_ok self Hn Hm d k v v0 trace Hstart Hk Hagree)
    as (e' & He' & Hend).
  rewrite Hex in He'. injection He' as <- _.
  rewrite explore_diagonal_unfold in Hex.
  destruct (moves_down_agree d k v v0 Hk Hagree) as [_ Hsx]. rewrite Hsx in Hex.
  pose proof Hstart as (Hd & Hlen & Hv0 & Hprev & _).
  destruct Hend as (Hr & Hcl & _ & Htr).
  destruct (decide (d = 0)) as [->|Hd0].
  - apply in_round_0 in Hk as ->. rewrite (Hv0 eq_refl) in Hex.
    change (start_x 0 0 {[1 := 0]}) with 0 in Hex.
    apply traced_matched_0; [apply reach_nonneg in Hr; lia| |done].
    by apply (follow_diagonal_matched _ 0 0 e y) in Hex.
  - destruct (round_start_prev self d v0 trace k) as (px & Hpx & Hendp & Hs); [done|lia|done|].
    destruct Hendp as (Hrp & _ & _ & _). apply reach_nonneg in Hrp as (_ & Hpx0 & Hpy0).
    assert (Hin : in_round (d - 1) (prev_diagonal d k v0)).
    { pose proof (in_round_bounds _ _ Hk). unfold prev_diagonal, moves_down.
      destruct (Z.eqb_spec k (- d)); simpl; [apply in_round_right; [done|lia]|].
      destruct (Z.eqb_spec k d); simpl; [by apply in_round_left|].
      destruct (_ <? _); [by apply in_round_right|by apply in_round_left]. }
    assert (Hmid : (trace ++ [v0]) !! Z.to_nat d = Some v0).
    { apply list_lookup_middle. unfold len in Hlen. lia. }
    assert (Hle : (if moves_down d k v0 then px else px + 1) <= e).
    { inversion Htr as [|d1 k1 e1 v1 px1 _ Hv1 Hpx1 _ Hle1 Hd1 Hk1 He1]; [lia|].
      rewrite Hmid in Hv1. injection Hv1 as <-.
      rewrite Hpx in Hpx1. by injection Hpx1 as <-. }
    apply traced_matched_S with v0 px; auto; [lia| |].
    + apply traced_matched_app. by apply Hstartm.
    + rewrite <- Hs. apply (follow_diagonal_matched _ k _ e y) in Hex; [done| |].
      * rewrite Hs. destruct (moves_down d k v0); lia.
      * rewrite Hs. unfold prev_diagonal in Hpy0. destruct (moves_down d k v0); lia.
Qed.

Lemma explore_matched d v0 trace ks v r :
  round_start self d v0 trace -> round_start_matched a b d v0 trace ->
  (forall k, k ∈ ks -> in_round d k) ->
  (forall j, ~ in_round d j -> v !! j = v0 !! j) ->
  (forall k e, in_round d k -> v !! k = Some e -> k ∉ ks ->
     traced_matched a b (trace ++ [v0]) d k e) ->
  explore self d ks v = Ok r ->
  match r with
  | Reached =>
      exists k e, end_point self (trace ++ [v0]) d k e /\
                  traced_matched a b (trace ++ [v0]) d k e /\
                  n self <= e /\ m self <= e - k
  | Explored v' =>
      forall k e, in_round d k -> v' !! k = Some e ->
        traced_matched a b (trace ++ [v0]) d k e
  end.
Proof using Hn Hm.
  intros Hstart Hstartm. revert v.
  induction ks as [|k ks IH]; intros v Hks Hagree Hold Hex.
  - injection Hex as <-. intros k e Hk He. apply Hold; [done|done|]. apply not_elem_of_nil.
  - assert (Hk : in_round d k) by (apply Hks; left).
    destruct (explore_diagonal_ok self Hn Hm d k v v0 trace Hstart Hk Hagree)
      as (e & He & Hend).
    pose proof (explore_diagonal_matched d k v v0 trace e (e - k) Hstart Hstartm Hk Hagree He)
      as Htm.
    cbn [explore] in Hex. rewrite He in Hex. cbn [mbind result_bind] in Hex.
    destruct ((n self <=? e) && (m self <=? e - k)) eqn:Hreach.
    + injection Hex as <-. exists k, e.
      apply andb_true_iff in Hreach as [?%Z.leb_le ?%Z.leb_le].
      split; [done|]. split; [done|]. by split.
    + apply (IH (<[k := e]> v)); [| | |done].
      * intros k' Hk'. apply Hks. by right.
      * intros j Hj. rewrite lookup_insert_ne; [by apply Hagree|]. by intros ->.
      * intros k' e' Hk' He' Hnotin.
        destruct (decide (k' = k)) as [->|Hne].
        -- rewrite lookup_insert_eq in He'. by injection He' as <-.
        -- rewrite lookup_insert_ne in He' by done.
           apply Hold; [done|done|]. by apply not_elem_of_cons.
Qed.

(** Where the search leaves its loop, the corner was reached along
    equal lines. *)
Lemma search_matched cnt d v trace trace' D :
  round_start self d v trace -> round_start_matched a b d v trace ->
  search self (seqZ d (Z.of_nat cnt)) v trace = Ok (Some (trace', D)) ->
  traced_matched a b trace' D (n self - m self) (n self).
Proof using Hn Hm.
  revert d v trace. induction cnt as [|cnt IH]; intros d v trace Hstart Hstartm Hs; [done|].
  rewrite seqZ_cons in Hs by lia. cbn [search] in Hs.
  pose proof Hstart as (Hd & Hlen & _ & _ & Hnone).
  destruct (explore_ok self Hn Hm d v trace (range_diagonals d) v Hstart)
    as [[Hex _]|(v' & Hex & Hag & _ & Hin)];
    [intros k; apply in_round_range|done| |].
  - rewrite Hex in Hs. cbn [mbind result_bind] in Hs. injection Hs as <- <-.
    pose proof (explore_matched d v trace (range_diagonals d) v Reached Hstart Hstartm) as Hem.
    destruct Hem as (k & e & Hend & Htm & Hne & Hme); [intros k; apply in_round_range|done| |done|].
    { intros k e Hk _ Hnotin. by apply in_round_range in Hk. }
    destruct Hend as (Hr & _).
    pose proof (reach_beyond_corner _ _ _ _ _ Hr) as Hc.
    rewrite <- Hn, <- Hm in Hc. specialize (Hc Hne Hme).
    assert (e = n self /\ e - k = m self) as [-> Hk].
    { destruct (decide (d - (e - n self) - (e - k - m self) < d)) as [Hlt|Hge]; [|lia].
      exfalso. by apply (Hnone _ Hlt). }
    by replace (n self - m self) with k by lia.
  - rewrite Hex in Hs. cbn [mbind result_bind] in Hs.
    pose proof (explore_matched d v trace (range_diagonals d) v (Explored v') Hstart Hstartm)
      as Hem.
    cbn in Hem. specialize (Hem ltac:(intros k; apply in_round_range) ltac:(done)).
    assert (Hem' : forall k e, in_round d k -> v' !! k = Some e ->
                     traced_matched a b (trace ++ [v]) d k e).
    { apply Hem; [|done]. intros k e Hk _ Hnotin. by apply in_round_range in Hk. }
    replace (Z.pred (Z.of_nat (S cnt))) with (Z.of_nat cnt) in Hs by lia.
    apply (IH (Z.succ d) v' (trace ++ [v])); [| |done].
    + split; [lia|]. split; [unfold len in *; rewrite length_app; simpl; lia|].
      split; [lia|]. split.
      * replace (Z.succ d - 1) with d by lia. intros k Hk%in_round_range.
        destruct (Hin k Hk) as (e & He & Hend & _). eauto.
      * intros d' Hd'. destruct (decide (d' = d)) as [->|]; [|apply Hnone; lia].
        intros Hr. pose proof (reach_in_round _ _ _ _ _ Hr) as Hk.
        destruct (Hin _ (proj2 (in_round_range _ _) Hk)) as (e & _ & (_ & _ & Hf & _) & Hnr).
        apply Hnr. assert (n self <= e) by (apply (Hf _ _ Hr); lia). lia.
    + intros k e. replace (Z.succ d - 1) with d by lia. apply Hem'.
Qed.

Lemma forward_search_matched trace D :
  forward_search self = Ok (Some (trace, D)) ->
  traced_matched a b trace D (n self - m self) (n self).
Proof using Hn Hm.
  unfold forward_search, range. intros Hs.
  assert (Hnm : 0 <= n self + m self) by (rewrite Hn, Hm; unfold len; lia).
  rewrite <- (Z2Nat.id (n self + m self + 1)) in Hs by lia.
  apply (search_matched (Z.to_nat (n self + m self + 1)) 0 {[1 := 0]} []); [| |done].
  - split; [done|]. split; [done|]. split; [done|]. split.
    + intros k (i & Hi & _). lia.
    + intros d' Hd' Hr%reach_nonneg. lia.
  - intros k e (i & Hi & _). lia.
Qed.
End ForwardMatched.

Lemma sound_path_good a b path : sound_path a b path -> good_path path.
Proof.
  induction 1 as [|p q rest Hstep _ IH]; constructor; [|done].
  destruct Hstep as [(Hlt & Heq & _)|He]; [left|by right]. split; lia.
Qed.

Section BacktrackSound.
Context (a b : list string).

Lemma descends_sound_diag c rpath x y :
  descends_sound a b c rpath x y -> matched a b (x - y) (x - 1) x ->
  descends_sound a b c ((x - 1, y - 1) :: rpath) (x - 1) (y - 1).
Proof.
  intros ((rest & ->) & Hs & Hl) Hm. split; [eauto|]. split; [|done].
  constructor; [|done]. left. repeat split; cbn [fst snd]; try lia.
  by replace (x - 1 - (y - 1)) with (x - y) by lia.
Qed.

Lemma descends_sound_left c rpath x y :
  descends_sound a b c rpath x y -> descends_sound a b c ((x - 1, y) :: rpath) (x - 1) y.
Proof.
  intros ((rest & ->) & Hs & Hl). split; [eauto|]. split; [|done].
  constructor; [|done]. right. right. split; cbn [fst snd]; lia.
Qed.

Lemma descends_sound_up c rpath x y :
  descends_sound a b c rpath x y -> descends_sound a b c ((x, y - 1) :: rpath) x (y - 1).
Proof.
  intros ((rest & ->) & Hs & Hl). split; [eauto|]. split; [|done].
  constructor; [|done]. right. left. split; cbn [fst snd]; lia.
Qed.

Lemma walk_back_sound c fuel x k px py s rpath :
  descends_sound a b c rpath x (x - k) -> s <= x -> matched a b k s x ->
  (forall x', s <= x' -> ((px <? x') && (py <? x' - k)) = (s <? x')) ->
  (Z.to_nat (x - s) < fuel)%nat ->
  exists rpath', walk_back fuel x (x - k) px py (reverse rpath) = Ok (s, s - k, reverse rpath') /\
                 descends_sound a b c rpath' s (s - k).
Proof.
  revert x rpath. induction fuel as [|fuel IH]; intros x rpath Hdesc Hs Hm Hcond Hfuel; [lia|].
  cbn [walk_back]. rewrite Hcond by done.
  destruct (Z.ltb_spec s x) as [Hlt|Hge].
  - destruct (IH (x - 1) ((x - 1, x - k - 1) :: rpath)) as (rpath' & Hw & Hd').
    + replace (x - 1 - k) with (x - k - 1) by lia. apply descends_sound_diag; [done|].
      replace (x - (x - k)) with k by lia. intros i Hi. apply Hm. lia.
    + lia.
    + intros i Hi. apply Hm. lia.
    + done.
    + lia.
    + exists rpath'. split; [|done]. rewrite <- Hw, reverse_cons.
      by replace (x - 1 - k) with (x - k - 1) by lia.
  - assert (x = s) as -> by lia. by exists rpath.
Qed.

Lemma backtrack_loop_sound c trace d k x :
  traced_matched a b trace d k x ->
  forall rpath, descends_sound a b c rpath x (x - k) ->
  exists rpath' e0,
    backtrack_loop (range_down d) trace x (x - k) (reverse rpath) = Ok (reverse rpath') /\
    descends_sound a b c rpath' e0 e0 /\ 0 <= e0 /\ matched a b 0 0 e0 /\ closed a b 0 e0.
Proof.
  induction 1 as [e He Hm0 Hc0|d k e v px Hd Hv Hpx _ IH Hle Hm]; intros rpath Hdesc.
  - exists rpath, e. rewrite Z.sub_0_r in Hdesc.
    split; [done|]. split; [done|]. by split.
  - rewrite range_down_cons by done. cbn -[walk_back range_down].
    rewrite (py_index_lookup trace d v ltac:(lia) Hv). cbn -[walk_back range_down].
    replace (e - (e - k)) with k by lia.
    fold (prev_diagonal d k v). unfold dict_item. rewrite Hpx. cbn -[walk_back range_down].
    set (s := if moves_down d k v then px else px + 1) in *.
    destruct (walk_back_sound c (S (Z.to_nat (e - px))) e k px
                (px - prev_diagonal d k v) s rpath) as (rpath1 & Hw & Hd1).
    + done.
    + done.
    + done.
    + intros x' Hx'. unfold prev_diagonal, s in *.
      destruct (moves_down d k v).
      * destruct (Z.ltb_spec px x'); destruct (Z.ltb_spec (px - (k + 1)) (x' - k)); simpl; lia.
      * destruct (Z.ltb_spec px x'); destruct (Z.ltb_spec (px - (k - 1)) (x' - k));
          destruct (Z.ltb_spec (px + 1) x'); simpl; lia.
    + unfold s in *. destruct (moves_down d k v); lia.
    + rewrite Hw. cbn -[walk_back range_down]. destruct (Z.ltb_spec 0 d); [|lia].
      unfold prev_diagonal, s in *. destruct (moves_down d k v).
      * destruct (Z.ltb_spec px px); [lia|].
        destruct (IH ((px, px - (k + 1)) :: rpath1)) as (rpath' & e0 & Hb & Hd' & He0).
        { replace (px - (k + 1)) with (px - k - 1) by lia. by apply descends_sound_up. }
        exists rpath', e0. by rewrite <- Hb, reverse_cons.
      * destruct (Z.ltb_spec px (px + 1)); [|lia].
        destruct (IH ((px, px - (k - 1)) :: rpath1)) as (rpath' & e0 & Hb & Hd' & He0).
        { apply descends_sound_left in Hd1.
          replace (px + 1 - 1) with px in Hd1 by lia.
          by replace (px + 1 - k) with (px - (k - 1)) in Hd1 by lia. }
        exists rpath', e0. rewrite <- Hb, reverse_cons.
        by replace (px + 1 - k) with (px - (k - 1)) by lia.
Qed.
End BacktrackSound.

(** The path of [_backtrack]: the origin, the point [(e0, e0)] at which
    round 0 stopped, where the two sequences first differ, and from there
    a sound path to the corner. *)
Lemma _backtrack_sound self trace d :
  traced_matched (processed_a self) (processed_b self) trace d (n self - m self) (n self) ->
  exists path, _backtrack self trace d = Ok path /\
    sound_path (processed_a self) (processed_b self) path /\
    head path = Some (0, 0) /\ last path = Some (n self, m self) /\
    exists e0 rest,
      path = (if e0 =? 0 then (e0, e0) :: rest else (0, 0) :: (e0, e0) :: rest) /\
      0 <= e0 /\ matched (processed_a self) (processed_b self) 0 0 e0 /\
      closed (processed_a self) (processed_b self) 0 e0 /\
      sound_path (processed_a self) (processed_b self) ((e0, e0) :: rest).
Proof.
  intros Htr. unfold _backtrack.
  destruct (backtrack_loop_sound _ _ (n self, m self) trace d _ _ Htr [(n self, m self)])
    as (rpath & e0 & Hb & ((rest & ->) & Hg & Hl) & He0 & Hm0 & Hc0).
  { replace (n self - (n self - m self)) with (m self) by lia.
    split; [eauto|]. split; [constructor|done]. }
  replace (n self - (n self - m self)) with (m self) in Hb by lia.
  change [(n self, m self)] with (reverse [(n self, m self)]).
  rewrite Hb. cbn [mbind result_bind]. rewrite reverse_involutive.
  set (path := if pair_eqb (e0, e0) (0, 0) then (e0, e0) :: rest else (0, 0) :: (e0, e0) :: rest).
  assert (Hshape : path = if e0 =? 0 then (e0, e0) :: rest else (0, 0) :: (e0, e0) :: rest).
  { unfold path, pair_eqb. cbn [fst snd]. by destruct (e0 =? 0). }
  assert (Hpath : sound_path (processed_a self) (processed_b self) path /\
                  head path = Some (0, 0) /\ last path = Some (n self, m self)).
  { unfold path, pair_eqb. cbn [fst snd].
    destruct (Z.eqb_spec e0 0) as [->|Hne]; cbn [andb].
    - by repeat split.
    - repeat split; auto.
      constructor; [|done]. left. repeat split; cbn [fst snd]; try lia.
      by rewrite Z.sub_0_r. }
  destruct Hpath as (Hg' & Hh & Hl'). clearbody path.
  pose proof Hl' as (front & Hfront)%last_Some.
  replace (py_index path (-1)) with (Ok (A:=Z * Z) (n self, m self))
    by (by rewrite Hfront, py_index_last).
  cbn [mbind result_bind mret result_ret]. unfold pair_eqb. cbn [fst snd].
  rewrite !Z.eqb_refl. exists path. repeat split; try done.
  by exists e0, rest.
Qed.

(** ** Equal operations span equal lines *)

Lemma equal_block_end_sound a b path fuel j j' xj yj :
  0 <= j -> path !! Z.to_nat j = Some (xj, yj) ->
  sound_path a b (drop (Z.to_nat j) path) ->
  equal_block_end fuel path j = Ok j' ->
  exists ex ey,
    j <= j' /\ path !! Z.to_nat j' = Some (ex, ey) /\ xj <= ex /\
    ex - xj = ey - yj /\ matched a b (xj - yj) xj ex /\
    sound_path a b (drop (Z.to_nat j') path).
Proof.
  revert j xj yj. induction fuel as [|fuel IH]; intros j xj yj Hj Hp Hs He; [done|].
  rewrite equal_block_end_S in He. revert He.
  destruct (Z.ltb_spec j (len path - 1)) as [Hlt|Hge]; intros He.
  - rewrite (py_index_lookup _ _ _ Hj Hp) in He. cbn [mbind result_bind] in He.
    destruct (py_index_in_range path (j + 1)) as ([xa ya] & Hq & Hq'); [lia|].
    rewrite Hq' in He. cbn [mbind result_bind] in He.
    replace (Z.to_nat (j + 1)) with (S (Z.to_nat j)) in * by lia.
    revert He.
    destruct (Z.eqb_spec xa (xj + 1)) as [->|Hne];
      [destruct (Z.eqb_spec ya (yj + 1)) as [->|Hne]|]; cbn [andb]; intros He.
    + rewrite (drop_two _ _ _ _ Hp Hq) in Hs. inversion Hs as [|? ? ? Hstep Hs']; subst.
      rewrite <- (drop_S _ _ _ Hq) in Hs'.
      destruct (IH (j + 1) (xj + 1) (yj + 1)) as (ex & ey & Hle & Hl & Hx & Hd & Hm & Hsj).
      * lia.
      * by replace (Z.to_nat (j + 1)) with (S (Z.to_nat j)) by lia.
      * by replace (Z.to_nat (j + 1)) with (S (Z.to_nat j)) by lia.
      * done.
      * exists ex, ey. repeat split; auto; try lia.
        destruct Hstep as [(_ & _ & Hm1)|[[? ?]|[? ?]]]; cbn [fst snd] in *; [|lia..].
        apply (matched_join _ _ _ _ (xj + 1)); [done|].
        by replace (xj - yj) with (xj + 1 - (yj + 1)) by lia.
    + injection He as <-. exists xj, yj. repeat split; auto; try lia. apply matched_empty.
    + injection He as <-. exists xj, yj. repeat split; auto; try lia. apply matched_empty.
  - injection He as <-. exists xj, yj. repeat split; auto; try lia. apply matched_empty.
Qed.

Section BuilderSound.
Context (self : MyersDiff).

#[local] Abbreviation a := (processed_a self).
#[local] Abbreviation b := (processed_b self).

(** Every Equal operation that the loop appends spans equal lines of the
    two processed sequences. *)
Lemma build_loop_equal path fuel i results out x y :
  0 <= i -> path !! Z.to_nat i = Some (x, y) -> 0 <= x -> 0 <= y ->
  sound_path a b (drop (Z.to_nat i) path) ->
  Forall (equal_ok a b) results ->
  build_loop self fuel path i results = Ok out ->
  Forall (equal_ok a b) out.
Proof.
  revert i results x y.
  induction fuel as [|fuel IH]; intros i results x y Hi Hp Hx Hy Hs Hres Hb; [done|].
  rewrite build_loop_S in Hb.
  revert Hb. destruct (Z.ltb_spec i (len path - 1)) as [Hlt|Hge]; intros Hb;
    [|by injection Hb as <-].
  rewrite (py_index_lookup _ _ _ Hi Hp) in Hb. cbn [mbind result_bind] in Hb.
  destruct (py_index_in_range path (i + 1)) as ([x2 y2] & Hq & Hq'); [lia|].
  rewrite Hq' in Hb. cbn [mbind result_bind] in Hb.
  replace (Z.to_nat (i + 1)) with (S (Z.to_nat i)) in Hq by lia.
  rewrite (drop_two _ _ _ _ Hp Hq) in Hs. inversion Hs as [|? ? ? Hstep Hs']; subst.
  rewrite <- (drop_S _ _ _ Hq) in Hs'.
  assert (Hnext : Z.to_nat (i + 1) = S (Z.to_nat i)) by lia.
  destruct Hstep as [(Hdx & Hdd & Hm1)|[[Hdx Hdy]|[Hdx Hdy]]]; cbn [fst snd] in *.
  - revert Hb. destruct (Z.ltb_spec x x2); [|lia]. destruct (Z.ltb_spec y y2); [|lia].
    cbn [andb]. intros Hb.
    destruct (equal_block_end (S (Z.to_nat (len path - (i + 1)))) path (i + 1))
      as [j| |] eqn:Hj; [|done..].
    cbn [mbind result_bind] in Hb.
    destruct (equal_block_end_sound a b path (S (Z.to_nat (len path - (i + 1)))) (i + 1) j x2 y2)
      as (ex & ey & Hle & Hl & Hex & Hd & Hm2 & Hsj); [lia|by rewrite Hnext|by rewrite Hnext|done|].
    rewrite (py_index_lookup path j (ex, ey) ltac:(lia) Hl) in Hb.
    cbn [mbind result_bind] in Hb.
    apply (IH j _ ex ey) in Hb; [done|lia|done|lia|lia|done|].
    apply Forall_app. split; [done|]. constructor; [|done].
    intros _. cbn.
    replace (x + (ex - x)) with ex by lia. replace (y + (ey - y)) with ey by lia.
    split; [lia|]. split; [lia|].
    assert (Hm : matched a b (x - y) x ex).
    { apply (matched_join _ _ _ _ x2); [done|]. by replace (x - y) with (x2 - y2) by lia. }
    rewrite (matched_slices a b (x - y) x ex Hm) by lia.
    f_equal; lia.
  - subst x2 y2. revert Hb.
    destruct (Z.ltb_spec x x); [lia|]. destruct (Z.eqb_spec x x); [|lia].
    destruct (Z.ltb_spec y (y + 1)); [|lia]. cbn [andb]. intros Hb.
    apply (IH (i + 1) _ x (y + 1)) in Hb; [done|lia|by rewrite Hnext|lia|lia|by rewrite Hnext|].
    apply Forall_app. split; [done|]. constructor; [|done]. by intros [=].
  - subst x2 y2. revert Hb.
    destruct (Z.ltb_spec x (x + 1)); [|lia]. destruct (Z.ltb_spec y y); [lia|].
    destruct (Z.eqb_spec (x + 1) x); [lia|]. destruct (Z.eqb_spec y y); [|lia].
    cbn [andb]. intros Hb.
    apply (IH (i + 1) _ (x + 1) y) in Hb; [done|lia|by rewrite Hnext|lia|lia|by rewrite Hnext|].
    apply Forall_app. split; [done|]. constructor; [|done]. by intros [=].
Qed.
End BuilderSound.

Lemma merge_equal_ok a b k :
  forall ops, (length ops <= k)%nat -> Forall (equal_ok a b) ops ->
  Forall (equal_ok a b) (_merge_replace_operations ops).
Proof.
  induction k as [|k IH]; intros ops Hlen Hops.
  { destruct ops; [done|simpl in Hlen; lia]. }
  destruct ops as [|r [|r' rest]]; [done|done|].
  rewrite merge_cons_cons.
  inversion Hops as [|? ? Hr Hops']; subst. inversion Hops' as [|? ? Hr' Hrest]; subst.
  destruct (bool_decide (type r = DELETE) && bool_decide (type r' = INSERT)).
  - constructor; [by intros [=]|]. apply IH; [simpl in Hlen; lia|done].
  - constructor; [done|]. apply IH; [simpl in *; lia|done].
Qed.

(** ** [compute], with the lines *)

Section ComputeSound.
Context (self : MyersDiff).
Hypothesis Hn : n self = len (processed_a self).
Hypothesis Hm : m self = len (processed_b self).

Lemma find_shortest_edit_script_sound :
  exists path D,
    _find_shortest_edit_script self = Ok path /\
    sound_path (processed_a self) (processed_b self) path /\
    head path = Some (0, 0) /\ last path = Some (n self, m self) /\
    edits path = D /\
    reach (processed_a self) (processed_b self) D (n self) (m self) /\
    (forall d, reach (processed_a self) (processed_b self) d (n self) (m self) -> D <= d).
Proof using Hn Hm.
  destruct (forward_search_ok self Hn Hm) as (trace & D & Hfs & HD & Hr & Hmin & Htr).
  destruct (_backtrack_spec self trace D Htr) as (path & Hbt & _ & _ & _ & He).
  pose proof (forward_search_matched self Hn Hm trace D Hfs) as Htm.
  destruct (_backtrack_sound self trace D Htm) as (path' & Hbt' & Hs & Hh & Hl & _).
  rewrite Hbt in Hbt'. injection Hbt' as <-.
  exists path, D. split; [|done].
  unfold _find_shortest_edit_script. by rewrite Hfs.
Qed.

Lemma compute_sound :
  exists ops,
    compute self = Ok ops /\
    chain (seq_a self) (seq_b self) 0 0 ops (n self) (m self) /\
    Forall (equal_ok (processed_a self) (processed_b self)) ops /\
    no_delete_insert ops /\
    reach (processed_a self) (processed_b self) (edit_units ops) (n self) (m self) /\
    (forall d, reach (processed_a self) (processed_b self) d (n self) (m self) ->
       edit_units ops <= d).
Proof using Hn Hm.
  destruct (compute_spec self Hn Hm)
    as (ops & D & _ & path & _ & _ & Hfind & Hc & Hch & Hnd & Hunits & _ & Hr & Hmin).
  destruct find_shortest_edit_script_sound as (path' & _ & Hfind' & Hs & Hh & _).
  rewrite Hfind in Hfind'. injection Hfind' as <-.
  exists ops. rewrite Hunits. repeat split; auto.
  pose proof Hc as Hc'. unfold compute, _build_diff_results in Hc'.
  rewrite Hfind in Hc'. cbn [mbind result_bind] in Hc'.
  destruct (build_loop self (S (Z.to_nat (len path))) path 0 []) as [raw| |] eqn:Hraw;
    [|done..].
  cbn [mbind result_bind] in Hc'. injection Hc' as <-.
  apply (merge_equal_ok _ _ (length raw)); [done|].
  rewrite head_lookup in Hh.
  by apply (build_loop_equal self path (S (Z.to_nat (len path))) 0 [] raw 0 0).
Qed.
End ComputeSound.

Lemma preprocess_sequence_length_le icase iws iblank seq :
  (length (_preprocess_sequence icase iws iblank seq) <= length seq)%nat.
Proof.
  induction seq as [|line seq IH]; [done|]. cbn [_preprocess_sequence].
  destruct (iblank && is_empty (strip line)); simpl; lia.
Qed.

Lemma py_slice_length {A} (l : list A) (x c : Z) :
  0 <= x -> 0 <= c -> x + c <= len l -> len (py_slice l x (x + c)) = c.
Proof.
  intros Hx Hc Hle. rewrite py_slice_nonneg by lia. unfold len in *.
  rewrite length_take, length_drop. lia.
Qed.

Section EngineSound.
Context {regex : Regex} {difflib : Difflib}.

Lemma compare_lines_sound (options : Options) (A B : list string) :
  exists ops,
    compare_lines options A B = Ok ops /\
    compute (engine_differ options A B) = Ok ops /\
    chain (_preprocess_lines options A) (_preprocess_lines options B) 0 0 ops
      (len (processed_a (engine_differ options A B)))
      (len (processed_b (engine_differ options A B))) /\
    Forall (equal_ok (processed_a (engine_differ options A B))
                     (processed_b (engine_differ options A B))) ops /\
    no_delete_insert ops /\
    reach (processed_a (engine_differ options A B)) (processed_b (engine_differ options A B))
      (edit_units ops)
      (len (processed_a (engine_differ options A B)))
      (len (processed_b (engine_differ options A B))) /\
    (forall d,
       reach (processed_a (engine_differ options A B)) (processed_b (engine_differ options A B))
         d (len (processed_a (engine_differ options A B)))
         (len (processed_b (engine_differ options A B))) ->
       edit_units ops <= d).
Proof.
  destruct (compute_sound (engine_differ options A B) eq_refl eq_refl)
    as (ops & Hc & Hch & Heq & Hnd & Hr & Hmin).
  exists ops. split; [by apply compare_lines_compute|]. by repeat split.
Qed.
End EngineSound.

(** ** The returned operations, for every option *)

Lemma sublist_same_length {A} (l1 l2 : list A) :
  l1 `sublist_of` l2 -> length l1 = length l2 -> l1 = l2.
Proof.
  induction 1 as [|x l1 l2 Hs IH|x l1 l2 Hs IH]; intros Hlen; [done|..].
  - simpl in Hlen. f_equal. apply IH. lia.
  - apply sublist_length in Hs. simpl in Hlen. lia.
Qed.

Lemma is_lcs_length_unique a b L L' :
  is_lcs_length a b L -> is_lcs_length a b L' -> L = L'.
Proof.
  intros [(s & Hsa & Hsb & Hs) Hmax] [(s' & Hsa' & Hsb' & Hs') Hmax'].
  pose proof (Hmax s' Hsa' Hsb'). pose proof (Hmax' s Hsa Hsb). lia.
Qed.

Lemma is_lcs_length_sym a b L : is_lcs_length a b L -> is_lcs_length b a L.
Proof.
  intros [(s & Hsa & Hsb & Hs) Hmax]. split; [by exists s|].
  intros s' Hb Ha. by apply Hmax.
Qed.

Lemma reach_zero_same a b : reach a b 0 (len a) (len b) -> a = b.
Proof.
  intros Hr.
  destruct (reach_common_subseq _ _ _ _ _ Hr) as (s & Hsa & Hsb & Hlen); [lia..|].
  unfold len in Hsa, Hsb. rewrite Nat2Z.id, take_ge in Hsa, Hsb by lia.
  pose proof (sublist_length _ _ Hsa). pose proof (sublist_length _ _ Hsb).
  unfold len in Hlen.
  rewrite <- (sublist_same_length s a), <- (sublist_same_length s b); auto; lia.
Qed.

Lemma edit_units_all_equal ops :
  Forall (fun r => type r = EQUAL) ops -> edit_units ops = 0.
Proof.
  induction 1 as [|r ops Hr _ IH]; [done|].
  rewrite edit_units_cons, IH. unfold edit_units_of. by rewrite Hr.
Qed.

Lemma op_equal_shape a b a' b' r : op_ok a b r -> equal_ok a' b' r -> shape_ok r.
Proof.
  intros (_ & _ & _ & _ & Hol & Hnl & HI & HD & HR) He. unfold shape_ok.
  destruct (type r) eqn:Hty.
  - destruct (He Hty) as (? & ? & _). lia.
  - destruct (HI eq_refl) as [H0 H1]. rewrite H0, Z.add_0_r, py_slice_empty in Hol. done.
  - destruct (HD eq_refl) as [H0 H1]. rewrite H0, Z.add_0_r, py_slice_empty in Hnl. done.
  - by apply HR.
Qed.

Section EngineOperations.
Context {regex : Regex} {difflib : Difflib}.

(** X1. For all line lists and all options, every Equal operation that
    [compare_lines] returns spans the same positive number of lines on
    both sides, and the lines it spans in the two compared (normalised)
    sequences are the same lines. *)
Theorem compare_lines_equal_sound (options : Options) (A B : list string) :
  exists ops,
    compare_lines options A B = Ok ops /\
    Forall (equal_ok (processed_a (engine_differ options A B))
                     (processed_b (engine_differ options A B))) ops.
Proof.
  destruct (compare_lines_sound options A B) as (ops & Hc & _ & _ & He & _).
  by exists ops.
Qed.

(** X2. With none of [ignore_case], [ignore_whitespace] and
    [ignore_blank_lines] set, whatever the other options are, the
    [old_lines] and the [new_lines] of every Equal operation that
    [compare_lines] returns are the same non-empty list. *)
Theorem compare_lines_equal_lines (options : Options) (A B : list string) :
  opt_ignore_case options = false ->
  opt_ignore_whitespace options = false ->
  opt_ignore_blank_lines options = false ->
  exists ops,
    compare_lines options A B = Ok ops /\
    Forall (fun r => type r = EQUAL -> old_lines r = new_lines r /\ old_lines r <> []) ops.
Proof.
  intros Hic Hiw Hib.
  destruct (compare_lines_sound options A B) as (ops & Hc & _ & Hch & He & _).
  exists ops. split; [done|].
  apply chain_ops_ok in Hch.
  cbn [engine_differ MyersDiff_init seq_a seq_b n m processed_a processed_b] in He.
  rewrite Hic, Hiw, Hib, !preprocess_sequence_off in He.
  rewrite Forall_forall in Hch, He. apply Forall_forall. intros r Hr Hty.
  destruct (Hch r Hr) as (Hos & Hns & Hoc & Hnc & Hol & Hnl & _).
  destruct (He r Hr Hty) as (Hpos & Hcnt & Hsl).
  rewrite Hol, Hnl. split; [done|].
  intros Hnil. rewrite <- Hol in Hnil.
  pose proof (f_equal (fun l : list string => len l) Hsl) as Hlen. simpl in Hlen.
  rewrite <- Hol in Hsl.
  assert (Hin : old_start r + old_count r <=
                len (_preprocess_lines options A)).
  { destruct (compare_lines_sound options A B) as (ops' & Hc' & _ & Hch' & _).
    rewrite Hc in Hc'. injection Hc' as <-.
    apply chain_within in Hch'. unfold within in Hch'. rewrite Forall_forall in Hch'.
    destruct (Hch' r Hr) as [Hle _].
    cbn [engine_differ MyersDiff_init seq_a seq_b n m processed_a processed_b] in Hle.
    by rewrite Hic, Hiw, Hib, !preprocess_sequence_off in Hle. }
  pose proof (py_slice_length (_preprocess_lines options A) (old_start r) (old_count r)
                Hos Hoc Hin) as Hl.
  rewrite <- Hol, Hnil in Hl. unfold len in Hl. simpl in Hl. lia.
Qed.

(** X3. For all line lists and all options, every operation that
    [compare_lines] returns has the shape of its kind: an Insert spans
    no old line and one new line, a Delete one old line and no new line,
    a Replace one line on each side, and an Equal the same positive
    number of lines on both sides. *)
Theorem compare_lines_shapes (options : Options) (A B : list string) :
  exists ops, compare_lines options A B = Ok ops /\ Forall shape_ok ops.
Proof.
  destruct (compare_lines_sound options A B) as (ops & Hc & _ & Hch & He & _).
  exists ops. split; [done|].
  apply chain_ops_ok in Hch. rewrite Forall_forall in Hch, He.
  apply Forall_forall. intros r Hr. by eapply op_equal_shape; [apply Hch|apply He].
Qed.

(** X4. For all line lists and all options, the [old_lines] and
    [new_lines] of every returned operation hold as many lines as its
    [old_count] and [new_count] say, also when a filter has removed
    lines. *)
Theorem compare_lines_counts (options : Options) (A B : list string) :
  exists ops, compare_lines options A B = Ok ops /\ Forall counts_lines ops.
Proof.
  destruct (compare_lines_sound options A B) as (ops & Hc & _ & Hch & _).
  exists ops. split; [done|].
  pose proof (chain_ops_ok _ _ _ _ _ _ _ Hch) as Hok.
  apply chain_within in Hch. unfold within in Hch.
  rewrite Forall_forall in Hch, Hok. apply Forall_forall. intros r Hr.
  destruct (Hok r Hr) as (Hos & Hns & Hoc & Hnc & Hol & Hnl & _).
  destruct (Hch r Hr) as [Hle1 Hle2].
  cbn [engine_differ MyersDiff_init seq_a seq_b n m processed_a processed_b] in Hle1, Hle2.
  pose proof (preprocess_sequence_length_le (opt_ignore_case options)
    (opt_ignore_whitespace options) (opt_ignore_blank_lines options)
    (_preprocess_lines options A)).
  pose proof (preprocess_sequence_length_le (opt_ignore_case options)
    (opt_ignore_whitespace options) (opt_ignore_blank_lines options)
    (_preprocess_lines options B)).
  unfold counts_lines. rewrite Hol, Hnl.
  split; apply py_slice_length; unfold len in *; lia.
Qed.

(** X5. For all line lists and all options, no Delete is directly
    followed by an Insert in what [compare_lines] returns: every such
    pair has become a Replace. *)
Theorem compare_lines_no_delete_insert (options : Options) (A B : list string) :
  exists ops, compare_lines options A B = Ok ops /\ no_delete_insert ops.
Proof.
  destruct (compare_lines_sound options A B) as (ops & Hc & _ & _ & _ & Hnd & _).
  by exists ops.
Qed.

(** X6. The options [fuzzy_matching] and [moving_block_detection] have no
    effect: for all line lists and all options, [compare_lines] returns
    what it returns with both switched off, whatever the similarity
    ratio of the library is. *)
Theorem compare_lines_post_processing_inert (options : Options) (A B : list string) :
  compare_lines options A B = compare_lines (without_post_processing options) A B.
Proof.
  destruct (compare_lines_sound options A B) as (ops & Hc & Hcomp & _ & _ & Hnd & _).
  rewrite Hc. symmetry. apply compare_lines_compute; [|done].
  by destruct options.
Qed.

(** X7. For all line lists and all options, every operation that
    [compare_lines] returns is an Equal if and only if the two compared
    (normalised) sequences are the same. *)
Theorem compare_lines_all_equal (options : Options) (A B : list string) :
  exists ops,
    compare_lines options A B = Ok ops /\
    (Forall (fun r => type r = EQUAL) ops <->
     processed_a (engine_differ options A B) = processed_b (engine_differ options A B)).
Proof.
  destruct (compare_lines_sound options A B) as (ops & Hc & Hcomp & _ & _ & _ & Hr & _).
  exists ops. split; [done|]. split.
  - intros Hall. rewrite (edit_units_all_equal _ Hall) in Hr. by apply reach_zero_same.
  - intros Hsame.
    rewrite (compute_same (engine_differ options A B) eq_refl eq_refl Hsame) in Hcomp.
    destruct (n (engine_differ options A B) =? 0); injection Hcomp as <-;
      [constructor|by constructor].
Qed.

End EngineOperations.

(** The theorem on equal operations at the lines ["a", "b"] and
    ["a", "c"], compared with no options. *)
Lemma compare_lines_equal_lines_witness :
  opt_ignore_case no_options = false /\
  opt_ignore_whitespace no_options = false /\
  opt_ignore_blank_lines no_options = false /\
  exists ops,
    compare_lines (regex := null_regex) (difflib := null_difflib) no_options
      ["a"; "b"]%string ["a"; "c"]%string = Ok ops /\
    Forall (fun r => type r = EQUAL -> old_lines r = new_lines r /\ old_lines r <> []) ops.
Proof.
  split; [reflexivity|]. split; [reflexivity|]. split; [reflexivity|].
  apply (compare_lines_equal_lines (regex := null_regex) (difflib := null_difflib)
           no_options ["a"; "b"]%string ["a"; "c"]%string); reflexivity.
Defined.

(** ** One side empty *)

Lemma py_slice_one {A} (l : list A) (i : Z) (x : A) :
  0 <= i -> l !! Z.to_nat i = Some x -> py_slice l i (i + 1) = [x].
Proof.
  intros Hi Hx. rewrite (py_slice_cons l i (i + 1) x) by (done || lia).
  by rewrite py_slice_empty.
Qed.

Lemma chain_all_deletes a :
  forall ops x, 0 <= x -> chain a [] x 0 ops (len a) 0 -> Forall (equal_ok a []) ops ->
  ops = (fun i => mkDiffResult DELETE i 1 0 0 (py_slice a i (i + 1)) []) <$> seqZ x (len a - x).
Proof.
  induction ops as [|r ops IH]; intros x Hx Hch He.
  - inversion Hch; subst. by rewrite Z.sub_diag.
  - inversion Hch as [|? ? ? ? ? ? Hok Hos Hns Hch']; subst.
    apply Forall_cons in He as [Her He].
    pose proof (chain_le _ _ _ _ _ _ _ Hch') as [Hle1 Hle2].
    destruct Hok as (_ & _ & Hoc & Hnc & Hol & Hnl & HI & HD & HR).
    assert (Hnc0 : new_count r = 0) by lia.
    assert (Hty : type r = DELETE).
    { destruct (type r) eqn:Hty; [| |done|].
      - destruct (Her Hty) as (? & ? & _). lia.
      - destruct (HI eq_refl). lia.
      - destruct (HR eq_refl). lia. }
    destruct (HD Hty) as [_ Hoc1].
    rewrite Hnc0, Hoc1 in Hch'. change (0 + 0) with 0 in Hch'.
    rewrite seqZ_cons by lia. rewrite fmap_cons. f_equal.
    + destruct r as [ty os oc ns nc ol nl]. simpl in *. subst.
      by rewrite py_slice_empty.
    + rewrite (IH (old_start r + 1)); [|lia|done|done].
      by replace (Z.pred (len a - old_start r)) with (len a - (old_start r + 1)) by lia.
Qed.

Lemma chain_all_inserts b :
  forall ops y, 0 <= y -> chain [] b 0 y ops 0 (len b) -> Forall (equal_ok [] b) ops ->
  ops = (fun j => mkDiffResult INSERT 0 0 j 1 [] (py_slice b j (j + 1))) <$> seqZ y (len b - y).
Proof.
  induction ops as [|r ops IH]; intros y Hy Hch He.
  - inversion Hch; subst. by rewrite Z.sub_diag.
  - inversion Hch as [|? ? ? ? ? ? Hok Hos Hns Hch']; subst.
    apply Forall_cons in He as [Her He].
    pose proof (chain_le _ _ _ _ _ _ _ Hch') as [Hle1 Hle2].
    destruct Hok as (_ & _ & Hoc & Hnc & Hol & Hnl & HI & HD & HR).
    assert (Hoc0 : old_count r = 0) by lia.
    assert (Hty : type r = INSERT).
    { destruct (type r) eqn:Hty; [|done| |].
      - destruct (Her Hty) as (? & ? & _). lia.
      - destruct (HD eq_refl). lia.
      - destruct (HR eq_refl). lia. }
    destruct (HI Hty) as [_ Hnc1].
    rewrite Hoc0, Hnc1 in Hch'. change (0 + 0) with 0 in Hch'.
    rewrite seqZ_cons by lia. rewrite fmap_cons. f_equal.
    + destruct r as [ty os oc ns nc ol nl]. simpl in *. subst.
      by rewrite py_slice_empty.
    + rewrite (IH (new_start r + 1)); [|lia|done|done].
      by replace (Z.pred (len b - new_start r)) with (len b - (new_start r + 1)) by lia.
Qed.

Lemma fmap_seqZ_imap {A B} (f : Z -> list A -> B) (l : list A) :
  (fun i => f i (py_slice l i (i + 1))) <$> seqZ 0 (len l)
  = imap (fun i x => f (Z.of_nat i) [x]) l.
Proof.
  apply list_eq. intros i. rewrite list_lookup_fmap, list_lookup_imap.
  destruct (l !! i) as [x|] eqn:Hx.
  - apply lookup_lt_Some in Hx as Hlt.
    rewrite lookup_seqZ_lt by (unfold len; lia). simpl.
    rewrite Z.add_0_l. rewrite (py_slice_one l (Z.of_nat i) x); [done|lia|].
    by rewrite Nat2Z.id.
  - apply lookup_ge_None in Hx.
    by rewrite lookup_seqZ_ge by (unfold len; lia).
Qed.

Section AgainstEmpty.
Context {regex : Regex} {difflib : Difflib}.

(** X8. Against an empty list, with no options: [compare_lines(A, [])]
    is one Delete for each line of [A], in order, and
    [compare_lines([], B)] is one Insert for each line of [B], in order,
    all at old position 0. Runs of deletions or of insertions are never
    joined into one operation. *)
Theorem compare_lines_against_empty (A B : list string) :
  compare_lines no_options A [] = Ok (deletions_of A) /\
  compare_lines no_options [] B = Ok (insertions_of B).
Proof.
  split.
  - destruct (compare_lines_sound no_options A []) as (ops & Hc & _ & Hch & He & _).
    rewrite Hc. f_equal.
    cbn [engine_differ MyersDiff_init seq_a seq_b n m processed_a processed_b
         opt_ignore_case opt_ignore_whitespace opt_ignore_blank_lines no_options] in Hch, He.
    rewrite !preprocess_sequence_off, !preprocess_lines_off in Hch, He.
    rewrite (chain_all_deletes A ops 0); [|lia|done|done].
    rewrite Z.sub_0_r.
    apply (fmap_seqZ_imap (fun i l => mkDiffResult DELETE i 1 0 0 l [])).
  - destruct (compare_lines_sound no_options [] B) as (ops & Hc & _ & Hch & He & _).
    rewrite Hc. f_equal.
    cbn [engine_differ MyersDiff_init seq_a seq_b n m processed_a processed_b
         opt_ignore_case opt_ignore_whitespace opt_ignore_blank_lines no_options] in Hch, He.
    rewrite !preprocess_sequence_off, !preprocess_lines_off in Hch, He.
    rewrite (chain_all_inserts B ops 0); [|lia|done|done].
    rewrite Z.sub_0_r.
    apply (fmap_seqZ_imap (fun j l => mkDiffResult INSERT 0 0 j 1 [] l)).
Qed.
End AgainstEmpty.

(** ** The edit path *)

(** X9. For all sequences and flags, [_find_shortest_edit_script]
    returns a path that starts at (0, 0), ends at (N, M), and whose
    every step is either one edit (one down or one right) or a diagonal
    run over lines that are the same in the two normalised sequences;
    the number of its edits is [N + M - 2 L] for the length [L] of a
    longest common subsequence. *)
Theorem find_shortest_edit_script_path (A B : list string) (icase iws iblank : bool) :
  let self := MyersDiff_init A B icase iws iblank in
  exists path (L : nat),
    _find_shortest_edit_script self = Ok path /\
    head path = Some (0, 0) /\ last path = Some (n self, m self) /\
    sound_path (processed_a self) (processed_b self) path /\
    is_lcs_length (processed_a self) (processed_b self) L /\
    edits path = n self + m self - 2 * Z.of_nat L.
Proof.
  intros self.
  destruct (find_shortest_edit_script_sound self eq_refl eq_refl)
    as (path & D & Hf & Hs & Hh & Hl & He & Hr & Hmin).
  destruct (shortest_is_lcs _ _ D Hr Hmin) as (L & HL & HD).
  exists path, L. repeat split; try done; try apply HL. by rewrite He.
Qed.

(** X10. Swapping the two sequences does not change the number of
    changed line units: for all sequences and flags, [myers_diff(A, B)]
    and [myers_diff(B, A)] have the same number of edit units. *)
Theorem myers_diff_symmetric (A B : list string) (icase iws iblank : bool) :
  exists ops ops',
    myers_diff A B icase iws iblank = Ok ops /\
    myers_diff B A icase iws iblank = Ok ops' /\
    edit_units ops = edit_units ops'.
Proof.
  destruct (compute_sound (MyersDiff_init A B icase iws iblank) eq_refl eq_refl)
    as (ops & Hc & _ & _ & _ & Hr & Hmin).
  destruct (compute_sound (MyersDiff_init B A icase iws iblank) eq_refl eq_refl)
    as (ops' & Hc' & _ & _ & _ & Hr' & Hmin').
  exists ops, ops'. split; [done|]. split; [done|].
  destruct (shortest_is_lcs _ _ _ Hr Hmin) as (L & HL & HD).
  destruct (shortest_is_lcs _ _ _ Hr' Hmin') as (L' & HL' & HD').
  cbn [MyersDiff_init seq_a seq_b n m processed_a processed_b] in *.
  apply is_lcs_length_sym in HL'.
  rewrite (is_lcs_length_unique _ _ _ _ HL HL') in HD. lia.
Qed.

(** ** [_merge_replace_operations] on any list *)

Lemma merge_general k :
  forall ops, (length ops <= k)%nat ->
  no_delete_insert (_merge_replace_operations ops) /\
  edit_units (_merge_replace_operations ops) = edit_units ops /\
  (length (_merge_replace_operations ops) <= length ops)%nat.
Proof.
  induction k as [|k IH]; intros ops Hlen.
  { by destruct ops; [|simpl in Hlen; lia]. }
  destruct ops as [|r [|r' rest]]; [done|done|].
  rewrite merge_cons_cons.
  destruct (bool_decide_reflect (type r = DELETE)) as [HD|HD]; simpl;
    [destruct (bool_decide_reflect (type r' = INSERT)) as [HI|HI]; simpl|].
  - destruct (IH rest ltac:(simpl in Hlen; lia)) as (IHn & IHu & IHl).
    split; [|split].
    + apply (no_delete_insert_cons
               (mkDiffResult REPLACE (old_start r) (old_count r) (new_start r')
                  (new_count r') (old_lines r) (new_lines r'))); [|done].
      simpl. by intros h _ [? _].
    + simpl. rewrite IHu. unfold edit_units_of. simpl. rewrite HD, HI. lia.
    + lia.
  - destruct (IH (r' :: rest) ltac:(simpl in *; lia)) as (IHn & IHu & IHl).
    split; [|split].
    + apply (no_delete_insert_cons r (_merge_replace_operations (r' :: rest))); [|done].
      intros h Hh [_ Hins].
      destruct (merge_head_insert (r' :: rest) h Hh Hins) as (r0 & Hr0 & Hty).
      simpl in Hr0. injection Hr0 as <-. done.
    + simpl in *. lia.
    + simpl in *. lia.
  - destruct (IH (r' :: rest) ltac:(simpl in *; lia)) as (IHn & IHu & IHl).
    split; [|split].
    + apply (no_delete_insert_cons r (_merge_replace_operations (r' :: rest))); [|done].
      by intros h _ [? _].
    + simpl in *. lia.
    + simpl in *. lia.
Qed.

Lemma merge_fixed ops :
  no_delete_insert ops -> _merge_replace_operations ops = ops.
Proof.
  induction ops as [|r ops IH]; [done|].
  destruct ops as [|r' rest]; [done|]. intros [Hno Hrest].
  rewrite merge_cons_cons.
  destruct (bool_decide_reflect (type r = DELETE)) as [HD|HD];
    [destruct (bool_decide_reflect (type r' = INSERT)) as [HI|HI]|]; cbn [andb].
  - by destruct Hno.
  - by rewrite IH.
  - by rewrite IH.
Qed.

(** X11. For every list of operations, also one that no diff produces:
    after [_merge_replace_operations] no Delete is directly followed by
    an Insert, and merging a second time changes nothing. *)
Theorem merge_replace_operations_idempotent (ops : list DiffResult) :
  no_delete_insert (_merge_replace_operations ops) /\
  _merge_replace_operations (_merge_replace_operations ops) = _merge_replace_operations ops.
Proof.
  destruct (merge_general (length ops) ops (le_n _)) as (Hn & _).
  split; [done|]. by apply merge_fixed.
Qed.

(** X12. For every list of operations, [_merge_replace_operations]
    keeps the number of changed line units (a Replace counts the old
    lines of its Delete and the new lines of its Insert) and never
    makes the list longer. *)
Theorem merge_replace_operations_units (ops : list DiffResult) :
  edit_units (_merge_replace_operations ops) = edit_units ops /\
  (length (_merge_replace_operations ops) <= length ops)%nat.
Proof.
  by destruct (merge_general (length ops) ops (le_n _)) as (_ & Hu & Hl).
Qed.

(** ** The change map and the merge loop *)

Lemma build_change_map_snoc ops r :
  _build_change_map (ops ++ [r]) =
  if bool_decide (type r <> EQUAL)
  then <[old_start r := change_of r]> (_build_change_map ops)
  else _build_change_map ops.
Proof. unfold _build_change_map. by rewrite foldl_snoc. Qed.

(** X13. [_build_change_map] keeps, under each key, the last operation
    other than an Equal that starts at that old position, and nothing
    under a key at which no such operation starts: of two insertions
    before the same line only the second is kept. *)
Theorem build_change_map_lookup (ops : list DiffResult) (i : Z) :
  _build_change_map ops !! i = change_of <$> last (changes_at i ops).
Proof.
  induction ops as [|r ops IH] using rev_ind; [done|].
  rewrite build_change_map_snoc. unfold changes_at in *. rewrite filter_app.
  destruct (bool_decide_reflect (type r <> EQUAL)) as [Hty|Hty].
  - destruct (decide (old_start r = i)) as [<-|Hne].
    + rewrite lookup_insert_eq.
      rewrite filter_cons_True by done. by rewrite filter_nil, last_snoc.
    + rewrite lookup_insert_ne by done.
      rewrite filter_cons_False by (by intros [_ ?]).
      by rewrite filter_nil, app_nil_r.
  - rewrite filter_cons_False by (by intros [? _]).
    by rewrite filter_nil, app_nil_r.
Qed.

Lemma build_change_map_values ops i c :
  _build_change_map ops !! i = Some c ->
  exists r, r ∈ ops /\ type r <> EQUAL /\ old_start r = i /\ c = change_of r.
Proof.
  induction ops as [|r ops IH] using rev_ind; [done|].
  rewrite build_change_map_snoc.
  destruct (bool_decide_reflect (type r <> EQUAL)) as [Hty|Hty].
  - destruct (decide (old_start r = i)) as [<-|Hne].
    + rewrite lookup_insert_eq. intros [= <-]. exists r.
      split; [apply elem_of_app; right; by apply list_elem_of_singleton|done].
    + rewrite lookup_insert_ne by done. intros Hl.
      destruct (IH Hl) as (r0 & Hin & ?). exists r0. split; [|done].
      apply elem_of_app. by left.
  - intros Hl. destruct (IH Hl) as (r0 & Hin & ?). exists r0. split; [|done].
    apply elem_of_app. by left.
Qed.

Lemma build_change_map_all_equal ops :
  Forall (fun r => type r = EQUAL) ops -> _build_change_map ops = ∅.
Proof.
  induction ops as [|r ops IH] using rev_ind; [done|].
  intros Hall. apply Forall_app in Hall as [Hops Hr].
  rewrite Forall_singleton in Hr.
  rewrite build_change_map_snoc.
  destruct (bool_decide_reflect (type r <> EQUAL)) as [Hty|Hty]; [done|by apply IH].
Qed.

Lemma merge_loop_unfold fuel base yc tc i merged conflicts :
  merge_loop fuel base yc tc i merged conflicts =
  if i <? len base
  then match fuel with
       | O => OutOfFuel
       | S fuel' =>
           '(i, merged_lines, conflicts) ← merge_step base yc tc i merged conflicts;
           merge_loop fuel' base yc tc i merged_lines conflicts
       end
  else mret (merged, conflicts).
Proof. by destruct fuel. Qed.

(** Where neither side has a change at a base position from [i] on,
    the loop copies the rest of the base. *)
Lemma merge_loop_untouched base yc tc :
  (forall j, 0 <= j < len base -> yc !! j = None /\ tc !! j = None) ->
  forall fuel i merged conflicts,
  0 <= i -> len base - i <= Z.of_nat fuel ->
  merge_loop fuel base yc tc i merged conflicts
  = Ok (merged ++ drop (Z.to_nat i) base, conflicts).
Proof.
  intros Hnone.
  induction fuel as [|fuel IH]; intros i merged conflicts Hi Hfuel;
    rewrite merge_loop_unfold; destruct (Z.ltb_spec i (len base)) as [Hlt|Hge];
    try lia.
  - rewrite drop_ge by (unfold len in *; lia). by rewrite app_nil_r.
  - unfold merge_step. destruct (Hnone i ltac:(lia)) as [-> ->].
    destruct (lookup_lt_is_Some_2 base (Z.to_nat i)) as [line Hline];
      [unfold len in *; lia|].
    rewrite (py_index_lookup base i line Hi Hline). cbn [mbind result_bind mret result_ret].
    rewrite IH by lia. rewrite (drop_S _ _ _ Hline).
    replace (Z.to_nat (i + 1)) with (S (Z.to_nat i)) by lia.
    by rewrite <- app_assoc.
  - rewrite drop_ge by (unfold len in *; lia). by rewrite app_nil_r.
Qed.

Lemma merge_loop_returns base yc tc :
  (forall i c, yc !! i = Some c -> 0 <= ch_old_count c) ->
  (forall i c, tc !! i = Some c -> 0 <= ch_old_count c) ->
  (forall i y t, 0 <= i < len base -> yc !! i = Some y -> tc !! i = Some t ->
     0 < Z.max (ch_old_count y) (ch_old_count t)) ->
  forall fuel i merged conflicts,
  0 <= i -> len base - i <= Z.of_nat fuel ->
  exists res, merge_loop fuel base yc tc i merged conflicts = Ok res.
Proof.
  intros Hyc Htc Hboth.
  induction fuel as [|fuel IH]; intros i merged conflicts Hi Hfuel;
    rewrite merge_loop_unfold; destruct (Z.ltb_spec i (len base)) as [Hlt|Hge];
    try lia; try (by eexists).
  unfold merge_step.
  destruct (yc !! i) as [y|] eqn:Hy, (tc !! i) as [t|] eqn:Ht.
  - pose proof (Hboth i y t ltac:(lia) Hy Ht) as Hpos.
    destruct (bool_decide _); cbn [mbind result_bind mret result_ret]; apply IH; lia.
  - pose proof (Hyc i y Hy). cbn [mbind result_bind mret result_ret].
    apply IH; unfold or_1; destruct (Z.eqb_spec (ch_old_count y) 0); lia.
  - pose proof (Htc i t Ht). cbn [mbind result_bind mret result_ret].
    apply IH; unfold or_1; destruct (Z.eqb_spec (ch_old_count t) 0); lia.
  - destruct (lookup_lt_is_Some_2 base (Z.to_nat i)) as [line Hline];
      [unfold len in *; lia|].
    rewrite (py_index_lookup base i line Hi Hline). cbn [mbind result_bind mret result_ret].
    apply IH; lia.
Qed.

Section ThreeWay.
Context {regex : Regex} {difflib : Difflib}.

Lemma compare_lines_change_counts options A B ops i c :
  compare_lines options A B = Ok ops ->
  _build_change_map ops !! i = Some c -> 0 <= ch_old_count c.
Proof.
  intros Hc Hl.
  destruct (compare_lines_sound options A B) as (ops' & Hc' & _ & Hch & _).
  rewrite Hc in Hc'. injection Hc' as <-.
  apply chain_ops_ok in Hch. rewrite Forall_forall in Hch.
  destruct (build_change_map_values _ _ _ Hl) as (r & Hin & _ & _ & ->).
  destruct (Hch r Hin) as (_ & _ & Hoc & _). done.
Qed.

(** X14. Merging three copies of the same file gives the file back
    with no conflict: for all options and all line lists,
    [three_way_merge(base, base, base)] returns [(base, [])] after
    at most [len(base)] iterations of its loop. The merged lines are
    the lines as given, not the filtered ones. *)
Theorem three_way_merge_unchanged (options : Options) (base : list string) (fuel : nat) :
  len base <= Z.of_nat fuel ->
  three_way_merge fuel options base base base = Ok (base, []).
Proof.
  intros Hfuel. unfold three_way_merge.
  destruct (compare_lines_sound options base base) as (ops & Hc & Hcomp & _).
  rewrite Hc. cbn [mbind result_bind].
  rewrite (compute_same (engine_differ options base base) eq_refl eq_refl eq_refl) in Hcomp.
  assert (Hall : Forall (fun r => type r = EQUAL) ops).
  { destruct (n (engine_differ options base base) =? 0); injection Hcomp as <-;
      [constructor|by constructor]. }
  rewrite (build_change_map_all_equal _ Hall).
  rewrite (merge_loop_untouched base ∅ ∅) by (done || lia). by rewrite drop_0.
Qed.

(** X15. With an empty base the merge is empty: for all options, all
    line lists [yours] and [theirs] and any number of allowed
    iterations, [three_way_merge([], yours, theirs)] returns [([], [])];
    what the two sides hold is not in the result. *)
Theorem three_way_merge_empty_base (options : Options) (yours theirs : list string)
    (fuel : nat) :
  three_way_merge fuel options [] yours theirs = Ok ([], []).
Proof.
  unfold three_way_merge.
  destruct (compare_lines_sound options [] yours) as (yd & -> & _).
  destruct (compare_lines_sound options [] theirs) as (td & -> & _).
  cbn [mbind result_bind]. by rewrite merge_loop_unfold.
Qed.

(** X16. [three_way_merge] returns whenever no position of the base
    carries a change of both sides that spans no base line (two
    insertions before the same line): for all options and line lists
    with that property at the positions [0 <= i < len(base)],
    [len(base)] iterations of the loop are enough. Changes filed under
    the key [len(base)] do not matter. *)
Theorem three_way_merge_returns (options : Options) (base yours theirs : list string)
    (fuel : nat) :
  (forall yd td i y t,
     compare_lines options base yours = Ok yd ->
     compare_lines options base theirs = Ok td ->
     0 <= i < len base ->
     _build_change_map yd !! i = Some y -> _build_change_map td !! i = Some t ->
     0 < Z.max (ch_old_count y) (ch_old_count t)) ->
  len base <= Z.of_nat fuel ->
  exists merged conflicts,
    three_way_merge fuel options base yours theirs = Ok (merged, conflicts).
Proof.
  intros Hboth Hfuel. unfold three_way_merge.
  destruct (compare_lines_sound options base yours) as (yd & Hyd & _).
  destruct (compare_lines_sound options base theirs) as (td & Htd & _).
  rewrite Hyd, Htd. cbn [mbind result_bind].
  destruct (merge_loop_returns base (_build_change_map yd) (_build_change_map td))
    with (fuel := fuel) (i := 0) (merged := @nil string) (conflicts := @nil Conflict)
    as [[merged conflicts] Hres].
  - intros i c. by apply (compare_lines_change_counts options base yours yd).
  - intros i c. by apply (compare_lines_change_counts options base theirs td).
  - intros i y t Hi Hy Ht. by apply (Hboth yd td i y t).
  - lia.
  - lia.
  - by exists merged, conflicts.
Qed.
End ThreeWay.

(** The theorem on three unchanged copies at the base ["a", "b"] with
    two iterations allowed. *)
Lemma three_way_merge_unchanged_witness :
  len ["a"; "b"]%string <= Z.of_nat 2 /\
  three_way_merge (regex := null_regex) (difflib := null_difflib) 2 no_options
    ["a"; "b"]%string ["a"; "b"]%string ["a"; "b"]%string = Ok (["a"; "b"]%string, []).
Proof.
  assert (Hfuel : len ["a"; "b"]%string <= Z.of_nat 2) by (vm_compute; discriminate).
  split; [exact Hfuel|].
  exact (three_way_merge_unchanged (regex := null_regex) (difflib := null_difflib)
           no_options ["a"; "b"]%string 2 Hfuel).
Defined.

(** The theorem on termination at the base ["a", "b"], of which both
    sides replace the first line, each with a line of its own: position
    0 is changed by both, with [old_count = 1]. *)
Lemma three_way_merge_returns_witness :
  (forall yd td i y t,
     compare_lines (regex := null_regex) (difflib := null_difflib) no_options
       ["a"; "b"]%string ["x"; "b"]%string = Ok yd ->
     compare_lines (regex := null_regex) (difflib := null_difflib) no_options
       ["a"; "b"]%string ["y"; "b"]%string = Ok td ->
     0 <= i < len ["a"; "b"]%string ->
     _build_change_map yd !! i = Some y -> _build_change_map td !! i = Some t ->
     0 < Z.max (ch_old_count y) (ch_old_count t)) /\
  len ["a"; "b"]%string <= Z.of_nat 2 /\
  exists merged conflicts,
    three_way_merge (regex := null_regex) (difflib := null_difflib) 2 no_options
      ["a"; "b"]%string ["x"; "b"]%string ["y"; "b"]%string = Ok (merged, conflicts).
Proof.
  assert (Hboth : forall yd td i y t,
     compare_lines (regex := null_regex) (difflib := null_difflib) no_options
       ["a"; "b"]%string ["x"; "b"]%string = Ok yd ->
     compare_lines (regex := null_regex) (difflib := null_difflib) no_options
       ["a"; "b"]%string ["y"; "b"]%string = Ok td ->
     0 <= i < len ["a"; "b"]%string ->
     _build_change_map yd !! i = Some y -> _build_change_map td !! i = Some t ->
     0 < Z.max (ch_old_count y) (ch_old_count t)).
  { intros yd td i y t Hyd Htd _ Hy Ht.
    vm_compute in Hyd. injection Hyd as <-.
    vm_compute in Htd. injection Htd as <-.
    destruct (build_change_map_values _ _ _ Hy) as (r & Hr & _ & _ & ->).
    destruct (build_change_map_values _ _ _ Ht) as (r' & Hr' & _ & _ & ->).
    apply list_elem_of_In in Hr, Hr'. simpl in Hr, Hr'.
    destruct Hr as [<-|[<-|[]]], Hr' as [<-|[<-|[]]]; simpl; lia. }
  assert (Hfuel : len ["a"; "b"]%string <= Z.of_nat 2) by (vm_compute; discriminate).
  split; [exact Hboth|]. split; [exact Hfuel|].
  exact (three_way_merge_returns (regex := null_regex) (difflib := null_difflib)
           no_options ["a"; "b"]%string ["x"; "b"]%string ["y"; "b"]%string 2 Hboth Hfuel).
Defined.

(** ** The unified format of a computed diff *)

Lemma format_hunk_length r :
  shape_ok r -> counts_lines r ->
  len (format_hunk r) = if bool_decide (type r = EQUAL) then 0 else 1 + edit_units_of r.
Proof.
  intros Hs [Ho Hn]. unfold format_hunk, shape_ok, edit_units_of in *.
  destruct (type r) eqn:Hty; simpl; unfold len in *;
    rewrite ?length_cons, ?length_app, ?length_fmap; simpl length; lia.
Qed.

Lemma format_hunks_all_equal ops :
  Forall (fun r => type r = EQUAL) ops -> concat (format_hunk <$> ops) = [].
Proof.
  induction 1 as [|r ops Hr _ IH]; [done|].
  rewrite fmap_cons. change (concat (?l :: ?ls)) with (l ++ concat ls).
  rewrite IH. unfold format_hunk. by rewrite bool_decide_eq_true_2.
Qed.

Lemma format_hunks_length ops :
  Forall shape_ok ops -> Forall counts_lines ops ->
  len (concat (format_hunk <$> ops))
  = len (filter (fun r => type r <> EQUAL) ops) + edit_units ops.
Proof.
  induction 1 as [|r ops Hr _ IH]; intros Hc; [done|].
  apply Forall_cons in Hc as [Hcr Hc].
  rewrite fmap_cons. change (concat (?l :: ?ls)) with (l ++ concat ls).
  rewrite edit_units_cons. unfold len in *. rewrite length_app.
  pose proof (format_hunk_length r Hr Hcr) as Hlen. unfold len in Hlen.
  rewrite Nat2Z.inj_add, Hlen, (IH Hc).
  destruct (bool_decide_reflect (type r = EQUAL)) as [Hty|Hty].
  - rewrite filter_cons_False by (by intros ?).
    unfold edit_units_of. rewrite Hty. lia.
  - rewrite filter_cons_True by done. simpl. lia.
Qed.

(** *** Counting the lines of the text *)

Lemma count_newlines_append s t :
  count_newlines (s ++ t) = count_newlines s + count_newlines t.
Proof.
  induction s as [|c s IH]; [by rewrite append_empty_l|].
  rewrite append_cons. cbn [count_newlines]. rewrite IH. lia.
Qed.

Lemma pretty_N_char_one_line x s :
  count_newlines (String (pretty_N_char x) s) = count_newlines s.
Proof. unfold pretty_N_char. by repeat case_match. Qed.

Lemma pretty_N_go_one_line x :
  forall s, count_newlines (pretty_N_go x s) = count_newlines s.
Proof.
  induction (N.lt_wf_0 x) as [x _ IH]; intros s.
  destruct (decide (x = 0)%N) as [->|Hne]; [by rewrite pretty_N_go_0|].
  rewrite pretty_N_go_step by lia.
  rewrite IH by (apply N.div_lt; lia). apply pretty_N_char_one_line.
Qed.

Lemma pretty_N_one_line (x : N) : one_line (pretty x).
Proof.
  unfold one_line, pretty, pretty_N. destruct (decide (x = 0)%N); [done|].
  by rewrite pretty_N_go_one_line.
Qed.

(** A printed integer has no line break in it. *)
Lemma pretty_Z_one_line (z : Z) : one_line (pretty z).
Proof.
  destruct z as [|p|p]; [done|apply (pretty_N_one_line (Npos p))|].
  unfold one_line, pretty, pretty_Z.
  change ("-" +:+ pretty p) with (String "-" (pretty p)).
  cbn [count_newlines]. change (Ascii.eqb "-" (ascii_of_nat 10)) with false.
  apply (pretty_N_one_line (Npos p)).
Qed.

Lemma join_newline_count l :
  Forall one_line l -> l <> [] -> count_newlines (join newline l) = len l - 1.
Proof.
  induction 1 as [|s l Hs Hl IH]; intros Hne; [done|].
  destruct l as [|s' l'].
  - cbn [join]. unfold len. simpl. exact Hs.
  - change (join newline (s :: s' :: l'))
      with (s ++ newline ++ join newline (s' :: l'))%string.
    rewrite !count_newlines_append, IH by done. unfold one_line in Hs. rewrite Hs.
    change (count_newlines newline) with 1. unfold len. simpl length. lia.
Qed.

Lemma Forall_py_slice {A} (P : A -> Prop) (l : list A) lo hi :
  Forall P l -> Forall P (py_slice l lo hi).
Proof. intros Hl. unfold py_slice. by apply Forall_take, Forall_drop. Qed.

Lemma format_hunk_one_line r :
  Forall one_line (old_lines r) -> Forall one_line (new_lines r) ->
  Forall one_line (format_hunk r).
Proof.
  intros Ho Hn. unfold format_hunk.
  destruct (bool_decide (type r = EQUAL)); [constructor|].
  apply Forall_app. split; [|apply Forall_app; split].
  - constructor; [|constructor]. unfold one_line.
    rewrite !count_newlines_append.
    rewrite (pretty_Z_one_line (old_start r + 1)), (pretty_Z_one_line (old_count r)),
      (pretty_Z_one_line (new_start r + 1)), (pretty_Z_one_line (new_count r)).
    reflexivity.
  - destruct (_ || _); [|constructor]. apply Forall_fmap.
    eapply Forall_impl; [exact Ho|]. intros line Hline. unfold one_line in *. cbn.
    by rewrite count_newlines_append, Hline.
  - destruct (_ || _); [|constructor]. apply Forall_fmap.
    eapply Forall_impl; [exact Hn|]. intros line Hline. unfold one_line in *. cbn.
    by rewrite count_newlines_append, Hline.
Qed.

Lemma format_hunks_one_line ops :
  Forall (fun r => Forall one_line (old_lines r) /\ Forall one_line (new_lines r)) ops ->
  Forall one_line (concat (format_hunk <$> ops)).
Proof.
  induction 1 as [|r ops [Ho Hn] _ IH]; [constructor|].
  rewrite fmap_cons. change (concat (?l :: ?ls)) with (l ++ concat ls).
  apply Forall_app. split; [by apply format_hunk_one_line|done].
Qed.

Section EngineFormat.
Context {regex : Regex} {difflib : Difflib}.

(** X17. The unified diff of a file against itself is its two header
    lines and nothing else: for all options, line lists and file names,
    [format_diff_unified(compare_lines(X, X), fa, fb)] is
    ["--- fa\n+++ fb"]. *)
Theorem format_diff_unified_same (options : Options) (X : list string)
    (filename_a filename_b : string) (context_lines : Z) :
  exists ops,
    compare_lines options X X = Ok ops /\
    format_diff_unified ops filename_a filename_b context_lines
    = ("--- " ++ filename_a ++ newline ++ "+++ " ++ filename_b)%string.
Proof.
  destruct (compare_lines_sound options X X) as (ops & Hc & Hcomp & _).
  exists ops. split; [done|].
  rewrite (compute_same (engine_differ options X X) eq_refl eq_refl eq_refl) in Hcomp.
  assert (Hall : Forall (fun r => type r = EQUAL) ops).
  { destruct (n (engine_differ options X X) =? 0); injection Hcomp as <-;
      [constructor|by constructor]. }
  unfold format_diff_unified, format_diff_unified_lines.
  rewrite (format_hunks_all_equal _ Hall). cbn [app join].
  by rewrite append_assoc.
Qed.

(** The entries of the list that [format_diff_unified] joins. *)
Lemma format_diff_unified_lines_length (options : Options) (A B : list string)
    (filename_a filename_b : string) ops :
  compare_lines options A B = Ok ops ->
  len (format_diff_unified_lines ops filename_a filename_b)
  = 2 + len (filter (fun r => type r <> EQUAL) ops) + edit_units ops.
Proof.
  intros Hc0.
  destruct (compare_lines_sound options A B) as (ops' & Hc & _ & Hch & He & _).
  rewrite Hc0 in Hc. injection Hc as <-.
  assert (Hshape : Forall shape_ok ops).
  { pose proof (chain_ops_ok _ _ _ _ _ _ _ Hch) as Hok.
    rewrite Forall_forall in Hok, He. apply Forall_forall. intros r Hr.
    by eapply op_equal_shape; [apply Hok|apply He]. }
  assert (Hcounts : Forall counts_lines ops).
  { pose proof (chain_ops_ok _ _ _ _ _ _ _ Hch) as Hok.
    apply chain_within in Hch. unfold within in Hch.
    rewrite Forall_forall in Hch, Hok. apply Forall_forall. intros r Hr.
    destruct (Hok r Hr) as (Hos & Hns & Hoc & Hnc & Hol & Hnl & _).
    destruct (Hch r Hr) as [Hle1 Hle2].
    cbn [engine_differ MyersDiff_init seq_a seq_b n m processed_a processed_b] in Hle1, Hle2.
    pose proof (preprocess_sequence_length_le (opt_ignore_case options)
      (opt_ignore_whitespace options) (opt_ignore_blank_lines options)
      (_preprocess_lines options A)).
    pose proof (preprocess_sequence_length_le (opt_ignore_case options)
      (opt_ignore_whitespace options) (opt_ignore_blank_lines options)
      (_preprocess_lines options B)).
    unfold counts_lines. rewrite Hol, Hnl.
    split; apply py_slice_length; unfold len in *; lia. }
  unfold format_diff_unified_lines.
  pose proof (format_hunks_length ops Hshape Hcounts) as Hlen.
  unfold len in *. rewrite length_app. simpl length. lia.
Qed.

(** X18. The size of a unified diff: for all options, and all line
    lists and file names that have no line break inside a line or a
    name, the text that [format_diff_unified] returns for what
    [compare_lines] returns has exactly
    [2 + (operations that are not Equal) + (changed line units)] lines
    ([len(text.split("\n"))]): the two headers, one hunk header for each
    change and one line for each deleted or inserted line. *)
Theorem format_diff_unified_size (options : Options) (A B : list string)
    (filename_a filename_b : string) (context_lines : Z) :
  one_line filename_a -> one_line filename_b ->
  Forall one_line (_preprocess_lines options A) ->
  Forall one_line (_preprocess_lines options B) ->
  exists ops,
    compare_lines options A B = Ok ops /\
    text_lines (format_diff_unified ops filename_a filename_b context_lines)
    = 2 + len (filter (fun r => type r <> EQUAL) ops) + edit_units ops.
Proof.
  intros Hfa Hfb HA HB.
  destruct (compare_lines_sound options A B) as (ops & Hc & _ & Hch & _).
  exists ops. split; [done|].
  rewrite <- (format_diff_unified_lines_length options A B filename_a filename_b ops Hc).
  unfold text_lines, format_diff_unified.
  rewrite join_newline_count; [lia| |done].
  unfold format_diff_unified_lines. apply Forall_app. split.
  - unfold one_line in *. repeat constructor; unfold one_line;
      rewrite count_newlines_append; [by rewrite Hfa|by rewrite Hfb].
  - apply format_hunks_one_line.
    pose proof (chain_ops_ok _ _ _ _ _ _ _ Hch) as Hok.
    eapply Forall_impl; [exact Hok|].
    intros r (_ & _ & _ & _ & Hol & Hnl & _). rewrite Hol, Hnl.
    split; by apply Forall_py_slice.
Qed.
End EngineFormat.

(** The theorem at the lines ["a", "b", "c"] and ["a", "x", "c"], the
    input of the test on the unified format: five lines. *)
Lemma format_diff_unified_size_witness :
  one_line "a" /\ one_line "b" /\
  Forall one_line (_preprocess_lines (regex := null_regex) no_options ["a"; "b"; "c"]%string) /\
  Forall one_line (_preprocess_lines (regex := null_regex) no_options ["a"; "x"; "c"]%string) /\
  exists ops,
    compare_lines (regex := null_regex) (difflib := null_difflib) no_options
      ["a"; "b"; "c"]%string ["a"; "x"; "c"]%string = Ok ops /\
    text_lines (format_diff_unified ops "a" "b" 3)
    = 2 + len (filter (fun r => type r <> EQUAL) ops) + edit_units ops.
Proof.
  assert (HA : Forall one_line
                 (_preprocess_lines (regex := null_regex) no_options ["a"; "b"; "c"]%string))
    by (repeat constructor).
  assert (HB : Forall one_line
                 (_preprocess_lines (regex := null_regex) no_options ["a"; "x"; "c"]%string))
    by (repeat constructor).
  split; [reflexivity|]. split; [reflexivity|]. split; [exact HA|]. split; [exact HB|].
  exact (format_diff_unified_size (regex := null_regex) (difflib := null_difflib)
           no_options ["a"; "b"; "c"]%string ["a"; "x"; "c"]%string "a" "b" 3
           eq_refl eq_refl HA HB).
Defined.

(** ** The statistics of a computed diff *)

Lemma process_diff_cons stats r ops :
  process_diff stats (r :: ops) = process_diff (process_result stats r) ops.
Proof. reflexivity. Qed.

Lemma process_diff_report results :
  forall stats,
  total_diffs (process_diff stats results) = total_diffs stats + report_total_diffs results /\
  additions (process_diff stats results) = additions stats + report_added results /\
  deletions (process_diff stats results) = deletions stats + report_deleted results /\
  modifications (process_diff stats results) = modifications stats + report_modified results /\
  total_diffs (process_diff stats results) + equal_blocks (process_diff stats results)
  = total_diffs stats + equal_blocks stats + len results.
Proof.
  unfold report_total_diffs, report_added, report_deleted, report_modified.
  induction results as [|r results IH]; intros stats.
  { unfold len. simpl. lia. }
  rewrite process_diff_cons.
  destruct (IH (process_result stats r)) as (IH1 & IH2 & IH3 & IH4 & IH5).
  rewrite IH1, IH2, IH3, IH4. rewrite IH1 in IH5. rewrite IH5. clear IH IH1 IH2 IH3 IH4 IH5.
  unfold process_result, len.
  destruct (type r) eqn:Hty.
  - rewrite filter_cons_False by (by intros ?).
    rewrite !(filter_cons_False _ r) by (rewrite Hty; discriminate).
    simpl. clear Hty. repeat split; try lia; rewrite <- ?Z.add_assoc; reflexivity.
  - rewrite (filter_cons_True (fun r => type r <> EQUAL)) by (rewrite Hty; discriminate).
    rewrite (filter_cons_True (fun r => type r = INSERT)) by done.
    rewrite !(filter_cons_False _ r) by (rewrite Hty; discriminate).
    simpl. clear Hty. repeat split; try lia; rewrite <- ?Z.add_assoc; reflexivity.
  - rewrite (filter_cons_True (fun r => type r <> EQUAL)) by (rewrite Hty; discriminate).
    rewrite (filter_cons_True (fun r => type r = DELETE)) by done.
    rewrite !(filter_cons_False _ r) by (rewrite Hty; discriminate).
    simpl. clear Hty. repeat split; try lia; rewrite <- ?Z.add_assoc; reflexivity.
  - rewrite (filter_cons_True (fun r => type r <> EQUAL)) by (rewrite Hty; discriminate).
    rewrite (filter_cons_True (fun r => type r = REPLACE)) by done.
    rewrite !(filter_cons_False _ r) by (rewrite Hty; discriminate).
    simpl. clear Hty. repeat split; try lia; rewrite <- ?Z.add_assoc; reflexivity.
Qed.

(** X19. The plugin and the report count alike: for every list of
    operations, the counters of [StatisticsPlugin.process_diff], started
    by [on_compare_start], are the four statistics that the HTML report
    computes from the same list, and the equal blocks are the
    operations that are left. *)
Theorem process_diff_agrees_with_report (results : list DiffResult) (file1 file2 : string) :
  let stats := process_diff (on_compare_start file1 file2) results in
  total_diffs stats = report_total_diffs results /\
  additions stats = report_added results /\
  deletions stats = report_deleted results /\
  modifications stats = report_modified results /\
  equal_blocks stats = len results - report_total_diffs results.
Proof.
  intros stats.
  destruct (process_diff_report results (on_compare_start file1 file2))
    as (H1 & H2 & H3 & H4 & H5).
  fold stats in H1, H2, H3, H4, H5. simpl in *. lia.
Qed.

Lemma process_diff_chain a b x y ops x' y' :
  chain a b x y ops x' y' -> Forall shape_ok ops ->
  forall stats,
  additions (process_diff stats ops) - deletions (process_diff stats ops)
  = additions stats - deletions stats + (y' - y) - (x' - x) /\
  total_diffs (process_diff stats ops) - additions (process_diff stats ops)
    - deletions (process_diff stats ops) - modifications (process_diff stats ops)
  = total_diffs stats - additions stats - deletions stats - modifications stats /\
  additions (process_diff stats ops) + deletions (process_diff stats ops)
    + 2 * modifications (process_diff stats ops)
  = additions stats + deletions stats + 2 * modifications stats + edit_units ops.
Proof.
  induction 1 as [|x y r ops x' y' Hok Hx Hy Hch IH]; intros Hs stats.
  { simpl. lia. }
  apply Forall_cons in Hs as [Hr Hs].
  rewrite process_diff_cons, edit_units_cons.
  destruct (IH Hs (process_result stats r)) as (IH1 & IH2 & IH3).
  rewrite IH1, IH2, IH3. clear IH IH1 IH2 IH3.
  unfold process_result, shape_ok, edit_units_of in *.
  destruct (type r); simpl; lia.
Qed.

Section EngineStatistics.
Context {regex : Regex} {difflib : Difflib}.

(** X20. The statistics of a computed diff: for all options and line
    lists, after [process_diff] has seen what [compare_lines] returns,
    the lines added less the lines deleted are the difference of the
    lengths of the two compared sequences, every difference is one
    added, one deleted or one modified line, and
    [additions + deletions + 2 * modifications] is the number of changed
    line units. *)
Theorem process_diff_of_compare_lines (options : Options) (A B : list string)
    (file1 file2 : string) :
  exists ops,
    compare_lines options A B = Ok ops /\
    let stats := process_diff (on_compare_start file1 file2) ops in
    additions stats - deletions stats
    = len (processed_b (engine_differ options A B))
      - len (processed_a (engine_differ options A B)) /\
    total_diffs stats = additions stats + deletions stats + modifications stats /\
    additions stats + deletions stats + 2 * modifications stats = edit_units ops.
Proof.
  destruct (compare_lines_sound options A B) as (ops & Hc & _ & Hch & He & _).
  exists ops. split; [done|].
  assert (Hshape : Forall shape_ok ops).
  { pose proof (chain_ops_ok _ _ _ _ _ _ _ Hch) as Hok.
    rewrite Forall_forall in Hok, He. apply Forall_forall. intros r Hr.
    by eapply op_equal_shape; [apply Hok|apply He]. }
  destruct (process_diff_chain _ _ _ _ _ _ _ Hch Hshape (on_compare_start file1 file2))
    as (H1 & H2 & H3).
  simpl in *. lia.
Qed.
End EngineStatistics.

(** ** Word positions *)

Lemma length_append (s t : string) :
  String.length (s ++ t) = (String.length s + String.length t)%nat.
Proof. induction s as [|c s IH]; [done|]. rewrite append_cons. simpl. by f_equal. Qed.

Lemma str_len_append s t : str_len (s ++ t) = str_len s + str_len t.
Proof. unfold str_len. rewrite length_append. lia. Qed.

Lemma sum_len_cat ws : sum_len ws = str_len (cat ws).
Proof.
  induction ws as [|w ws IH]; [done|].
  rewrite cat_cons, str_len_append, <- IH. reflexivity.
Qed.

Lemma substring_prefix w s : substring 0 (String.length w) (w ++ s) = w.
Proof.
  induction w as [|c w IH]; [by destruct s|].
  rewrite append_cons. simpl. by rewrite IH.
Qed.

Lemma substring_middle s1 w s2 :
  substring (String.length s1) (String.length w) (s1 ++ w ++ s2) = w.
Proof.
  induction s1 as [|c s1 IH]; [rewrite append_empty_l; apply substring_prefix|].
  rewrite append_cons. simpl. apply IH.
Qed.

(** The word with index [i] starts where the words before it end. *)
Lemma word_at_offset words i w :
  0 <= i -> words !! Z.to_nat i = Some w ->
  substring (Z.to_nat (str_len (cat (py_slice words 0 i)))) (String.length w) (cat words) = w.
Proof.
  intros Hi Hw. apply lookup_lt_Some in Hw as Hlt.
  rewrite <- (py_slice_all words) at 2.
  rewrite <- (py_slice_app words 0 i (len words)) by (unfold len; lia).
  rewrite (py_slice_cons words i (len words) w) by (done || unfold len; lia).
  rewrite cat_app, cat_cons. unfold str_len. rewrite Nat2Z.id.
  apply substring_middle.
Qed.

Lemma offset_succ words i w :
  0 <= i -> words !! Z.to_nat i = Some w ->
  str_len (cat (py_slice words 0 (i + 1))) = str_len (cat (py_slice words 0 i)) + str_len w.
Proof.
  intros Hi Hw.
  rewrite <- (py_slice_app words 0 i (i + 1)) by lia.
  rewrite (py_slice_one words i w) by done.
  rewrite cat_app, str_len_append, cat_cons. simpl cat.
  by rewrite str_len_append, Z.add_0_r.
Qed.

Lemma emit_words_placed ty words k :
  forall i1 i2 acc, Z.to_nat (i2 - i1) = k -> 0 <= i1 <= i2 -> i2 <= len words ->
  exists out,
    emit_words ty words (seqZ i1 (i2 - i1)) (str_len (cat (py_slice words 0 i1))) acc
    = Ok (str_len (cat (py_slice words 0 i2)), acc ++ out) /\
    Forall (fun w => wd_type w = ty /\ 0 <= start_pos w /\
                     substring (Z.to_nat (start_pos w)) (String.length (word w)) (cat words)
                     = word w) out.
Proof.
  induction k as [|k IH]; intros i1 i2 acc Hk Hi Hlen.
  - assert (i2 = i1) as -> by lia. rewrite Z.sub_diag. simpl.
    exists []. by rewrite app_nil_r.
  - rewrite seqZ_cons by lia. cbn [emit_words].
    destruct (py_index_in_range words i1) as (w & Hw & ->); [lia|].
    cbn [mbind result_bind].
    replace (Z.pred (i2 - i1)) with (i2 - Z.succ i1) by lia.
    rewrite <- (offset_succ words i1 w) by (done || lia).
    replace (i1 + 1) with (Z.succ i1) by lia.
    destruct (IH (Z.succ i1) i2
                (acc ++ [mkWordDiff ty w (str_len (cat (py_slice words 0 i1)))
                           (str_len (cat (py_slice words 0 (Z.succ i1))))]))
      as (out & -> & Hout); [lia..|].
    eexists (_ :: out). split; [by rewrite <- app_assoc|].
    constructor; [|done]. cbn [wd_type start_pos word].
    split; [done|]. split; [unfold str_len; lia|].
    apply word_at_offset; [lia|done].
Qed.

Section WordPositions.
Context {difflib : Difflib}.
Context (wa wb : list string).

Lemma word_placed_a ty w :
  ty <> INSERT ->
  wd_type w = ty /\ 0 <= start_pos w /\
    substring (Z.to_nat (start_pos w)) (String.length (word w)) (cat wa) = word w ->
  word_placed (cat wa) (cat wb) w.
Proof.
  intros Hty (Hw & Hpos & Hsub). unfold word_placed.
  rewrite bool_decide_eq_false_2 by congruence. done.
Qed.

Lemma word_placed_b w :
  wd_type w = INSERT /\ 0 <= start_pos w /\
    substring (Z.to_nat (start_pos w)) (String.length (word w)) (cat wb) = word w ->
  word_placed (cat wa) (cat wb) w.
Proof.
  intros (Hw & Hpos & Hsub). unfold word_placed.
  rewrite bool_decide_eq_true_2 by done. done.
Qed.

Lemma words_loop_placed opcodes :
  forall i j acc,
    opcodes_from wa wb i j opcodes -> 0 <= i -> 0 <= j ->
    exists out,
      words_loop wa wb opcodes (str_len (cat (py_slice wa 0 i)))
        (str_len (cat (py_slice wb 0 j))) acc = Ok (acc ++ out) /\
      Forall (word_placed (cat wa) (cat wb)) out.
Proof.
  induction opcodes as [|[[[[tag i1] i2] j1] j2] opcodes IH]; intros i j acc Hop Hi Hj.
  - exists []. by rewrite app_nil_r.
  - destruct Hop as (-> & -> & Hi2 & Hj2 & Htag & Hrest).
    cbn [words_loop].
    destruct tag.
    + destruct (emit_words_placed EQUAL wa (Z.to_nat (i2 - i)) i i2 acc)
        as (out1 & -> & Hp1); [lia..|].
      cbn [mbind result_bind].
      rewrite sum_len_cat, <- str_len_append, <- cat_app, py_slice_app by lia.
      destruct (IH i2 j2 (acc ++ out1)) as (out & -> & Hp); [done|lia|lia|].
      exists (out1 ++ out). split; [by rewrite app_assoc|].
      apply Forall_app. split; [|done].
      eapply Forall_impl; [exact Hp1|]. intros w. by apply word_placed_a.
    + destruct (emit_words_placed DELETE wa (Z.to_nat (i2 - i)) i i2 acc)
        as (out1 & -> & Hp1); [lia..|].
      cbn [mbind result_bind]. subst j2.
      destruct (IH i2 j (acc ++ out1)) as (out & -> & Hp); [done|lia|lia|].
      exists (out1 ++ out). split; [by rewrite app_assoc|].
      apply Forall_app. split; [|done].
      eapply Forall_impl; [exact Hp1|]. intros w. by apply word_placed_a.
    + destruct (emit_words_placed INSERT wb (Z.to_nat (j2 - j)) j j2 acc)
        as (out1 & -> & Hp1); [lia..|].
      cbn [mbind result_bind]. subst i2.
      destruct (IH i j2 (acc ++ out1)) as (out & -> & Hp); [done|lia|lia|].
      exists (out1 ++ out). split; [by rewrite app_assoc|].
      apply Forall_app. split; [|done].
      eapply Forall_impl; [exact Hp1|]. intros w. by apply word_placed_b.
    + destruct (emit_words_placed DELETE wa (Z.to_nat (i2 - i)) i i2 acc)
        as (out1 & -> & Hp1); [lia..|].
      cbn [mbind result_bind].
      destruct (emit_words_placed INSERT wb (Z.to_nat (j2 - j)) j j2 (acc ++ out1))
        as (out2 & -> & Hp2); [lia..|].
      cbn [mbind result_bind].
      destruct (IH i2 j2 ((acc ++ out1) ++ out2)) as (out & -> & Hp); [done|lia|lia|].
      exists (out1 ++ out2 ++ out). split; [by rewrite !app_assoc|].
      apply Forall_app. split; [|apply Forall_app; split; [|done]].
      * eapply Forall_impl; [exact Hp1|]. intros w. by apply word_placed_a.
      * eapply Forall_impl; [exact Hp2|]. intros w. by apply word_placed_b.
Qed.
End WordPositions.

(** X21. The positions of [compare_words] are offsets into the lines:
    for all strings for which [get_opcodes] keeps the promise of its
    documentation, every entry has [line[start_pos:start_pos + len(word)]
    == word], in [line_b] for an INSERT entry and in [line_a] for an
    EQUAL or DELETE entry. *)
Theorem compare_words_positions {difflib : Difflib} (line_a line_b : string) :
  valid_opcodes (findall_runs line_a) (findall_runs line_b)
    (get_opcodes (findall_runs line_a) (findall_runs line_b)) ->
  exists wds,
    compare_words line_a line_b = Ok wds /\
    Forall (word_placed line_a line_b) wds.
Proof.
  intros Hvalid. unfold compare_words.
  destruct (words_loop_placed _ _ _ 0 0 [] Hvalid) as (wds & Hw & Hp); [lia..|].
  rewrite !py_slice_empty in Hw. change (str_len (cat [])) with 0 in Hw.
  exists wds. split; [done|]. by rewrite !findall_runs_cat in Hp.
Qed.

Lemma compare_words_positions_witness :
  valid_opcodes (findall_runs "a b") (findall_runs "a c")
    (get_opcodes (Difflib := example_difflib) (findall_runs "a b") (findall_runs "a c")) /\
  exists wds,
    compare_words (difflib := example_difflib) "a b" "a c" = Ok wds /\
    Forall (word_placed "a b" "a c") wds.
Proof.
  assert (Hv : valid_opcodes (findall_runs "a b") (findall_runs "a c")
                 (get_opcodes (Difflib := example_difflib)
                    (findall_runs "a b") (findall_runs "a c"))).
  { vm_compute. repeat split; discriminate. }
  split; [exact Hv|].
  exact (compare_words_positions (difflib := example_difflib) "a b" "a c" Hv).
Defined.

(** ** Character diffs *)

Lemma chars_of_app t1 t2 l1 l2 :
  chars_of t1 t2 (l1 ++ l2) = chars_of t1 t2 l1 ++ chars_of t1 t2 l2.
Proof. unfold chars_of. by rewrite filter_app, fmap_app. Qed.

Lemma chars_of_all t1 t2 ty l :
  ty = t1 \/ ty = t2 -> Forall (fun c => cd_type c = ty) l ->
  chars_of t1 t2 l = char <$> l.
Proof.
  intros Hty Hl. unfold chars_of. f_equal.
  induction Hl as [|c l Hc _ IH]; [done|].
  rewrite filter_cons_True, IH; [done|]. rewrite Hc. tauto.
Qed.

Lemma chars_of_none t1 t2 ty l :
  ty <> t1 -> ty <> t2 -> Forall (fun c => cd_type c = ty) l ->
  chars_of t1 t2 l = [].
Proof.
  intros H1 H2 Hl. unfold chars_of.
  induction Hl as [|c l Hc _ IH]; [done|].
  rewrite filter_cons_False; [done|]. rewrite Hc. intros [?|?]; congruence.
Qed.

Lemma emit_chars_spec ty s k :
  forall i1 i2 acc, Z.to_nat (i2 - i1) = k -> 0 <= i1 <= i2 -> i2 <= len s ->
  exists out,
    emit_chars ty s (seqZ i1 (i2 - i1)) acc = Ok (acc ++ out) /\
    char <$> out = py_slice s i1 i2 /\
    Forall (fun c => cd_type c = ty) out /\
    Forall (fun c => 0 <= position c /\ s !! Z.to_nat (position c) = Some (char c)) out.
Proof.
  induction k as [|k IH]; intros i1 i2 acc Hk Hi Hlen.
  - assert (i2 = i1) as -> by lia. rewrite Z.sub_diag. simpl.
    exists []. rewrite app_nil_r, py_slice_empty. by repeat split.
  - rewrite seqZ_cons by lia. cbn [emit_chars].
    destruct (py_index_in_range s i1) as (c & Hc & ->); [lia|].
    cbn [mbind result_bind].
    replace (Z.pred (i2 - i1)) with (i2 - Z.succ i1) by lia.
    destruct (IH (Z.succ i1) i2 (acc ++ [mkCharDiff ty c i1]))
      as (out & -> & Hout & Hty & Hpl); [lia..|].
    exists (mkCharDiff ty c i1 :: out).
    split; [by rewrite <- app_assoc|]. split; [|split].
    + rewrite fmap_cons, Hout. cbn [char].
      by rewrite (py_slice_cons s i1 i2 c) by (done || lia).
    + by constructor.
    + constructor; [|done]. cbn [position char]. split; [lia|done].
Qed.

Section Chars.
Context (str_a str_b : string).

Lemma char_placed_a ty c :
  ty <> INSERT -> cd_type c = ty ->
  0 <= position c /\ chars str_a !! Z.to_nat (position c) = Some (char c) ->
  char_placed str_a str_b c.
Proof.
  intros Hty Hc Hp. unfold char_placed.
  by rewrite bool_decide_eq_false_2 by congruence.
Qed.

Lemma char_placed_b c :
  cd_type c = INSERT ->
  0 <= position c /\ chars str_b !! Z.to_nat (position c) = Some (char c) ->
  char_placed str_a str_b c.
Proof.
  intros Hc Hp. unfold char_placed. by rewrite bool_decide_eq_true_2 by done.
Qed.

Lemma Forall_char_placed_a ty out :
  ty <> INSERT -> Forall (fun c => cd_type c = ty) out ->
  Forall (fun c => 0 <= position c /\ chars str_a !! Z.to_nat (position c) = Some (char c)) out ->
  Forall (char_placed str_a str_b) out.
Proof.
  intros Hty H1 H2. rewrite Forall_forall in H1, H2. apply Forall_forall.
  intros c Hc. eapply char_placed_a; eauto.
Qed.

Lemma Forall_char_placed_b out :
  Forall (fun c => cd_type c = INSERT) out ->
  Forall (fun c => 0 <= position c /\ chars str_b !! Z.to_nat (position c) = Some (char c)) out ->
  Forall (char_placed str_a str_b) out.
Proof.
  intros H1 H2. rewrite Forall_forall in H1, H2. apply Forall_forall.
  intros c Hc. eapply char_placed_b; eauto.
Qed.

Lemma chars_loop_spec opcodes :
  forall i j acc,
    opcodes_from (chars str_a) (chars str_b) i j opcodes -> 0 <= i -> 0 <= j ->
    exists out,
      chars_loop (chars str_a) (chars str_b) opcodes acc = Ok (acc ++ out) /\
      chars_of EQUAL DELETE out = py_slice (chars str_a) i (len (chars str_a)) /\
      chars_of EQUAL INSERT out = py_slice (chars str_b) j (len (chars str_b)) /\
      Forall (char_placed str_a str_b) out.
Proof.
  induction opcodes as [|[[[[tag i1] i2] j1] j2] opcodes IH]; intros i j acc Hop Hi Hj.
  - destruct Hop as [-> ->]. exists []. rewrite app_nil_r, !py_slice_empty. by repeat split.
  - destruct Hop as (-> & -> & Hi2 & Hj2 & Htag & Hrest).
    cbn [chars_loop].
    destruct tag.
    + destruct (emit_chars_spec EQUAL (chars str_a) (Z.to_nat (i2 - i)) i i2 acc)
        as (out1 & -> & Hw1 & Hty1 & Hpl1); [lia..|].
      cbn [mbind result_bind].
      destruct (IH i2 j2 (acc ++ out1)) as (out & -> & Ha & Hb & Hpl); [done|lia|lia|].
      exists (out1 ++ out). split; [by rewrite app_assoc|].
      rewrite !chars_of_app, Ha, Hb.
      rewrite !(chars_of_all _ _ EQUAL out1) by auto.
      split; [|split].
      * by rewrite Hw1, py_slice_app by lia.
      * by rewrite Hw1, Htag, py_slice_app by lia.
      * apply Forall_app. split; [|done]. by apply (Forall_char_placed_a EQUAL).
    + destruct (emit_chars_spec DELETE (chars str_a) (Z.to_nat (i2 - i)) i i2 acc)
        as (out1 & -> & Hw1 & Hty1 & Hpl1); [lia..|].
      cbn [mbind result_bind]. subst j2.
      destruct (IH i2 j (acc ++ out1)) as (out & -> & Ha & Hb & Hpl); [done|lia|lia|].
      exists (out1 ++ out). split; [by rewrite app_assoc|].
      rewrite !chars_of_app, Ha, Hb.
      rewrite (chars_of_all EQUAL DELETE DELETE out1) by auto.
      rewrite (chars_of_none EQUAL INSERT DELETE out1) by done.
      split; [|split].
      * by rewrite Hw1, py_slice_app by lia.
      * done.
      * apply Forall_app. split; [|done]. by apply (Forall_char_placed_a DELETE).
    + destruct (emit_chars_spec INSERT (chars str_b) (Z.to_nat (j2 - j)) j j2 acc)
        as (out1 & -> & Hw1 & Hty1 & Hpl1); [lia..|].
      cbn [mbind result_bind]. subst i2.
      destruct (IH i j2 (acc ++ out1)) as (out & -> & Ha & Hb & Hpl); [done|lia|lia|].
      exists (out1 ++ out). split; [by rewrite app_assoc|].
      rewrite !chars_of_app, Ha, Hb.
      rewrite (chars_of_all EQUAL INSERT INSERT out1) by auto.
      rewrite (chars_of_none EQUAL DELETE INSERT out1) by done.
      split; [|split].
      * done.
      * by rewrite Hw1, py_slice_app by lia.
      * apply Forall_app. split; [|done]. by apply Forall_char_placed_b.
    + destruct (emit_chars_spec DELETE (chars str_a) (Z.to_nat (i2 - i)) i i2 acc)
        as (out1 & -> & Hw1 & Hty1 & Hpl1); [lia..|].
      cbn [mbind result_bind].
      destruct (emit_chars_spec INSERT (chars str_b) (Z.to_nat (j2 - j)) j j2 (acc ++ out1))
        as (out2 & -> & Hw2 & Hty2 & Hpl2); [lia..|].
      cbn [mbind result_bind].
      destruct (IH i2 j2 ((acc ++ out1) ++ out2)) as (out & -> & Ha & Hb & Hpl);
        [done|lia|lia|].
      exists (out1 ++ out2 ++ out). split; [by rewrite !app_assoc|].
      rewrite !chars_of_app, Ha, Hb.
      rewrite (chars_of_all EQUAL DELETE DELETE out1) by auto.
      rewrite (chars_of_none EQUAL INSERT DELETE out1) by done.
      rewrite (chars_of_all EQUAL INSERT INSERT out2) by auto.
      rewrite (chars_of_none EQUAL DELETE INSERT out2) by done.
      split; [|split].
      * by rewrite Hw1, app_nil_l, py_slice_app by lia.
      * by rewrite Hw2, app_nil_l, py_slice_app by lia.
      * apply Forall_app. split; [by apply (Forall_char_placed_a DELETE)|].
        apply Forall_app. split; [by apply Forall_char_placed_b|done].
Qed.
End Chars.

(** X22. Character diffs. For all strings [str_a] and [str_b] for which
    [get_opcodes] keeps the promise of its documentation,
    [compare_chars] returns a list in which the characters of the EQUAL
    and DELETE entries, in order, are the characters of [str_a], those
    of the EQUAL and INSERT entries the characters of [str_b], and every
    entry carries the character at its [position]: in [str_b] for an
    INSERT entry, in [str_a] for the others. *)
Theorem compare_chars_covers {difflib : Difflib} (str_a str_b : string) :
  valid_opcodes (chars str_a) (chars str_b) (get_opcodes (chars str_a) (chars str_b)) ->
  exists cds,
    compare_chars str_a str_b = Ok cds /\
    chars_of EQUAL DELETE cds = chars str_a /\
    chars_of EQUAL INSERT cds = chars str_b /\
    Forall (char_placed str_a str_b) cds.
Proof.
  intros Hvalid. unfold compare_chars.
  destruct (chars_loop_spec str_a str_b _ 0 0 [] Hvalid) as (cds & -> & Ha & Hb & Hpl);
    [lia..|].
  exists cds. rewrite !py_slice_all in *. by repeat split.
Qed.

Lemma compare_chars_covers_witness :
  valid_opcodes (chars "ab") (chars "ac")
    (get_opcodes (Difflib := chars_difflib) (chars "ab") (chars "ac")) /\
  exists cds,
    compare_chars (difflib := chars_difflib) "ab" "ac" = Ok cds /\
    chars_of EQUAL DELETE cds = chars "ab" /\
    chars_of EQUAL INSERT cds = chars "ac" /\
    Forall (char_placed "ab" "ac") cds.
Proof.
  assert (Hv : valid_opcodes (chars "ab") (chars "ac")
                 (get_opcodes (Difflib := chars_difflib) (chars "ab") (chars "ac"))).
  { vm_compute. repeat split; discriminate. }
  split; [exact Hv|].
  exact (compare_chars_covers (difflib := chars_difflib) "ab" "ac" Hv).
Defined.

(** ** Where the changes are *)

Lemma py_index_Ok_lookup {A} (l : list A) (i : Z) (x : A) :
  0 <= i -> py_index l i = Ok x -> l !! Z.to_nat i = Some x.
Proof.
  intros Hi. unfold py_index. destruct (Z.ltb_spec i 0); [lia|].
  destruct ((0 <=? i) && (i <? len l)); [|done].
  destruct (l !! Z.to_nat i); [by intros [= ->]|done].
Qed.

Lemma equal_block_end_ge fuel path j j' :
  equal_block_end fuel path j = Ok j' -> j <= j'.
Proof.
  revert j. induction fuel as [|fuel IH]; intros j He; [done|].
  rewrite equal_block_end_S in He.
  destruct (j <? len path - 1); [|injection He as <-; lia].
  destruct (py_index path j) as [[xn yn]| |]; [|done..]. cbn [mbind result_bind] in He.
  destruct (py_index path (j + 1)) as [[xa ya]| |]; [|done..]. cbn [mbind result_bind] in He.
  destruct ((xa =? xn + 1) && (ya =? yn + 1)).
  - apply IH in He. lia.
  - injection He as <-. lia.
Qed.

(** The builder puts a change where the path has an edit. *)
Lemma build_loop_starts self (P : Z -> Z -> Prop) path :
  edits_start P path ->
  forall fuel i results out,
  0 <= i -> changes_start P results ->
  build_loop self fuel path i results = Ok out ->
  changes_start P out.
Proof.
  intros Hpath.
  induction fuel as [|fuel IH]; intros i results out Hi Hres Hb; [done|].
  rewrite build_loop_S in Hb.
  destruct (i <? len path - 1); [|by injection Hb as <-].
  destruct (py_index path i) as [[x1 y1]| |] eqn:H1; [|done..].
  cbn [mbind result_bind] in Hb.
  destruct (py_index path (i + 1)) as [[x2 y2]| |] eqn:H2; [|done..].
  cbn [mbind result_bind] in Hb.
  apply py_index_Ok_lookup in H1; [|lia]. apply py_index_Ok_lookup in H2; [|lia].
  replace (Z.to_nat (i + 1)) with (S (Z.to_nat i)) in H2 by lia.
  destruct ((x1 <? x2) && (y1 <? y2)) eqn:Hdiag.
  - destruct (equal_block_end (S (Z.to_nat (len path - (i + 1)))) path (i + 1))
      as [j| |] eqn:Hj; [|done..].
    cbn [mbind result_bind] in Hb. apply equal_block_end_ge in Hj.
    destruct (py_index path j) as [[ex ey]| |]; [|done..].
    cbn [mbind result_bind] in Hb.
    apply IH in Hb; [done|lia|].
    apply Forall_app. split; [done|]. constructor; [|done]. by intros Hne.
  - assert (HP : P x1 y1).
    { apply (Hpath _ (x1, y1) (x2, y2) H1 H2). cbn [fst snd]. intros [? ?].
      apply andb_false_iff in Hdiag as [?%Z.ltb_ge|?%Z.ltb_ge]; lia. }
    destruct ((x2 =? x1) && (y1 <? y2));
      [|destruct ((x1 <? x2) && (y2 =? y1))].
    + apply IH in Hb; [done|lia|].
      apply Forall_app. split; [done|]. by constructor.
    + apply IH in Hb; [done|lia|].
      apply Forall_app. split; [done|]. by constructor.
    + apply IH in Hb; [done|lia|done].
Qed.

(** A Replace stands where its Delete stood. *)
Lemma merge_starts a b (P : Z -> Z -> Prop) k :
  forall ops x y x' y', (length ops <= k)%nat ->
  chain a b x y ops x' y' -> changes_start P ops ->
  changes_start P (_merge_replace_operations ops).
Proof.
  induction k as [|k IH]; intros ops x y x' y' Hlen Hch Hops.
  { destruct ops; [done|simpl in Hlen; lia]. }
  destruct ops as [|r [|r' rest]]; [done|done|].
  rewrite merge_cons_cons.
  inversion Hch as [|? ? ? ? ? ? Hok Hx Hy Hch1]; subst.
  inversion Hch1 as [|? ? ? ? ? ? Hok' Hx' Hy' Hch2]; subst.
  inversion Hops as [|? ? Hr Hops']; subst. inversion Hops' as [|? ? Hr' Hrest]; subst.
  destruct (bool_decide_reflect (type r = DELETE)) as [HD|HD];
    [destruct (bool_decide_reflect (type r' = INSERT)) as [HI|HI]|]; cbn [andb].
  - constructor; [|by apply (IH rest _ _ _ _ ltac:(simpl in Hlen; lia) Hch2)].
    intros _. cbn [old_start new_start].
    destruct Hok as (_ & _ & _ & _ & _ & _ & _ & HDel & _).
    destruct (HDel HD) as [Hnc _]. rewrite Hy', Hnc, Z.add_0_r.
    apply Hr. by rewrite HD.
  - constructor; [done|]. by apply (IH (r' :: rest) _ _ _ _ ltac:(simpl in *; lia) Hch1).
  - constructor; [done|]. by apply (IH (r' :: rest) _ _ _ _ ltac:(simpl in *; lia) Hch1).
Qed.

Lemma sound_path_le a b l :
  forall p q, sound_path a b (p :: l) -> last (p :: l) = Some q -> p.1 <= q.1 /\ p.2 <= q.2.
Proof.
  induction l as [|p' l IH]; intros p q Hs Hl.
  - injection Hl as <-. lia.
  - inversion Hs as [|? ? ? Hstep Hs']; subst.
    rewrite last_cons_cons in Hl. destruct (IH p' q Hs' Hl) as [? ?].
    destruct Hstep as [(? & ? & _)|[[? ?]|[? ?]]]; lia.
Qed.

(** A sound path that ends in the column in which it starts stays in
    that column. *)
Lemma sound_path_column a b l :
  forall p q, sound_path a b (p :: l) -> last (p :: l) = Some q -> p.1 = q.1 ->
  Forall (fun r => r.1 = q.1) (p :: l).
Proof.
  induction l as [|p' l IH]; intros p q Hs Hl Hp.
  - by constructor.
  - inversion Hs as [|? ? ? Hstep Hs']; subst.
    rewrite last_cons_cons in Hl.
    destruct (sound_path_le _ _ _ _ _ Hs' Hl) as [? _].
    constructor; [done|]. apply (IH p' q Hs' Hl).
    destruct Hstep as [(? & ? & _)|[[? ?]|[? ?]]]; lia.
Qed.

(** The same for the row. *)
Lemma sound_path_row a b l :
  forall p q, sound_path a b (p :: l) -> last (p :: l) = Some q -> p.2 = q.2 ->
  Forall (fun r => r.2 = q.2) (p :: l).
Proof.
  induction l as [|p' l IH]; intros p q Hs Hl Hp.
  - by constructor.
  - inversion Hs as [|? ? ? Hstep Hs']; subst.
    rewrite last_cons_cons in Hl.
    destruct (sound_path_le _ _ _ _ _ Hs' Hl) as [_ ?].
    constructor; [done|]. apply (IH p' q Hs' Hl).
    destruct Hstep as [(? & ? & _)|[[? ?]|[? ?]]]; lia.
Qed.

(** Round 0 ends where the common prefix of the two sequences ends. *)
Lemma common_prefix_end_a a extra e0 :
  0 <= e0 -> matched a (a ++ extra) 0 0 e0 -> closed a (a ++ extra) 0 e0 -> e0 = len a.
Proof.
  intros He0 Hm Hc. unfold len.
  destruct (Z.lt_trichotomy e0 (Z.of_nat (length a))) as [Hlt|[Heq|Hgt]]; [|done|].
  - exfalso. destruct (lookup_lt_is_Some_2 a (Z.to_nat e0)) as [s Hs]; [lia|].
    apply (Hc s Hs). rewrite Z.sub_0_r. by apply lookup_app_l_Some.
  - exfalso. destruct (Hm (Z.of_nat (length a))) as (c & Hc' & _); [lia|].
    apply lookup_lt_Some in Hc'. lia.
Qed.

Lemma common_prefix_end_b b extra e0 :
  0 <= e0 -> matched (b ++ extra) b 0 0 e0 -> closed (b ++ extra) b 0 e0 -> e0 = len b.
Proof.
  intros He0 Hm Hc. unfold len.
  destruct (Z.lt_trichotomy e0 (Z.of_nat (length b))) as [Hlt|[Heq|Hgt]]; [|done|].
  - exfalso. destruct (lookup_lt_is_Some_2 b (Z.to_nat e0)) as [s Hs]; [lia|].
    apply (Hc s); [by apply lookup_app_l_Some|by rewrite Z.sub_0_r].
  - exfalso. destruct (Hm (Z.of_nat (length b))) as (c & _ & Hc'); [lia|].
    rewrite Z.sub_0_r in Hc'. apply lookup_lt_Some in Hc'. lia.
Qed.

Section ChangesAtTheEnd.
Context (self : MyersDiff).
Hypothesis Hn : n self = len (processed_a self).
Hypothesis Hm : m self = len (processed_b self).

Lemma find_shortest_edit_script_shape :
  exists path e0 rest,
    _find_shortest_edit_script self = Ok path /\
    path = (if e0 =? 0 then (e0, e0) :: rest else (0, 0) :: (e0, e0) :: rest) /\
    0 <= e0 /\ matched (processed_a self) (processed_b self) 0 0 e0 /\
    closed (processed_a self) (processed_b self) 0 e0 /\
    sound_path (processed_a self) (processed_b self) ((e0, e0) :: rest) /\
    last ((e0, e0) :: rest) = Some (n self, m self).
Proof using Hn Hm.
  destruct (forward_search_ok self Hn Hm) as (trace & D & Hfs & _).
  pose proof (forward_search_matched self Hn Hm trace D Hfs) as Htm.
  destruct (_backtrack_sound self trace D Htm)
    as (path & Hbt & _ & _ & Hl & e0 & rest & Hp & He0 & Hm0 & Hc0 & Hs).
  exists path, e0, rest. split; [unfold _find_shortest_edit_script; by rewrite Hfs|].
  repeat split; try done.
  rewrite Hp in Hl. destruct (e0 =? 0); [done|]. by rewrite last_cons_cons in Hl.
Qed.

(** From a property of the edit steps of the path to the operations of
    [compute]. *)
Lemma compute_starts (P : Z -> Z -> Prop) :
  (forall path, _find_shortest_edit_script self = Ok path -> edits_start P path) ->
  forall ops, compute self = Ok ops -> changes_start P ops.
Proof using Hn Hm.
  intros Hpath ops Hc.
  destruct (find_shortest_edit_script_sound self Hn Hm)
    as (path & D & Hfind & Hs & Hh & Hl & He & _).
  unfold compute, _build_diff_results in Hc. rewrite Hfind in Hc.
  cbn [mbind result_bind] in Hc.
  destruct (build_loop_spec self path (n self) (m self) (S (Z.to_nat (len path))) 0 [] 0 0)
    as (raw & Hraw & Hch & _); [done|lia|by rewrite <- head_lookup|lia|lia| |lia|].
  { rewrite drop_0. exact (sound_path_good _ _ _ Hs). }
  rewrite Hraw in Hc. cbn [mbind result_bind app] in Hc. injection Hc as <-.
  apply (merge_starts (seq_a self) (seq_b self) P (length raw) raw 0 0 (n self) (m self));
    [done|done|].
  apply (build_loop_starts self P path (Hpath path Hfind)
           (S (Z.to_nat (len path))) 0 [] raw); [lia|constructor|done].
Qed.

(** Where [a] is the beginning of [b], the path has its edits in the
    last column. *)
Lemma edits_in_last_column extra path :
  processed_b self = processed_a self ++ extra ->
  _find_shortest_edit_script self = Ok path ->
  edits_start (fun x _ => x = n self) path.
Proof using Hn Hm.
  intros Hb Hpath.
  destruct find_shortest_edit_script_shape
    as (path' & e0 & rest & Hfind & Hp & He0 & Hm0 & Hc0 & Hs & Hl).
  rewrite Hpath in Hfind. injection Hfind as <-.
  rewrite Hb in Hm0, Hc0.
  pose proof (common_prefix_end_a _ _ _ He0 Hm0 Hc0) as He. rewrite <- Hn in He. subst e0.
  pose proof (sound_path_column _ _ _ _ _ Hs Hl eq_refl) as Hcol. cbn [fst] in Hcol.
  rewrite Forall_forall in Hcol.
  intros idx p q Hp' Hq Hnd.
  destruct (Z.eqb_spec (n self) 0) as [H0|H0]; subst path.
  - apply (Hcol p). by apply list_elem_of_lookup_2 in Hp'.
  - destruct idx as [|idx].
    + injection Hp' as <-. injection Hq as <-. cbn [fst snd] in Hnd. lia.
    + apply (Hcol p). apply list_elem_of_lookup_2 with idx. exact Hp'.
Qed.

(** Where [b] is the beginning of [a], the path has its edits in the
    last row. *)
Lemma edits_in_last_row extra path :
  processed_a self = processed_b self ++ extra ->
  _find_shortest_edit_script self = Ok path ->
  edits_start (fun _ y => y = m self) path.
Proof using Hn Hm.
  intros Ha Hpath.
  destruct find_shortest_edit_script_shape
    as (path' & e0 & rest & Hfind & Hp & He0 & Hm0 & Hc0 & Hs & Hl).
  rewrite Hpath in Hfind. injection Hfind as <-.
  rewrite Ha in Hm0, Hc0.
  pose proof (common_prefix_end_b _ _ _ He0 Hm0 Hc0) as He. rewrite <- Hm in He. subst e0.
  pose proof (sound_path_row _ _ _ _ _ Hs Hl eq_refl) as Hrow. cbn [snd] in Hrow.
  rewrite Forall_forall in Hrow.
  intros idx p q Hp' Hq Hnd.
  destruct (Z.eqb_spec (m self) 0) as [H0|H0]; subst path.
  - apply (Hrow p). by apply list_elem_of_lookup_2 in Hp'.
  - destruct idx as [|idx].
    + injection Hp' as <-. injection Hq as <-. cbn [fst snd] in Hnd. lia.
    + apply (Hrow p). apply list_elem_of_lookup_2 with idx. exact Hp'.
Qed.
End ChangesAtTheEnd.

(** ** Lines added or removed at the end *)

Lemma preprocess_sequence_app icase iws iblank l1 l2 :
  _preprocess_sequence icase iws iblank (l1 ++ l2)
  = _preprocess_sequence icase iws iblank l1 ++ _preprocess_sequence icase iws iblank l2.
Proof.
  induction l1 as [|line l1 IH]; [done|]. cbn [app _preprocess_sequence].
  destruct (iblank && is_empty (strip line)); [done|]. by rewrite IH.
Qed.

Section EngineEnd.
Context {regex : Regex} {difflib : Difflib}.

Lemma preprocess_lines_app options l1 l2 :
  _preprocess_lines options (l1 ++ l2)
  = _preprocess_lines options l1 ++ _preprocess_lines options l2.
Proof. unfold _preprocess_lines. apply omap_app. Qed.

Lemma engine_differ_appended options A extra :
  processed_b (engine_differ options A (A ++ extra))
  = processed_a (engine_differ options A (A ++ extra))
    ++ _preprocess_sequence (opt_ignore_case options) (opt_ignore_whitespace options)
         (opt_ignore_blank_lines options) (_preprocess_lines options extra).
Proof.
  cbn [engine_differ MyersDiff_init processed_a processed_b].
  by rewrite preprocess_lines_app, preprocess_sequence_app.
Qed.

Lemma engine_differ_truncated options B extra :
  processed_a (engine_differ options (B ++ extra) B)
  = processed_b (engine_differ options (B ++ extra) B)
    ++ _preprocess_sequence (opt_ignore_case options) (opt_ignore_whitespace options)
         (opt_ignore_blank_lines options) (_preprocess_lines options extra).
Proof.
  cbn [engine_differ MyersDiff_init processed_a processed_b].
  by rewrite preprocess_lines_app, preprocess_sequence_app.
Qed.

Lemma compare_lines_appended_starts options A extra ops :
  compare_lines options A (A ++ extra) = Ok ops ->
  changes_start (fun x _ => x = len (processed_a (engine_differ options A (A ++ extra)))) ops /\
  within (len (processed_a (engine_differ options A (A ++ extra))))
         (len (processed_b (engine_differ options A (A ++ extra)))) ops /\
  Forall shape_ok ops.
Proof.
  intros Hc.
  destruct (compare_lines_sound options A (A ++ extra))
    as (ops' & Hc' & Hcomp & Hch & He & _).
  rewrite Hc in Hc'. injection Hc' as <-.
  split; [|split].
  - apply (compute_starts (engine_differ options A (A ++ extra)) eq_refl eq_refl
             (fun x _ => x = len (processed_a (engine_differ options A (A ++ extra)))));
      [|done].
    intros path Hpath.
    apply (edits_in_last_column (engine_differ options A (A ++ extra)) eq_refl eq_refl
             _ path (engine_differ_appended options A extra) Hpath).
  - by apply chain_within in Hch.
  - pose proof (chain_ops_ok _ _ _ _ _ _ _ Hch) as Hok.
    rewrite Forall_forall in Hok, He. apply Forall_forall. intros r Hr.
    by eapply op_equal_shape; [apply Hok|apply He].
Qed.

Lemma compare_lines_truncated_starts options B extra ops :
  compare_lines options (B ++ extra) B = Ok ops ->
  changes_start (fun _ y => y = len (processed_b (engine_differ options (B ++ extra) B))) ops /\
  within (len (processed_a (engine_differ options (B ++ extra) B)))
         (len (processed_b (engine_differ options (B ++ extra) B))) ops /\
  Forall shape_ok ops.
Proof.
  intros Hc.
  destruct (compare_lines_sound options (B ++ extra) B)
    as (ops' & Hc' & Hcomp & Hch & He & _).
  rewrite Hc in Hc'. injection Hc' as <-.
  split; [|split].
  - apply (compute_starts (engine_differ options (B ++ extra) B) eq_refl eq_refl
             (fun _ y => y = len (processed_b (engine_differ options (B ++ extra) B))));
      [|done].
    intros path Hpath.
    apply (edits_in_last_row (engine_differ options (B ++ extra) B) eq_refl eq_refl
             _ path (engine_differ_truncated options B extra) Hpath).
  - by apply chain_within in Hch.
  - pose proof (chain_ops_ok _ _ _ _ _ _ _ Hch) as Hok.
    rewrite Forall_forall in Hok, He. apply Forall_forall. intros r Hr.
    by eapply op_equal_shape; [apply Hok|apply He].
Qed.

(** X23. Lines added at the end are insertions at the end: for all
    options and line lists, every operation that
    [compare_lines(A, A + extra)] returns is an Equal or an Insert whose
    [old_start] is the length of the first compared sequence; no line
    of [A] is reported as deleted or replaced, and nothing is inserted
    before the end of [A]. *)
Theorem compare_lines_appended (options : Options) (A extra : list string) :
  exists ops,
    compare_lines options A (A ++ extra) = Ok ops /\
    Forall (fun r => type r = EQUAL \/
                     (type r = INSERT /\
                      old_start r = len (processed_a (engine_differ options A (A ++ extra)))))
           ops.
Proof.
  destruct (compare_lines_sound options A (A ++ extra)) as (ops & Hc & _).
  exists ops. split; [done|].
  destruct (compare_lines_appended_starts options A extra ops Hc) as (Hst & Hw & Hsh).
  unfold changes_start, within in *. rewrite Forall_forall in Hst, Hw, Hsh.
  apply Forall_forall. intros r Hr.
  specialize (Hst r Hr). specialize (Hsh r Hr). destruct (Hw r Hr) as [Hle _].
  unfold shape_ok in Hsh.
  destruct (type r) eqn:Hty; [by left|right|exfalso|exfalso].
  - split; [done|]. by apply Hst.
  - specialize (Hst ltac:(done)). lia.
  - specialize (Hst ltac:(done)). lia.
Qed.

(** X24. Lines removed at the end are deletions at the end: for all
    options and line lists, every operation that
    [compare_lines(B + extra, B)] returns is an Equal or a Delete whose
    [new_start] is the length of the second compared sequence. *)
Theorem compare_lines_truncated (options : Options) (B extra : list string) :
  exists ops,
    compare_lines options (B ++ extra) B = Ok ops /\
    Forall (fun r => type r = EQUAL \/
                     (type r = DELETE /\
                      new_start r = len (processed_b (engine_differ options (B ++ extra) B))))
           ops.
Proof.
  destruct (compare_lines_sound options (B ++ extra) B) as (ops & Hc & _).
  exists ops. split; [done|].
  destruct (compare_lines_truncated_starts options B extra ops Hc) as (Hst & Hw & Hsh).
  unfold changes_start, within in *. rewrite Forall_forall in Hst, Hw, Hsh.
  apply Forall_forall. intros r Hr.
  specialize (Hst r Hr). specialize (Hsh r Hr). destruct (Hw r Hr) as [_ Hle].
  unfold shape_ok in Hsh.
  destruct (type r) eqn:Hty; [by left|exfalso|right|exfalso].
  - specialize (Hst ltac:(done)). lia.
  - split; [done|]. by apply Hst.
  - specialize (Hst ltac:(done)). lia.
Qed.

Lemma preprocess_lines_length options lines :
  opt_ignore_blank_lines options = false -> opt_ignore_line_patterns options = [] ->
  length (_preprocess_lines options lines) = length lines.
Proof.
  intros Hb Hp. unfold _preprocess_lines.
  induction lines as [|line lines IH]; [done|].
  cbn [omap list_omap]. unfold preprocess_engine_line at 1. rewrite Hb, Hp.
  cbn [andb]. rewrite bool_decide_eq_true_2 by done. cbn [negb andb].
  simpl. f_equal. apply IH.
Qed.

Lemma appended_change_map_none options A extra ops i :
  opt_ignore_blank_lines options = false -> opt_ignore_line_patterns options = [] ->
  compare_lines options A (A ++ extra) = Ok ops ->
  0 <= i < len A -> _build_change_map ops !! i = None.
Proof.
  intros Hb Hp Hc Hi.
  destruct (compare_lines_appended_starts options A extra ops Hc) as (Hst & _).
  destruct (_build_change_map ops !! i) as [c|] eqn:Hl; [exfalso|done].
  destruct (build_change_map_values _ _ _ Hl) as (r & Hr & Hty & Hos & _).
  unfold changes_start in Hst. rewrite Forall_forall in Hst.
  specialize (Hst r Hr Hty). cbn beta in Hst.
  cbn [engine_differ MyersDiff_init processed_a] in Hst. unfold len in Hst, Hi.
  rewrite Hb, preprocess_sequence_length, preprocess_lines_length in Hst by done.
  lia.
Qed.

(** X25. What a side adds at the end of the file is not in the merge:
    for all line lists, and all options that drop no line
    ([ignore_blank_lines] off and no [ignore_line_patterns]),
    [three_way_merge(base, base + e1, base + e2)] returns [(base, [])]
    within [len(base)] iterations, whatever [e1] and [e2] are. The
    changes are filed under the key [len(base)], which the loop never
    reaches. *)
Theorem three_way_merge_appended (options : Options) (base e1 e2 : list string)
    (fuel : nat) :
  opt_ignore_blank_lines options = false ->
  opt_ignore_line_patterns options = [] ->
  len base <= Z.of_nat fuel ->
  three_way_merge fuel options base (base ++ e1) (base ++ e2) = Ok (base, []).
Proof.
  intros Hb Hp Hfuel. unfold three_way_merge.
  destruct (compare_lines_sound options base (base ++ e1)) as (yd & Hyd & _).
  destruct (compare_lines_sound options base (base ++ e2)) as (td & Htd & _).
  rewrite Hyd, Htd. cbn [mbind result_bind].
  rewrite (merge_loop_untouched base); [by rewrite drop_0|..|lia|lia].
  intros j Hj. split.
  - by apply (appended_change_map_none options base e1 yd j).
  - by apply (appended_change_map_none options base e2 td j).
Qed.
End EngineEnd.

(** The theorem on appended lines at the base ["a"], to which one side
    adds ["x"] and the other ["y"]. *)
Lemma three_way_merge_appended_witness :
  opt_ignore_blank_lines no_options = false /\
  opt_ignore_line_patterns no_options = [] /\
  len ["a"%string] <= Z.of_nat 1 /\
  three_way_merge (regex := null_regex) (difflib := null_difflib) 1 no_options
    ["a"%string] (["a"%string] ++ ["x"%string]) (["a"%string] ++ ["y"%string])
  = Ok (["a"%string], []).
Proof.
  assert (Hfuel : len ["a"%string] <= Z.of_nat 1) by (vm_compute; discriminate).
  split; [reflexivity|]. split; [reflexivity|]. split; [exact Hfuel|].
  exact (three_way_merge_appended (regex := null_regex) (difflib := null_difflib)
           no_options ["a"%string] ["x"%string] ["y"%string] 1 eq_refl eq_refl Hfuel).
Defined.

(** ** Merging truncations *)

Lemma build_change_map_is_Some ops r :
  r ∈ ops -> type r <> EQUAL -> is_Some (_build_change_map ops !! old_start r).
Proof.
  induction ops as [|r0 ops IH] using rev_ind; [by intros ?%elem_of_nil|].
  intros Hin Hty. rewrite build_change_map_snoc.
  apply elem_of_app in Hin as [Hin|Hin%list_elem_of_singleton].
  - destruct (bool_decide (type r0 <> EQUAL)); [|by apply IH].
    destruct (decide (old_start r0 = old_start r)) as [->|Hne].
    + rewrite lookup_insert_eq. eauto.
    + rewrite lookup_insert_ne by done. by apply IH.
  - subst r0. rewrite bool_decide_eq_true_2 by done. rewrite lookup_insert_eq. eauto.
Qed.

(** Every old position is inside one operation. *)
Lemma chain_covers a b x y ops x' y' i :
  chain a b x y ops x' y' -> x <= i < x' ->
  exists r, r ∈ ops /\ old_start r <= i < old_start r + old_count r.
Proof.
  induction 1 as [|x y r ops x' y' Hok Hx Hy Hch IH]; intros Hi; [lia|].
  destruct (decide (i < x + old_count r)) as [Hlt|Hge].
  - exists r. split; [left|lia].
  - destruct IH as (r' & Hin & Hr'); [lia|]. exists r'. split; [by right|done].
Qed.

(** With deletions at the end only, the operations before them are on
    the main diagonal. *)
Lemma truncated_chain a b mm x y ops x' y' :
  chain a b x y ops x' y' ->
  Forall (fun r => type r = EQUAL \/ (type r = DELETE /\ new_start r = mm)) ops ->
  Forall shape_ok ops -> y' <= mm ->
  x = y \/ (y = mm /\ mm <= x) ->
  Forall (fun r => (type r = EQUAL -> old_start r = new_start r) /\
                   (type r = DELETE -> mm <= old_start r)) ops.
Proof.
  induction 1 as [|x y r ops x' y' Hok Hx Hy Hch IH]; intros Hty Hsh Hle Hinv;
    [constructor|].
  apply Forall_cons in Hty as [Htr Hty]. apply Forall_cons in Hsh as [Hsr Hsh].
  pose proof (chain_le _ _ _ _ _ _ _ Hch) as [_ Hyle].
  unfold shape_ok in Hsr.
  destruct Htr as [HE|[HD Hns]].
  - rewrite HE in Hsr. constructor.
    + split; [intros _; lia|by rewrite HE].
    + apply IH; [done|done|done|lia].
  - rewrite HD in Hsr. constructor.
    + split; [by rewrite HD|intros _; lia].
    + apply IH; [done|done|done|lia].
Qed.

Lemma merge_loop_truncated base yc tc ky kt :
  0 <= ky <= len base -> 0 <= kt <= len base ->
  (forall j, 0 <= j < ky -> yc !! j = None) ->
  (forall j, ky <= j < len base -> yc !! j = Some (mkChange DELETE 1 [])) ->
  (forall j, 0 <= j < kt -> tc !! j = None) ->
  (forall j, kt <= j < len base -> tc !! j = Some (mkChange DELETE 1 [])) ->
  forall fuel i merged conflicts,
  0 <= i -> len base - i <= Z.of_nat fuel ->
  merge_loop fuel base yc tc i merged conflicts
  = Ok (merged ++ drop (Z.to_nat i) (take (Z.to_nat (Z.min ky kt)) base), conflicts).
Proof.
  intros Hky Hkt Hy0 Hy1 Ht0 Ht1.
  induction fuel as [|fuel IH]; intros i merged conflicts Hi Hfuel;
    rewrite merge_loop_unfold; destruct (Z.ltb_spec i (len base)) as [Hlt|Hge];
    try lia.
  - rewrite drop_ge by (rewrite length_take; unfold len in *; lia). by rewrite app_nil_r.
  - unfold merge_step.
    destruct (decide (i < ky)) as [Hiy|Hiy]; destruct (decide (i < kt)) as [Hit|Hit].
    + rewrite Hy0, Ht0 by lia.
      destruct (lookup_lt_is_Some_2 base (Z.to_nat i)) as [line Hline];
        [unfold len in *; lia|].
      rewrite (py_index_lookup base i line Hi Hline).
      cbn [mbind result_bind mret result_ret].
      rewrite IH by lia.
      assert (Hline' : take (Z.to_nat (Z.min ky kt)) base !! Z.to_nat i = Some line).
      { rewrite lookup_take_lt by lia. done. }
      rewrite (drop_S _ _ _ Hline').
      replace (Z.to_nat (i + 1)) with (S (Z.to_nat i)) by lia.
      by rewrite <- app_assoc.
    + rewrite Hy0, Ht1 by lia. cbn [mbind result_bind mret result_ret ch_new_lines ch_old_count].
      change (or_1 1) with 1. rewrite IH by lia. rewrite app_nil_r.
      by rewrite !drop_ge by (rewrite length_take; unfold len in *; lia).
    + rewrite Hy1, Ht0 by lia. cbn [mbind result_bind mret result_ret ch_new_lines ch_old_count].
      change (or_1 1) with 1. rewrite IH by lia. rewrite app_nil_r.
      by rewrite !drop_ge by (rewrite length_take; unfold len in *; lia).
    + rewrite Hy1, Ht1 by lia. cbn [ch_new_lines ch_old_count].
      rewrite bool_decide_eq_true_2 by done.
      cbn [mbind result_bind mret result_ret]. change (Z.max 1 1) with 1.
      rewrite IH by lia. rewrite app_nil_r.
      by rewrite !drop_ge by (rewrite length_take; unfold len in *; lia).
  - rewrite drop_ge by (rewrite length_take; unfold len in *; lia). by rewrite app_nil_r.
Qed.

Section MergeTruncated.
Context {regex : Regex} {difflib : Difflib}.

(** The change map of a truncation: nothing before the cut, one
    deletion of one line at each position after it. *)
Lemma truncated_change_map options B extra ops :
  opt_ignore_blank_lines options = false -> opt_ignore_line_patterns options = [] ->
  compare_lines options (B ++ extra) B = Ok ops ->
  (forall j, 0 <= j < len B -> _build_change_map ops !! j = None) /\
  (forall j, len B <= j < len (B ++ extra) ->
     _build_change_map ops !! j = Some (mkChange DELETE 1 [])).
Proof.
  intros Hb Hp Hc.
  destruct (compare_lines_truncated_starts options B extra ops Hc) as (Hst & Hw & Hsh).
  destruct (compare_lines_sound options (B ++ extra) B) as (ops' & Hc' & _ & Hch & _).
  rewrite Hc in Hc'. injection Hc' as <-.
  assert (Hla : len (processed_a (engine_differ options (B ++ extra) B)) = len (B ++ extra)).
  { cbn [engine_differ MyersDiff_init processed_a]. unfold len.
    by rewrite Hb, preprocess_sequence_length, preprocess_lines_length. }
  assert (Hlb : len (processed_b (engine_differ options (B ++ extra) B)) = len B).
  { cbn [engine_differ MyersDiff_init processed_b]. unfold len.
    by rewrite Hb, preprocess_sequence_length, preprocess_lines_length. }
  rewrite Hla, Hlb in Hch, Hw. rewrite Hlb in Hst.
  assert (Hkinds : Forall (fun r => type r = EQUAL \/ (type r = DELETE /\ new_start r = len B))
                     ops).
  { unfold changes_start, within in *. rewrite Forall_forall in Hst, Hw, Hsh.
    apply Forall_forall. intros r Hr.
    specialize (Hst r Hr). specialize (Hsh r Hr). destruct (Hw r Hr) as [_ Hle].
    unfold shape_ok in Hsh.
    destruct (type r) eqn:Hty; [by left|exfalso|right|exfalso].
    - specialize (Hst ltac:(done)). lia.
    - split; [done|]. by apply Hst.
    - specialize (Hst ltac:(done)). lia. }
  assert (Hdiag : Forall (fun r => (type r = EQUAL -> old_start r = new_start r) /\
                                  (type r = DELETE -> len B <= old_start r)) ops).
  { apply (truncated_chain _ _ (len B) _ _ _ _ _ Hch Hkinds Hsh); lia. }
  rewrite Forall_forall in Hkinds, Hdiag, Hsh. unfold within in Hw. rewrite Forall_forall in Hw.
  split.
  - intros j Hj.
    destruct (_build_change_map ops !! j) as [c|] eqn:Hl; [exfalso|done].
    destruct (build_change_map_values _ _ _ Hl) as (r & Hr & Hty & Hos & _).
    destruct (Hkinds r Hr) as [HE|[HD _]]; [done|].
    destruct (Hdiag r Hr) as [_ Hge]. specialize (Hge HD). lia.
  - intros j Hj.
    destruct (chain_covers _ _ _ _ _ _ _ j Hch) as (r & Hr & Hin); [unfold len in *; lia|].
    pose proof (Hsh r Hr) as Hs. unfold shape_ok in Hs.
    destruct (Hkinds r Hr) as [HE|[HD _]].
    + exfalso. destruct (Hdiag r Hr) as [Heq _]. specialize (Heq HE).
      destruct (Hw r Hr) as [_ Hle]. rewrite HE in Hs. lia.
    + rewrite HD in Hs. assert (Hj' : old_start r = j) by lia.
      destruct (build_change_map_is_Some ops r Hr) as [c Hc0]; [by rewrite HD|].
      rewrite Hj' in Hc0. rewrite Hc0. f_equal.
      destruct (build_change_map_values _ _ _ Hc0) as (r' & Hr' & Hty' & _ & ->).
      pose proof (Hsh r' Hr') as Hs'. unfold shape_ok in Hs'.
      destruct (Hkinds r' Hr') as [HE'|[HD' _]]; [done|].
      rewrite HD' in Hs'. destruct Hs' as (Hoc & _ & Hnl).
      unfold change_of. by rewrite HD', Hoc, Hnl.
Qed.

(** X26. Where each side only cuts lines off the end of the base, the
    merge is the shorter of the two, with no conflict: for all line
    lists, all [k1] and [k2], and all options that drop no line,
    [three_way_merge(base, base[:k1], base[:k2])] returns
    [(base[:min(k1, k2)], [])] within [len(base)] iterations. *)
Theorem three_way_merge_truncated (options : Options) (base : list string) (k1 k2 : nat)
    (fuel : nat) :
  opt_ignore_blank_lines options = false ->
  opt_ignore_line_patterns options = [] ->
  len base <= Z.of_nat fuel ->
  three_way_merge fuel options base (take k1 base) (take k2 base)
  = Ok (take (Nat.min k1 k2) base, []).
Proof.
  intros Hb Hp Hfuel. unfold three_way_merge.
  destruct (compare_lines_sound options base (take k1 base)) as (yd & Hyd & _).
  destruct (compare_lines_sound options base (take k2 base)) as (td & Htd & _).
  rewrite Hyd, Htd. cbn [mbind result_bind].
  rewrite <- (take_drop k1 base) in Hyd at 1.
  rewrite <- (take_drop k2 base) in Htd at 1.
  destruct (truncated_change_map options _ _ yd Hb Hp Hyd) as [Hy0 Hy1].
  destruct (truncated_change_map options _ _ td Hb Hp Htd) as [Ht0 Ht1].
  rewrite take_drop in Hy1, Ht1.
  rewrite (merge_loop_truncated base _ _ (len (take k1 base)) (len (take k2 base)));
    try done; try lia; try (unfold len; rewrite length_take; lia).
  rewrite drop_0. cbn [app]. do 2 f_equal.
  unfold len. rewrite !length_take.
  destruct (Nat.le_ge_cases (Nat.min k1 k2) (length base)) as [Hle|Hge].
  - f_equal. lia.
  - by rewrite !take_ge by lia.
Qed.
End MergeTruncated.

(** The theorem on truncations at the base ["a", "b", "c"], of which
    one side keeps two lines and the other one. *)
Lemma three_way_merge_truncated_witness :
  opt_ignore_blank_lines no_options = false /\
  opt_ignore_line_patterns no_options = [] /\
  len ["a"; "b"; "c"]%string <= Z.of_nat 3 /\
  three_way_merge (regex := null_regex) (difflib := null_difflib) 3 no_options
    ["a"; "b"; "c"]%string (take 2 ["a"; "b"; "c"]%string) (take 1 ["a"; "b"; "c"]%string)
  = Ok (take (Nat.min 2 1) ["a"; "b"; "c"]%string, []).
Proof.
  assert (Hfuel : len ["a"; "b"; "c"]%string <= Z.of_nat 3) by (vm_compute; discriminate).
  split; [reflexivity|]. split; [reflexivity|]. split; [exact Hfuel|].
  exact (three_way_merge_truncated (regex := null_regex) (difflib := null_difflib)
           no_options ["a"; "b"; "c"]%string 2 1 3 eq_refl eq_refl Hfuel).
Defined.

(** ** Normalisation is for comparing only *)

(** X27. Sequences that differ only in what the flags ignore: for all
    non-empty [A] and all [B] whose lines are the same after the case
    and white-space normalisation chosen ([ignore_blank_lines] off),
    [myers_diff(A, B)] is one Equal over everything, and it carries the
    lines of [A] and of [B] as they were given. *)
Theorem myers_diff_normalised_equal (A B : list string) (icase iws : bool) :
  _preprocess_sequence icase iws false A = _preprocess_sequence icase iws false B ->
  A <> [] ->
  myers_diff A B icase iws false = Ok [mkDiffResult EQUAL 0 (len A) 0 (len A) A B].
Proof.
  intros Hsame Hne. unfold myers_diff.
  rewrite (compute_same (MyersDiff_init A B icase iws false) eq_refl eq_refl Hsame).
  cbn [MyersDiff_init n seq_a seq_b processed_a].
  assert (Hla : len (_preprocess_sequence icase iws false A) = len A).
  { unfold len. by rewrite preprocess_sequence_length. }
  assert (Hlb : len B = len A).
  { unfold len. rewrite <- (preprocess_sequence_length icase iws B), <- Hsame.
    by rewrite preprocess_sequence_length. }
  rewrite Hla.
  destruct (Z.eqb_spec (len A) 0) as [H0|H0].
  - destruct A; [done|]. unfold len in H0. simpl in H0. lia.
  - rewrite py_slice_all. rewrite <- Hlb at 3. by rewrite py_slice_all.
Qed.

(** The theorem at the lines of the test on case: ["Hello World"] and
    ["hello world"] with [ignore_case]. *)
Lemma myers_diff_normalised_equal_witness :
  _preprocess_sequence true false false ["Hello World"%string]
  = _preprocess_sequence true false false ["hello world"%string] /\
  ["Hello World"%string] <> [] /\
  myers_diff ["Hello World"%string] ["hello world"%string] true false false
  = Ok [mkDiffResult EQUAL 0 (len ["Hello World"%string]) 0 (len ["Hello World"%string])
          ["Hello World"%string] ["hello world"%string]].
Proof.
  assert (Hsame : _preprocess_sequence true false false ["Hello World"%string]
                  = _preprocess_sequence true false false ["hello world"%string])
    by reflexivity.
  assert (Hne : ["Hello World"%string] <> []) by discriminate.
  split; [exact Hsame|]. split; [exact Hne|].
  exact (myers_diff_normalised_equal ["Hello World"%string] ["hello world"%string]
           true false Hsame Hne).
Defined.

Section EngineText.
Context {regex : Regex} {difflib : Difflib}.

Lemma preprocess_lines_plain options lines :
  opt_ignore_blank_lines options = false ->
  opt_ignore_leading_whitespace options = false ->
  opt_ignore_trailing_whitespace options = false ->
  opt_ignore_comments options = false ->
  opt_ignore_line_patterns options = [] ->
  _preprocess_lines options lines = lines.
Proof.
  intros Hb Hl Ht Hc Hp. unfold _preprocess_lines.
  induction lines as [|line lines IH]; [done|].
  cbn [omap list_omap]. unfold preprocess_engine_line at 1. rewrite Hb, Hl, Ht, Hc, Hp.
  cbn [andb]. rewrite bool_decide_eq_true_2 by done. cbn [negb andb].
  simpl. f_equal. apply IH.
Qed.

(** X28. With [ignore_case], [ignore_whitespace], [fuzzy_matching] and
    [moving_block_detection] set in any way and the other options off,
    the operations that [compare_lines] returns still hold the two
    inputs as they were given: their [old_lines], concatenated in
    order, are [A], and their [new_lines] are [B]. *)
Theorem compare_lines_keeps_text (options : Options) (A B : list string) :
  opt_ignore_blank_lines options = false ->
  opt_ignore_leading_whitespace options = false ->
  opt_ignore_trailing_whitespace options = false ->
  opt_ignore_comments options = false ->
  opt_ignore_line_patterns options = [] ->
  exists ops,
    compare_lines options A B = Ok ops /\
    concat (old_lines <$> ops) = A /\
    concat (new_lines <$> ops) = B.
Proof.
  intros Hb Hl Ht Hc Hp.
  destruct (compare_lines_sound options A B) as (ops & Hcl & _ & Hch & _).
  exists ops. split; [done|].
  destruct (chain_concat _ _ _ _ _ _ _ Hch) as [Ha Hb']; [lia..|].
  cbn [engine_differ MyersDiff_init processed_a processed_b] in Ha, Hb'.
  unfold len in Ha, Hb'. rewrite Hb, !preprocess_sequence_length in Ha, Hb'.
  rewrite !preprocess_lines_plain in Ha, Hb' by done.
  fold (len A) in Ha. fold (len B) in Hb'.
  by rewrite py_slice_all in Ha, Hb'.
Qed.
End EngineText.

(** The theorem at the lines ["Hello"] and ["hello"] compared with
    [ignore_case]. *)
Lemma compare_lines_keeps_text_witness :
  opt_ignore_blank_lines ignore_case_options = false /\
  opt_ignore_leading_whitespace ignore_case_options = false /\
  opt_ignore_trailing_whitespace ignore_case_options = false /\
  opt_ignore_comments ignore_case_options = false /\
  opt_ignore_line_patterns ignore_case_options = [] /\
  exists ops,
    compare_lines (regex := null_regex) (difflib := null_difflib) ignore_case_options
      ["Hello"%string] ["hello"%string] = Ok ops /\
    concat (old_lines <$> ops) = ["Hello"%string] /\
    concat (new_lines <$> ops) = ["hello"%string].
Proof.
  do 5 (split; [reflexivity|]).
  apply (compare_lines_keeps_text (regex := null_regex) (difflib := null_difflib)
           ignore_case_options ["Hello"%string] ["hello"%string]); reflexivity.
Defined.

(** ** The leading block *)

Lemma common_prefix_lookup a :
  forall b (j : nat), (j < common_prefix a b)%nat ->
  exists c, a !! j = Some c /\ b !! j = Some c.
Proof.
  induction a as [|x a IH]; intros [|y b] j Hj; simpl in Hj; try lia.
  destruct (String.eqb_spec x y) as [->|Hne]; [|lia].
  destruct j as [|j]; [by exists y|]. simpl. apply IH. lia.
Qed.

Lemma common_prefix_stop a :
  forall b c, a !! common_prefix a b = Some c -> b !! common_prefix a b = Some c -> False.
Proof.
  induction a as [|x a IH]; intros [|y b] c Ha Hb; simpl in *; try done.
  destruct (String.eqb_spec x y) as [->|Hne].
  - simpl in *. by apply (IH b c).
  - simpl in *. congruence.
Qed.

Lemma common_prefix_matched a b : matched a b 0 0 (Z.of_nat (common_prefix a b)).
Proof.
  intros i Hi. rewrite Z.sub_0_r.
  destruct (common_prefix_lookup a b (Z.to_nat i)) as (c & Ha & Hb); [lia|]. eauto.
Qed.

Lemma common_prefix_closed a b : closed a b 0 (Z.of_nat (common_prefix a b)).
Proof.
  intros s Ha Hb. rewrite Z.sub_0_r, Nat2Z.id in *. by apply (common_prefix_stop a b s).
Qed.

(** There is one place at which the diagonal from the origin stops. *)
Lemma prefix_end_unique a b e1 e2 :
  0 <= e1 -> 0 <= e2 ->
  matched a b 0 0 e1 -> closed a b 0 e1 -> matched a b 0 0 e2 -> closed a b 0 e2 ->
  e1 = e2.
Proof.
  intros H1 H2 Hm1 Hc1 Hm2 Hc2.
  destruct (Z.lt_trichotomy e1 e2) as [Hlt|[Heq|Hgt]]; [exfalso|done|exfalso].
  - destruct (Hm2 e1) as (c & Ha & Hb); [lia|]. by apply (Hc1 c).
  - destruct (Hm1 e2) as (c & Ha & Hb); [lia|]. by apply (Hc2 c).
Qed.

Lemma merge_head_equal ops h :
  head (_merge_replace_operations ops) = Some h -> type h = EQUAL ->
  exists r, head ops = Some r /\ type r = EQUAL.
Proof.
  destruct ops as [|r [|r' rest]]; [done|simpl; intros [= <-] ?; eauto|].
  rewrite merge_cons_cons.
  destruct (bool_decide (type r = DELETE) && bool_decide (type r' = INSERT)).
  - simpl. by intros [= <-] ?.
  - simpl. intros [= <-] ?. eauto.
Qed.

Lemma merge_equal_head r ops :
  type r = EQUAL ->
  _merge_replace_operations (r :: ops) = r :: _merge_replace_operations ops.
Proof.
  intros Hr. destruct ops as [|r' rest]; [done|].
  rewrite merge_cons_cons. by rewrite (bool_decide_eq_false_2 (type r = DELETE)) by congruence.
Qed.

Lemma sound_path_head_step a b p q rest :
  sound_path a b (p :: q :: rest) -> is_match_run a b p q \/ is_edit p q.
Proof. by inversion 1. Qed.

Section LeadingBlock.
Context (self : MyersDiff).
Hypothesis Hn : n self = len (processed_a self).
Hypothesis Hm : m self = len (processed_b self).

(** The first operation of [compute] where the two processed sequences
    begin alike. *)
Lemma compute_leading_block :
  let p := Z.of_nat (common_prefix (processed_a self) (processed_b self)) in
  0 < p ->
  exists rest,
    compute self = Ok (mkDiffResult EQUAL 0 p 0 p (py_slice (seq_a self) 0 p)
                         (py_slice (seq_b self) 0 p) :: rest) /\
    forall r, head rest = Some r -> type r <> EQUAL.
Proof using Hn Hm.
  intros p Hp.
  destruct (find_shortest_edit_script_shape self Hn Hm)
    as (path & e0 & rest & Hfind & Hpath & He0 & Hm0 & Hc0 & Hs & Hl).
  assert (e0 = p) as ->.
  { apply (prefix_end_unique (processed_a self) (processed_b self)); try done; [lia| |].
    - apply common_prefix_matched.
    - apply common_prefix_closed. }
  destruct (Z.eqb_spec p 0) as [|_]; [lia|].
  assert (Hlast : last path = Some (n self, m self)).
  { by rewrite Hpath, last_cons_cons. }
  assert (Hgood : good_path ((p, p) :: rest)) by exact (sound_path_good _ _ _ Hs).
  assert (Hlen : len path = 2 + len rest).
  { rewrite Hpath. unfold len. simpl. lia. }
  unfold compute, _build_diff_results. rewrite Hfind. cbn [mbind result_bind].
  rewrite build_loop_S.
  destruct (Z.ltb_spec 0 (len path - 1)) as [_|Hge]; [|unfold len in *; lia].
  rewrite (py_index_lookup path 0 (0, 0)) by (by rewrite ?Hpath || lia).
  cbn [mbind result_bind].
  rewrite (py_index_lookup path (0 + 1) (p, p)) by (by rewrite ?Hpath || lia).
  cbn [mbind result_bind].
  destruct (Z.ltb_spec 0 p) as [_|?]; [|lia]. cbn [andb].
  assert (Hend : equal_block_end (S (Z.to_nat (len path - (0 + 1)))) path (0 + 1) = Ok 1).
  { rewrite equal_block_end_S.
    destruct (Z.ltb_spec (0 + 1) (len path - 1)) as [Hlt|Hge]; [|done].
    rewrite (py_index_lookup path (0 + 1) (p, p)) by (by rewrite ?Hpath || lia).
    cbn [mbind result_bind].
    destruct rest as [|[xq yq] rest']; [unfold len in *; simpl in *; lia|].
    rewrite (py_index_lookup path (0 + 1 + 1) (xq, yq)) by (by rewrite ?Hpath || lia).
    cbn [mbind result_bind].
    destruct (sound_path_head_step _ _ _ _ _ Hs) as [(Hlt' & _ & Hmr)|[[Hx Hy]|[Hx Hy]]];
      cbn [fst snd] in *.
    - exfalso. destruct (Hmr p) as (c & Ha & Hb); [lia|].
      apply (Hc0 c Ha). by replace (p - 0) with (p - (p - p)) by lia.
    - subst xq yq. destruct (Z.eqb_spec p (p + 1)) as [Hbad|_]; [lia|done].
    - subst xq yq. destruct (Z.eqb_spec p (p + 1)) as [Hbad|_]; [lia|].
      by rewrite andb_false_r. }
  rewrite Hend. cbn [mbind result_bind].
  rewrite (py_index_lookup path 1 (p, p)) by (by rewrite ?Hpath || lia).
  cbn [mbind result_bind app]. rewrite !Z.sub_0_r.
  set (first := mkDiffResult EQUAL 0 p 0 p (py_slice (seq_a self) 0 p)
                  (py_slice (seq_b self) 0 p)).
  assert (Hdrop : drop (Z.to_nat 1) path = (p, p) :: rest) by (by rewrite Hpath).
  destruct rest as [|[xq yq] rest'].
  - (* the path ends with the block *)
    exists []. split; [|done].
    destruct (Z.to_nat (len path)) as [|fuel] eqn:Hfuel; [unfold len in *; lia|].
    rewrite build_loop_S.
    destruct (Z.ltb_spec 1 (len path - 1)) as [Hlt|_];
      [unfold len in *; simpl in *; lia|done].
  - (* an edit follows *)
    destruct (Z.to_nat (len path)) as [|fuel] eqn:Hfuel; [unfold len in *; lia|].
    rewrite build_loop_S.
    destruct (Z.ltb_spec 1 (len path - 1)) as [_|Hge]; [|unfold len in *; simpl in *; lia].
    rewrite (py_index_lookup path 1 (p, p)) by (by rewrite ?Hpath || lia).
    cbn [mbind result_bind].
    rewrite (py_index_lookup path (1 + 1) (xq, yq)) by (by rewrite ?Hpath || lia).
    cbn [mbind result_bind].
    assert (Hg2 : good_path (drop (Z.to_nat (1 + 1)) path)).
    { rewrite Hpath. simpl. by inversion Hgood. }
    assert (Hq : path !! Z.to_nat (1 + 1) = Some (xq, yq)) by (by rewrite Hpath).
    assert (Hqpos : p <= xq /\ p <= yq).
    { destruct (sound_path_head_step _ _ _ _ _ Hs) as [(? & ? & _)|[[? ?]|[? ?]]];
        cbn [fst snd] in *; lia. }
    destruct (sound_path_head_step _ _ _ _ _ Hs) as [(Hlt' & _ & Hmr)|[[Hx Hy]|[Hx Hy]]];
      cbn [fst snd] in *.
    { exfalso. destruct (Hmr p) as (c & Ha & Hb); [lia|].
      apply (Hc0 c Ha). by replace (p - 0) with (p - (p - p)) by lia. }
    all: subst xq yq.
    + destruct (Z.ltb_spec p p); [lia|]. cbn [andb]. rewrite Z.eqb_refl.
      destruct (Z.ltb_spec p (p + 1)); [|lia]. cbn [andb].
      destruct (build_loop_spec self path (n self) (m self) fuel (1 + 1)
                  ([first] ++ [mkDiffResult INSERT p 0 p 1 [] (py_slice (seq_b self) p (p + 1))])
                  p (p + 1))
        as (ops' & -> & _); [done|lia|done|lia|lia|done|unfold len in *; lia|].
      cbn [mbind result_bind mret result_ret app].
      eexists. split; [by rewrite merge_equal_head|].
      intros r Hr HE. destruct (merge_head_equal _ _ Hr HE) as (r0 & [= <-] & Hty). done.
    + destruct (Z.ltb_spec p (p + 1)); [|lia]. destruct (Z.ltb_spec p p); [lia|].
      cbn [andb]. destruct (Z.eqb_spec (p + 1) p) as [Hbad|_]; [lia|].
      cbn [andb]. rewrite Z.eqb_refl.
      cbn [andb].
      destruct (build_loop_spec self path (n self) (m self) fuel (1 + 1)
                  ([first] ++ [mkDiffResult DELETE p 1 p 0 (py_slice (seq_a self) p (p + 1)) []])
                  (p + 1) p)
        as (ops' & -> & _); [done|lia|done|lia|lia|done|unfold len in *; lia|].
      cbn [mbind result_bind mret result_ret app].
      eexists. split; [by rewrite merge_equal_head|].
      intros r Hr HE. destruct (merge_head_equal _ _ Hr HE) as (r0 & [= <-] & Hty). done.
Qed.
End LeadingBlock.

(** X29. A diff begins with the whole common beginning: for all options
    and line lists, when the two compared (normalised) sequences have a
    longest common prefix of [p > 0] lines, the first operation that
    [compare_lines] returns is the Equal of exactly these [p] lines, and
    the operation after it, if there is one, is not an Equal. *)
Theorem compare_lines_leading_block {regex : Regex} {difflib : Difflib}
    (options : Options) (A B : list string) :
  let p := Z.of_nat (common_prefix (processed_a (engine_differ options A B))
                       (processed_b (engine_differ options A B))) in
  0 < p ->
  exists rest,
    compare_lines options A B
    = Ok (mkDiffResult EQUAL 0 p 0 p (py_slice (_preprocess_lines options A) 0 p)
            (py_slice (_preprocess_lines options B) 0 p) :: rest) /\
    forall r, head rest = Some r -> type r <> EQUAL.
Proof.
  intros p Hp.
  destruct (compute_leading_block (engine_differ options A B) eq_refl eq_refl Hp)
    as (rest & Hc & Hrest).
  exists rest. split; [|done].
  destruct (compare_lines_sound options A B) as (ops & Hcl & Hcomp & _).
  rewrite Hcl, <- Hcomp. exact Hc.
Qed.

(** The theorem at the lines ["a", "b"] and ["a", "c"], whose common
    beginning is one line. *)
Lemma compare_lines_leading_block_witness :
  0 < Z.of_nat (common_prefix
                  (processed_a (engine_differ (regex := null_regex) no_options
                                  ["a"; "b"]%string ["a"; "c"]%string))
                  (processed_b (engine_differ (regex := null_regex) no_options
                                  ["a"; "b"]%string ["a"; "c"]%string))) /\
  exists rest,
    compare_lines (regex := null_regex) (difflib := null_difflib) no_options
      ["a"; "b"]%string ["a"; "c"]%string
    = Ok (mkDiffResult EQUAL 0 1 0 1 ["a"%string] ["a"%string] :: rest) /\
    forall r, head rest = Some r -> type r <> EQUAL.
Proof.
  assert (Hp : 0 < Z.of_nat (common_prefix
                  (processed_a (engine_differ (regex := null_regex) no_options
                                  ["a"; "b"]%string ["a"; "c"]%string))
                  (processed_b (engine_differ (regex := null_regex) no_options
                                  ["a"; "b"]%string ["a"; "c"]%string))))
    by (vm_compute; reflexivity).
  split; [exact Hp|].
  exact (compare_lines_leading_block (regex := null_regex) (difflib := null_difflib)
           no_options ["a"; "b"]%string ["a"; "c"]%string Hp).
Defined.

(** ** One list the beginning of the other *)

Lemma common_prefix_app a extra : common_prefix a (a ++ extra) = length a.
Proof. induction a as [|x a IH]; [by destruct extra|]. simpl. by rewrite String.eqb_refl, IH. Qed.

Lemma common_prefix_app_l b extra : common_prefix (b ++ extra) b = length b.
Proof.
  induction b as [|x b IH]; [by destruct extra|]. simpl. by rewrite String.eqb_refl, IH.
Qed.

(** A chain that stays in one column is a run of insertions. *)
Lemma chain_column a b x :
  forall ops y y', chain a b x y ops x y' -> Forall shape_ok ops -> 0 <= y ->
  ops = (fun j => mkDiffResult INSERT x 0 j 1 [] (py_slice b j (j + 1))) <$> seqZ y (y' - y).
Proof.
  induction ops as [|r ops IH]; intros y y' Hch Hsh Hy.
  - inversion Hch; subst. by rewrite Z.sub_diag.
  - inversion Hch as [|? ? ? ? ? ? Hok Hos Hns Hch']; subst.
    apply Forall_cons in Hsh as [Hsr Hsh].
    pose proof (chain_le _ _ _ _ _ _ _ Hch') as [Hle1 Hle2].
    destruct Hok as (_ & _ & Hoc & Hnc & Hol & Hnl & _).
    unfold shape_ok in Hsr.
    destruct (type r) eqn:Hty; [lia| |lia|lia].
    destruct Hsr as (Hoc0 & Hnc1 & Hol0).
    rewrite Hoc0, Hnc1, Z.add_0_r in Hch'.
    rewrite seqZ_cons by lia. rewrite fmap_cons. f_equal.
    + destruct r as [ty os oc ns nc ol nl]. simpl in *. by subst.
    + rewrite (IH (new_start r + 1) y'); [|done|done|lia].
      by replace (Z.pred (y' - new_start r)) with (y' - (new_start r + 1)) by lia.
Qed.

(** A chain that stays in one row is a run of deletions. *)
Lemma chain_row a b y :
  forall ops x x', chain a b x y ops x' y -> Forall shape_ok ops -> 0 <= x ->
  ops = (fun i => mkDiffResult DELETE i 1 y 0 (py_slice a i (i + 1)) []) <$> seqZ x (x' - x).
Proof.
  induction ops as [|r ops IH]; intros x x' Hch Hsh Hx.
  - inversion Hch; subst. by rewrite Z.sub_diag.
  - inversion Hch as [|? ? ? ? ? ? Hok Hos Hns Hch']; subst.
    apply Forall_cons in Hsh as [Hsr Hsh].
    pose proof (chain_le _ _ _ _ _ _ _ Hch') as [Hle1 Hle2].
    destruct Hok as (_ & _ & Hoc & Hnc & Hol & Hnl & _).
    unfold shape_ok in Hsr.
    destruct (type r) eqn:Hty; [lia|lia| |lia].
    destruct Hsr as (Hoc1 & Hnc0 & Hnl0).
    rewrite Hoc1, Hnc0, Z.add_0_r in Hch'.
    rewrite seqZ_cons by lia. rewrite fmap_cons. f_equal.
    + destruct r as [ty os oc ns nc ol nl]. simpl in *. by subst.
    + rewrite (IH (old_start r + 1) x'); [|done|done|lia].
      by replace (Z.pred (x' - old_start r)) with (x' - (old_start r + 1)) by lia.
Qed.

Lemma fmap_seqZ_imap_after {A B} (f : Z -> list A -> B) (pre l : list A) :
  (fun i => f i (py_slice (pre ++ l) i (i + 1))) <$> seqZ (len pre) (len l)
  = imap (fun i x => f (len pre + Z.of_nat i) [x]) l.
Proof.
  apply list_eq. intros i. rewrite list_lookup_fmap, list_lookup_imap.
  destruct (l !! i) as [x|] eqn:Hx.
  - apply lookup_lt_Some in Hx as Hlt.
    rewrite lookup_seqZ_lt by (unfold len; lia). simpl.
    rewrite (py_slice_one (pre ++ l) (len pre + Z.of_nat i) x); [done|unfold len; lia|].
    unfold len. rewrite <- Nat2Z.inj_add, Nat2Z.id.
    by rewrite lookup_app_r, Nat.add_sub' by lia.
  - apply lookup_ge_None in Hx.
    by rewrite lookup_seqZ_ge by (unfold len; lia).
Qed.

Lemma py_slice_prefix {A} (pre l : list A) : py_slice (pre ++ l) 0 (len pre) = pre.
Proof.
  rewrite py_slice_nonneg by (unfold len; lia). unfold len.
  rewrite length_app. rewrite Z.min_l, Z.min_l by lia.
  rewrite Z.sub_0_r, Nat2Z.id. change (Z.to_nat 0) with 0%nat. rewrite drop_0.
  by rewrite take_app_length.
Qed.

Section Extended.
Context {regex : Regex} {difflib : Difflib}.

Lemma engine_differ_off A B :
  engine_differ no_options A B = MyersDiff_init A B false false false.
Proof. unfold engine_differ. by rewrite !preprocess_lines_off. Qed.

Lemma compare_lines_off_sound A B :
  exists ops,
    compare_lines no_options A B = Ok ops /\
    compute (MyersDiff_init A B false false false) = Ok ops /\
    chain A B 0 0 ops (len A) (len B) /\ Forall shape_ok ops.
Proof.
  destruct (compare_lines_sound no_options A B) as (ops & Hcl & Hc & Hch & He & _).
  exists ops. rewrite engine_differ_off in Hc, Hch.
  rewrite !preprocess_lines_off in Hch.
  cbn [MyersDiff_init processed_a processed_b] in Hch.
  rewrite !preprocess_sequence_off in Hch.
  repeat split; try done.
  pose proof (chain_ops_ok _ _ _ _ _ _ _ Hch) as Hok.
  rewrite Forall_forall in Hok, He. apply Forall_forall. intros r Hr.
  by eapply op_equal_shape; [apply Hok|apply He].
Qed.

Lemma compute_off_leading_block A B :
  0 < Z.of_nat (common_prefix A B) ->
  exists rest,
    compute (MyersDiff_init A B false false false)
    = Ok (mkDiffResult EQUAL 0 (Z.of_nat (common_prefix A B)) 0 (Z.of_nat (common_prefix A B))
            (py_slice A 0 (Z.of_nat (common_prefix A B)))
            (py_slice B 0 (Z.of_nat (common_prefix A B))) :: rest).
Proof.
  intros Hp.
  destruct (compute_leading_block (MyersDiff_init A B false false false) eq_refl eq_refl)
    as (rest & Hc & _).
  { cbn [MyersDiff_init processed_a processed_b]. by rewrite !preprocess_sequence_off. }
  cbn [MyersDiff_init processed_a processed_b seq_a seq_b] in Hc.
  rewrite !preprocess_sequence_off in Hc. by exists rest.
Qed.

(** X30. One list the beginning of the other, with no options: for
    every non-empty [X] and every [extra],
    [compare_lines(X, X + extra)] is exactly one Equal over [X]
    followed by one Insert for each line of [extra], each with
    [old_start = len(X)], and [compare_lines(X + extra, X)] is the
    Equal followed by one Delete for each line of [extra], each with
    [new_start = len(X)]. *)
Theorem compare_lines_extended (X extra : list string) :
  X <> [] ->
  compare_lines no_options X (X ++ extra)
  = Ok (mkDiffResult EQUAL 0 (len X) 0 (len X) X X :: insertions_after (len X) extra) /\
  compare_lines no_options (X ++ extra) X
  = Ok (mkDiffResult EQUAL 0 (len X) 0 (len X) X X :: deletions_after (len X) extra).
Proof.
  intros Hne.
  assert (Hpos : 0 < len X) by (destruct X; [done|unfold len; simpl; lia]).
  assert (Hlen : len (X ++ extra) - len X = len extra).
  { unfold len. rewrite length_app. lia. }
  split.
  - destruct (compare_lines_off_sound X (X ++ extra)) as (ops & -> & Hc & Hch & Hsh).
    destruct (compute_off_leading_block X (X ++ extra)) as (rest & Hc');
      [by rewrite common_prefix_app|].
    rewrite common_prefix_app in Hc'. fold (len X) in Hc'.
    rewrite Hc in Hc'. injection Hc' as ->.
    rewrite py_slice_prefix, py_slice_all.
    do 2 f_equal.
    inversion Hch as [|? ? ? ? ? ? _ _ _ Hch']; subst. cbn [old_count new_count] in Hch'.
    apply Forall_cons in Hsh as [_ Hsh].
    rewrite Z.add_0_l in Hch'.
    rewrite (chain_column _ _ _ _ _ _ Hch' Hsh) by lia.
    rewrite Hlen.
    apply (fmap_seqZ_imap_after (fun j l => mkDiffResult INSERT (len X) 0 j 1 [] l)).
  - destruct (compare_lines_off_sound (X ++ extra) X) as (ops & -> & Hc & Hch & Hsh).
    destruct (compute_off_leading_block (X ++ extra) X) as (rest & Hc');
      [by rewrite common_prefix_app_l|].
    rewrite common_prefix_app_l in Hc'. fold (len X) in Hc'.
    rewrite Hc in Hc'. injection Hc' as ->.
    rewrite py_slice_prefix, py_slice_all.
    do 2 f_equal.
    inversion Hch as [|? ? ? ? ? ? _ _ _ Hch']; subst. cbn [old_count new_count] in Hch'.
    apply Forall_cons in Hsh as [_ Hsh].
    rewrite Z.add_0_l in Hch'.
    rewrite (chain_row _ _ _ _ _ _ Hch' Hsh) by lia.
    rewrite Hlen.
    apply (fmap_seqZ_imap_after (fun i l => mkDiffResult DELETE i 1 (len X) 0 l [])).
Qed.
End Extended.

(** The theorem at the list ["a"] and the extra lines ["x", "y"]. *)
Lemma compare_lines_extended_witness :
  ["a"%string] <> [] /\
  compare_lines (regex := null_regex) (difflib := null_difflib) no_options
    ["a"%string] (["a"%string] ++ ["x"; "y"]%string)
  = Ok (mkDiffResult EQUAL 0 (len ["a"%string]) 0 (len ["a"%string]) ["a"%string] ["a"%string]
        :: insertions_after (len ["a"%string]) ["x"; "y"]%string) /\
  compare_lines (regex := null_regex) (difflib := null_difflib) no_options
    (["a"%string] ++ ["x"; "y"]%string) ["a"%string]
  = Ok (mkDiffResult EQUAL 0 (len ["a"%string]) 0 (len ["a"%string]) ["a"%string] ["a"%string]
        :: deletions_after (len ["a"%string]) ["x"; "y"]%string).
Proof.
  assert (Hne : ["a"%string] <> []) by discriminate.
  split; [exact Hne|].
  exact (compare_lines_extended (regex := null_regex) (difflib := null_difflib)
           ["a"%string] ["x"; "y"]%string Hne).
Defined.
